(** * lm_desktop_assistant: the streaming worker, the reply post-processing
      and the display formatter

    A shallow embedding of [src/lm_desktop_assistant.py].  Python [str] values
    are lists of Unicode code points; the [re] module is embedded as a small
    backtracking matcher with the priorities of CPython's engine, and every
    pattern of the source is written as a term of its syntax. *)

From Stdlib Require Import String Ascii DecimalString.
From Stdlib Require Import List NArith ZArith QArith Bool Arith Lia Sorted.
Import ListNotations.

Local Open Scope N_scope.
Local Open Scope list_scope.

(** ** Text *)

Module Text.

(** A code point, and a Python [str]. *)
Definition char := N.
Definition str := list char.

Definition bytes_of_string (s : String.string) : list N :=
  List.map Ascii.N_of_ascii (String.list_ascii_of_string s).

Fixpoint utf8_go (l : list N) (need : nat) (acc : N) : str :=
  match l with
  | [] => []
  | b :: t =>
      match need with
      | S n =>
          let acc' := acc * 64 + b mod 64 in
          match n with
          | O => acc' :: utf8_go t 0 0
          | S _ => utf8_go t n acc'
          end
      | O =>
          if b <? 128 then b :: utf8_go t 0 0
          else if b <? 224 then utf8_go t 1 (b mod 32)
          else if b <? 240 then utf8_go t 2 (b mod 16)
          else utf8_go t 3 (b mod 8)
      end
  end.

(** [u "..."] reads a literal of this file (UTF-8) as the code points it
    denotes, as a Python source literal does. *)
Definition u (s : String.string) : str := utf8_go (bytes_of_string s) 0 0.

Definition dquote : char := 34.
Definition squote : char := 39.
Definition newline : char := 10.
Definition lt : char := 60.
Definition gt : char := 62.

Definition str_eqb (a b : str) : bool :=
  if list_eq_dec N.eq_dec a b then true else false.

(** [str.isspace] on one code point, which is also the class [\s] of a
    pattern on [str]. *)
Definition isspace (c : char) : bool :=
  ((9 <=? c) && (c <=? 13)) || ((28 <=? c) && (c <=? 32))
  || (c =? 133) || (c =? 160) || (c =? 5760)
  || ((8192 <=? c) && (c <=? 8202))
  || (c =? 8232) || (c =? 8233) || (c =? 8239) || (c =? 8287) || (c =? 12288).

Fixpoint lstrip (s : str) : str :=
  match s with
  | c :: t => if isspace c then lstrip t else s
  | [] => []
  end.

Definition rstrip (s : str) : str := rev (lstrip (rev s)).

(** [s.strip()] *)
Definition strip (s : str) : str := rstrip (lstrip s).

(** A text with no blank at its head, at either end. *)
Definition head_tidy (s : str) : Prop :=
  match s with
  | [] => True
  | c :: _ => isspace c = false
  end.

Definition tidy (s : str) : Prop := head_tidy s /\ head_tidy (rev s).

Fixpoint startswith (p s : str) : bool :=
  match p, s with
  | [], _ => true
  | a :: p', b :: s' => (a =? b) && startswith p' s'
  | _ :: _, [] => false
  end.

(** [s.replace(old, new)] for a non-empty [old]: the occurrences are taken
    from the left and do not overlap; [k] counts the characters of the
    occurrence in progress that are still to be passed over. *)
Fixpoint replace_go (old new : str) (k : nat) (s : str) : str :=
  match s with
  | [] => []
  | c :: t =>
      match k with
      | S k' => replace_go old new k' t
      | O =>
          if startswith old s
          then new ++ replace_go old new (length old - 1) t
          else c :: replace_go old new 0 t
      end
  end.

Definition replace (old new s : str) : str := replace_go old new 0 s.

(** [str(n)] for a non-negative integer. *)
Definition str_of_nat (n : nat) : str :=
  bytes_of_string (DecimalString.NilEmpty.string_of_uint (Nat.to_uint n)).

(** [str(z)] for an integer. *)
Definition str_of_Z (z : Z) : str :=
  bytes_of_string (DecimalString.NilEmpty.string_of_int (Z.to_int z)).

(** [html.escape(s)] with its default [quote=True]: five replacements, the
    ampersand first. *)
Definition html_escape (s : str) : str :=
  let s := replace (u "&") (u "&amp;") s in
  let s := replace (u "<") (u "&lt;") s in
  let s := replace (u ">") (u "&gt;") s in
  let s := replace [dquote] (u "&quot;") s in
  replace [squote] (u "&#x27;") s.

End Text.

Import Text.

(** ** Regular expressions *)

Module Re.

(** The fragment of the pattern language the source uses.  A flag of the
    pattern ([re.I], [re.DOTALL], [(?m)]) is part of the term: it selects the
    class a literal or a dot stands for and the behaviour of an anchor. *)
Inductive regex : Type :=
| Eps
| Cls (p : char -> bool)
| Seq (a b : regex)
| Alt (a b : regex)
| Rep (greedy : bool) (lo : nat) (hi : option nat) (a : regex)
| Grp (i : nat) (a : regex)
| Bol (multiline : bool)
| Eol (multiline : bool)
| NotBehind (p : char -> bool)
| NotAhead (p : char -> bool).

(** A position in the subject: the text behind it (nearest character first),
    the text ahead, and the groups captured so far. *)
Record mstate : Type := MState {
  bef : str;
  rest : str;
  caps : list (nat * str)
}.

Definition step (c : char) (t : str) (st : mstate) : mstate :=
  MState (c :: bef st) t (caps st).

(** The text consumed between two positions of one attempt. *)
Definition consumed (st e : mstate) : str :=
  rev (firstn (length (bef e) - length (bef st)) (bef e)).

Definition set_cap (i : nat) (st e : mstate) : mstate :=
  MState (bef e) (rest e) ((i, consumed st e) :: caps e).

Definition at_bol (multiline : bool) (st : mstate) : bool :=
  match bef st with
  | [] => true
  | c :: _ => multiline && (c =? newline)
  end.

Definition at_eol (multiline : bool) (st : mstate) : bool :=
  match rest st with
  | [] => true
  | c :: t =>
      (c =? newline) && (multiline || match t with [] => true | _ => false end)
  end.

Definition dec_hi (hi : option nat) : option nat := option_map Nat.pred hi.

Definition hi_open (hi : option nat) : bool :=
  match hi with
  | Some O => false
  | _ => true
  end.

(** A repeat [a{lo,hi}] whose body is tried by [body]: [lo] and [hi] count the
    rounds still owed and still allowed.  A round past the owed ones must
    consume something, so [lo] plus the length of the text ahead bounds the
    number of rounds, and [fuel] starts there. *)
Fixpoint rep_loop (body : (mstate -> option mstate) -> mstate -> option mstate)
    (k : mstate -> option mstate) (greedy : bool) (fuel lo : nat)
    (hi : option nat) (st : mstate) {struct fuel} : option mstate :=
  match fuel with
  | O => match lo with O => k st | S _ => None end
  | S fuel' =>
      let again (_ : unit) :=
        if hi_open hi then
          body (fun e =>
                  if (length (rest e) <? length (rest st))%nat || (0 <? lo)%nat
                  then rep_loop body k greedy fuel' (Nat.pred lo) (dec_hi hi) e
                  else None) st
        else None in
      match lo with
      | S _ => again tt
      | O =>
          if greedy then
            match again tt with
            | Some e => Some e
            | None => k st
            end
          else
            match k st with
            | Some e => Some e
            | None => again tt
            end
      end
  end.

(** The matcher, in continuation-passing style: [m r k st] tries [r] at [st]
    and hands every way of matching it to [k], in the engine's order of
    preference (left alternative first, greedy repeats longest first, lazy
    ones shortest first); the first success is the match. *)
Fixpoint m (r : regex) (k : mstate -> option mstate) (st : mstate)
  {struct r} : option mstate :=
  match r with
  | Eps => k st
  | Cls p =>
      match rest st with
      | c :: t => if p c then k (step c t st) else None
      | [] => None
      end
  | Seq a b => m a (m b k) st
  | Alt a b =>
      match m a k st with
      | Some e => Some e
      | None => m b k st
      end
  | Grp i a => m a (fun e => k (set_cap i st e)) st
  | Rep greedy lo hi a =>
      rep_loop (m a) k greedy (lo + length (rest st))%nat lo hi st
  | Bol ml => if at_bol ml st then k st else None
  | Eol ml => if at_eol ml st then k st else None
  | NotBehind p =>
      match bef st with
      | c :: _ => if p c then None else k st
      | [] => k st
      end
  | NotAhead p =>
      match rest st with
      | c :: _ => if p c then None else k st
      | [] => k st
      end
  end.

(** The end of an attempt.  After an empty match the next attempt at the same
    place must advance. *)
Definition final (must_advance : bool) (b : str) (e : mstate) : option mstate :=
  if must_advance && (length (bef e) =? length b)%nat then None else Some e.

Definition attempt (r : regex) (must_advance : bool) (b s : str)
  : option mstate :=
  m r (final must_advance b) (MState b s []).

(** One match: the unmatched text since the previous one, the matched text,
    and its groups. *)
Record found : Type := Found {
  f_before : str;
  f_text : str;
  f_caps : list (nat * str)
}.

Definition mlen (b : str) (e : mstate) : nat := (length (bef e) - length b)%nat.

Definition mk_found (pend b s : str) (e : mstate) : found :=
  Found (rev pend) (firstn (mlen b e) s) (caps e).

Definition exhausted (cnt : option nat) : bool :=
  match cnt with
  | Some O => true
  | _ => false
  end.

Definition cons_fst {A B} (a : A) (p : list A * B) : list A * B :=
  (a :: fst p, snd p).

(** The loop shared by [re.sub], [re.subn] and [re.split]: the successive
    non-overlapping matches from the left, at most [cnt] of them, and the
    text after the last one.  [skip] counts the characters of the last match
    still to be passed over, [pend] holds the unmatched text met since. *)
Fixpoint scan_go (r : regex) (cnt : option nat) (skip : nat)
    (pend b s : str) {struct s} : list found * str :=
  match skip with
  | S k =>
      match s with
      | [] => ([], [])
      | c :: t => scan_go r cnt k [] (c :: b) t
      end
  | O =>
      if exhausted cnt then ([], rev pend ++ s) else
      match attempt r false b s with
      | None =>
          match s with
          | [] => ([], rev pend)
          | c :: t => scan_go r cnt 0 (c :: pend) (c :: b) t
          end
      | Some e =>
          let f1 := mk_found pend b s e in
          match mlen b e with
          | S n =>
              match s with
              | [] => ([f1], [])
              | c :: t => cons_fst f1 (scan_go r (dec_hi cnt) n [] (c :: b) t)
              end
          | O =>
              if exhausted (dec_hi cnt) then ([f1], s) else
              match attempt r true b s with
              | Some e2 =>
                  let f2 := mk_found [] b s e2 in
                  match s with
                  | [] => ([f1; f2], [])
                  | c :: t =>
                      cons_fst f1
                        (cons_fst f2
                           (scan_go r (dec_hi (dec_hi cnt))
                              (Nat.pred (mlen b e2)) [] (c :: b) t))
                  end
              | None =>
                  match s with
                  | [] => ([f1], [])
                  | c :: t =>
                      cons_fst f1 (scan_go r (dec_hi cnt) 0 [c] (c :: b) t)
                  end
              end
          end
      end
  end.

Definition scan (r : regex) (cnt : option nat) (s : str) : list found * str :=
  scan_go r cnt 0 [] [] s.

Fixpoint lookup (i : nat) (l : list (nat * str)) : option str :=
  match l with
  | [] => None
  | (j, v) :: t => if (i =? j)%nat then Some v else lookup i t
  end.

(** [m.group(i)], the empty text standing for a group that took no part. *)
Definition group (i : nat) (f : found) : str :=
  match lookup i (f_caps f) with
  | Some v => v
  | None => []
  end.

(** [re.sub(pattern, repl, s)] with a callable [repl]. *)
Definition sub_with (r : regex) (repl : found -> str) (s : str) : str :=
  let (fs, tl) := scan r None s in
  concat (List.map (fun f => f_before f ++ repl f) fs) ++ tl.

(** A replacement template: literal text and group references. *)
Inductive piece : Type :=
| TLit (s : str)
| TGrp (i : nat).

Definition expand (t : list piece) (f : found) : str :=
  concat (List.map (fun p => match p with TLit s => s | TGrp i => group i f end) t).

(** [re.sub(pattern, template, s)] *)
Definition sub (r : regex) (t : list piece) (s : str) : str :=
  sub_with r (expand t) s.

(** [re.subn(pattern, repl, s, count=cnt)] *)
Definition subn (r : regex) (repl : found -> str) (cnt : nat) (s : str)
  : str * nat :=
  let (fs, tl) := scan r (match cnt with O => None | S _ => Some cnt end) s in
  (concat (List.map (fun f => f_before f ++ repl f) fs) ++ tl, length fs).

(** [re.split(pattern, s)] for a pattern with one group. *)
Definition split1 (r : regex) (s : str) : list str :=
  let (fs, tl) := scan r None s in
  flat_map (fun f => [f_before f; group 1 f]) fs ++ [tl].

(** Pattern syntax. *)
Definition chr (c : char) : regex := Cls (N.eqb c).
Definition any : regex := Cls (fun _ => true).
Definition dot : regex := Cls (fun c => negb (c =? newline)).
Definition ws : regex := Cls isspace.
Definition oneof (l : str) : regex := Cls (fun c => existsb (N.eqb c) l).
Definition noneof (l : str) : regex := Cls (fun c => negb (existsb (N.eqb c) l)).

Fixpoint lit (s : str) : regex :=
  match s with
  | [] => Eps
  | [c] => chr c
  | c :: t => Seq (chr c) (lit t)
  end.

Fixpoint seq (l : list regex) : regex :=
  match l with
  | [] => Eps
  | [r] => r
  | r :: t => Seq r (seq t)
  end.

Fixpoint alt (l : list regex) : regex :=
  match l with
  | [] => Cls (fun _ => false)
  | [r] => r
  | r :: t => Alt r (alt t)
  end.

Definition star (a : regex) : regex := Rep true 0 None a.
Definition plus (a : regex) : regex := Rep true 1 None a.
Definition opt (a : regex) : regex := Rep true 0 (Some 1%nat) a.
Definition star_lazy (a : regex) : regex := Rep false 0 None a.
Definition plus_lazy (a : regex) : regex := Rep false 1 None a.

(** What a match is, whatever the order in which the engine looks for it:
    [matches r st e] when [r] can take the subject from position [st] to
    position [e]. *)
Inductive iter (R : mstate -> mstate -> Prop) : nat -> mstate -> mstate -> Prop :=
| iter_stop st : iter R 0 st st
| iter_step lo st mid e :
    R st mid -> iter R (Nat.pred lo) mid e -> iter R lo st e.

Fixpoint matches (r : regex) (st e : mstate) : Prop :=
  match r with
  | Eps => e = st
  | Cls p => exists c t, rest st = c :: t /\ p c = true /\ e = step c t st
  | Seq a b => exists mid, matches a st mid /\ matches b mid e
  | Alt a b => matches a st e \/ matches b st e
  | Rep _ lo _ a => iter (matches a) lo st e
  | Grp i a => exists e', matches a st e' /\ e = set_cap i st e'
  | Bol ml => at_bol ml st = true /\ e = st
  | Eol ml => at_eol ml st = true /\ e = st
  | NotBehind p =>
      match bef st with c :: _ => p c = false | [] => True end /\ e = st
  | NotAhead p =>
      match rest st with c :: _ => p c = false | [] => True end /\ e = st
  end.

(** A matcher asks its continuation about positions no further from the end
    than its own, and succeeds only through it. *)
Definition local (body : (mstate -> option mstate) -> mstate -> option mstate)
  : Prop :=
  forall k1 k2 st,
    (forall e, (length (rest e) <= length (rest st))%nat -> k1 e = k2 e) ->
    body k1 st = body k2 st.

Definition strict (body : (mstate -> option mstate) -> mstate -> option mstate)
  : Prop :=
  forall st, body (fun _ => None) st = None.

(** [e] lies [txt] further than [st] in the same subject. *)
Definition span (st e : mstate) (txt : str) : Prop :=
  rest st = txt ++ rest e /\ bef e = rev txt ++ bef st.

(** A match found by the scan: some attempt, started with no group set, ran
    over the matched text and left the groups of the match. *)
Definition found_ok (r : regex) (f : found) : Prop :=
  exists st e,
    caps st = [] /\ matches r st e /\ span st e (f_text f) /\ f_caps f = caps e.

(** The subject a scan went through, put together again. *)
Definition rebuilt (fs : list found) (tl : str) : str :=
  concat (List.map (fun f => f_before f ++ f_text f) fs) ++ tl.

(** Every match of [r] starts at a position with the character [c] somewhere
    ahead: [r] cannot match without taking a [c]. *)
Fixpoint demands (c : char) (r : regex) : Prop :=
  match r with
  | Cls p => forall x, p x = true -> x = c
  | Seq a b => demands c a \/ demands c b
  | Alt a b => demands c a /\ demands c b
  | Rep _ lo _ a => (0 < lo)%nat /\ demands c a
  | Grp _ a => demands c a
  | _ => False
  end.

End Re.

Import Re.


(** ** Decoded JSON *)

Module Json.

#[local] Set Warnings "-register-all".

(** The three constants [json.loads] accepts besides finite numbers. *)
Inductive special : Type := NaN | PosInf | NegInf.

(** A value as [json.loads] returns it.  A finite number, [int] or [float], is
    kept as the rational it denotes: the program only tests numbers for
    truth and for equality, which Python decides on the exact values.  A dict
    is the list of its items in insertion order, its keys distinct. *)
Inductive json : Type :=
| JNull
| JBool (b : bool)
| JNum (q : Q)
| JSpecial (x : special)
| JStr (s : str)
| JArr (l : list json)
| JObj (d : list (str * json)).

Fixpoint dict_get (key : str) (d : list (str * json)) : option json :=
  match d with
  | [] => None
  | (k, v) :: t => if str_eqb k key then Some v else dict_get key t
  end.

(** [bool(v)] *)
Definition truthy (v : json) : bool :=
  match v with
  | JNull => false
  | JBool b => b
  | JNum q => negb (Qeq_bool q 0)
  | JSpecial _ => true
  | JStr s => match s with [] => false | _ => true end
  | JArr l => match l with [] => false | _ => true end
  | JObj d => match d with [] => false | _ => true end
  end.

Definition special_eqb (x y : special) : bool :=
  match x, y with
  | NaN, NaN | PosInf, PosInf | NegInf, NegInf => true
  | _, _ => false
  end.

Definition Q_of_bool (b : bool) : Q := if b then 1%Q else 0%Q.

(** The comparison behind [x in list]: identity or [==].  [True == 1] and
    [1 == 1.0] hold; the decoder's [NaN] is one object, so it is found in a
    list that holds it. *)
Fixpoint py_eq (a b : json) {struct a} : bool :=
  match a, b with
  | JNull, JNull => true
  | JBool x, JBool y => Bool.eqb x y
  | JBool x, JNum q => Qeq_bool (Q_of_bool x) q
  | JNum q, JBool x => Qeq_bool q (Q_of_bool x)
  | JNum p, JNum q => Qeq_bool p q
  | JSpecial x, JSpecial y => special_eqb x y
  | JStr s, JStr t => str_eqb s t
  | JArr l, JArr l' =>
      (fix go (l l' : list json) {struct l} : bool :=
         match l, l' with
         | [], [] => true
         | x :: t, y :: t' => py_eq x y && go t t'
         | _, _ => false
         end) l l'
  | JObj d, JObj d' =>
      (length d =? length d')%nat
      && (fix go (d : list (str * json)) {struct d} : bool :=
            match d with
            | [] => true
            | (k, v) :: t =>
                match dict_get k d' with
                | Some v' => py_eq v v'
                | None => false
                end && go t
            end) d
  | _, _ => false
  end.

(** [v.get(key, default)]; [None] when [v] has no such method. *)
Definition py_get (v : json) (key : str) (default : json) : option json :=
  match v with
  | JObj d =>
      Some (match dict_get key d with Some x => x | None => default end)
  | _ => None
  end.

(** [v[0]]; [None] when the indexing raises. *)
Definition py_index0 (v : json) : option json :=
  match v with
  | JArr (x :: _) => Some x
  | JStr (c :: _) => Some (JStr [c])
  | _ => None
  end.

Definition bind {A B : Type} (o : option A) (f : A -> option B) : option B :=
  match o with
  | Some a => f a
  | None => None
  end.

End Json.

Import Json.

(** ** StreamWorker *)

Module StreamWorker.

Definition bytes := list N.

(** What the program asks of its libraries: [json.loads], [bytes.decode] in its
    strict and in its error-ignoring form, and the text of the [TypeError]
    with which a [pyqtSignal(str)] refuses an argument that is not a [str]. *)
Class Library : Type := {
  json_loads : str -> option json;
  decode_utf8 : bytes -> option str;
  decode_ignore : bytes -> str;
  emit_type_error : json -> str
}.

Inductive Role : Type := system | user | assistant.

Record message : Type := Message {
  role : Role;
  content : str
}.

(** The four signals of the class. *)
Inductive event : Type :=
| update_signal (text : str)
| finish_signal
| error_signal (msg : str)
| progress_signal (value : Z).

Record worker : Type := Worker {
  messages : list message;
  model : str;
  _stop : bool;
  token_count : Z
}.

Definition DEFAULT_MODEL : str := u "qwen/qwen3-30b-a3b-2507".

(** [__init__] *)
Definition init (messages : list message) (model : str) : worker :=
  Worker messages model false 0.

(** [stop] *)
Definition stop (w : worker) : worker :=
  Worker (messages w) (model w) true (token_count w).

(** What the response iterator does next, seen from the worker thread: it
    yields a raw line, or raises (a transport failure in mid-stream); between
    two lines another thread may have called [stop]. *)
Inductive stream_item : Type :=
| Line (raw : bytes)
| StopCalled
| IterRaises (e : str).

Record response : Type := Response {
  status_code : Z;
  resp_text : option str;
  iter_lines : list stream_item
}.

Inductive post_result : Type :=
| PostRaises (e : str)
| PostReturns (resp : response).

(** How one turn of the loop ends. *)
Inductive flow : Type :=
| Next (w : worker)
| Break
| Raise (e : str).

Section Run.

Context {L : Library}.

(** Lines 69-72 *)
Definition decode_line (raw : bytes) : str :=
  match decode_utf8 raw with
  | Some s => strip s
  | None => strip (decode_ignore raw)
  end.

(** Lines 75-78 *)
Definition payload (line : str) : str :=
  if startswith (u "data:") line then strip (skipn 5 line) else line.

(** [chunk.get("choices", [{}])[0].get(field, {}).get("content", "")] under
    its [try], any exception giving the empty text. *)
Definition extract (chunk : json) (field : str) : json :=
  match
    bind (py_get chunk (u "choices") (JArr [JObj []])) (fun choices =>
    bind (py_index0 choices) (fun choice =>
    bind (py_get choice field (JObj [])) (fun part =>
    py_get part (u "content") (JStr []))))
  with
  | Some v => v
  | None => JStr []
  end.

(** [min(100, int(self.token_count / 1024 * 100))].  The quotient by 1024 and
    the product by 100 are exact in binary floating point as long as the
    product stays below 2^53, and from a count of 1024 on the value is at
    least 100 whatever the rounding, so the integer formula is the value the
    program computes. *)
Definition progress_of (count : Z) : Z := Z.min 100 (count * 100 / 1024).

(** One turn of the loop of [run], lines 65-107. *)
Definition loop_body (w : worker) (raw_line : bytes) : list event * flow :=
  if _stop w then ([], Break) else
  match raw_line with
  | [] => ([], Next w)
  | _ =>
      let content := payload (decode_line raw_line) in
      if str_eqb content (u "[DONE]") then ([], Break) else
      match json_loads content with
      | None => ([update_signal content], Next w)
      | Some chunk =>
          let text_piece := extract chunk (u "delta") in
          let text_piece :=
            if truthy text_piece then text_piece
            else extract chunk (u "message") in
          if truthy text_piece then
            match text_piece with
            | JStr s =>
                let w' := Worker (messages w) (model w) (_stop w)
                                 (token_count w + Z.of_nat (length s)) in
                ([update_signal s; progress_signal (progress_of (token_count w'))],
                 Next w')
            | other => ([], Raise (emit_type_error other))
            end
          else ([], Next w)
      end
  end.

(** The [for] loop: the signals emitted, the worker at the end, and the
    exception that ended the loop if one did. *)
Fixpoint for_lines (w : worker) (items : list stream_item)
  : list event * worker * option str :=
  match items with
  | [] => ([], w, None)
  | StopCalled :: t => for_lines (stop w) t
  | IterRaises e :: _ => ([], w, Some e)
  | Line raw :: t =>
      match loop_body w raw with
      | (evs, Next w') =>
          let '(evs', w'', exn) := for_lines w' t in (evs ++ evs', w'', exn)
      | (evs, Break) => (evs, w, None)
      | (evs, Raise e) => (evs, w, Some e)
      end
  end.

(** [run]: the signals in the order they are emitted, and the worker at the
    end. *)
Definition run (w : worker) (post : post_result) : list event * worker :=
  match post with
  | PostRaises e => ([error_signal (u "请求失败: " ++ e); finish_signal], w)
  | PostReturns resp =>
      if negb (status_code resp =? 200)%Z then
        let body := match resp_text resp with Some b => b | None => [] end in
        ([error_signal (u "HTTP " ++ str_of_Z (status_code resp) ++ u ": " ++ body);
          finish_signal], w)
      else
        let '(evs, w', exn) := for_lines w (iter_lines resp) in
        (evs
           ++ match exn with
              | Some e => [error_signal (u "流处理出错: " ++ e)]
              | None => []
              end
           ++ [finish_signal], w')
  end.

End Run.

Definition is_finish (e : event) : bool :=
  match e with
  | finish_signal => true
  | _ => false
  end.

Definition is_update (e : event) : bool :=
  match e with
  | update_signal _ => true
  | _ => false
  end.

(** The values carried by the progress signals of a run, in order. *)
Fixpoint progress_values (evs : list event) : list Z :=
  match evs with
  | [] => []
  | progress_signal v :: t => v :: progress_values t
  | _ :: t => progress_values t
  end.

(** The signals of the deltas of a stream: update signals, and progress
    signals each of which directly follows an update signal. *)
Fixpoint deltas_from (after_update : bool) (evs : list event) : bool :=
  match evs with
  | [] => true
  | update_signal _ :: t => deltas_from true t
  | progress_signal _ :: t => after_update && deltas_from false t
  | _ => false
  end.

Definition deltas (evs : list event) : bool := deltas_from false evs.

(** The characters of the deltas whose update signal is followed by a progress
    signal. *)
Fixpoint counted (evs : list event) : Z :=
  match evs with
  | [] => 0
  | update_signal s :: t =>
      match t with
      | progress_signal _ :: _ => Z.of_nat (length s)
      | _ => 0
      end + counted t
  | _ :: t => counted t
  end.

End StreamWorker.

Import StreamWorker.

(** ** AIAssistantWindow *)

Module AIAssistantWindow.

(** *** Patterns of [_format_display_text] *)

Definition backtick : char := 96.
Definition asterisk : char := 42.
Definition hash : char := 35.
Definition pipe : char := 124.
Definition dash : char := 45.
Definition colon : char := 58.

(** [```([\s\S]*?)```] *)
Definition p_code_fence : regex :=
  seq [lit (u "```"); Grp 1 (star_lazy any); lit (u "```")].

(** [(?m)^\s{0,3}#{1,6}\s*(.+)$] *)
Definition p_heading : regex :=
  seq [Bol true; Rep true 0 (Some 3%nat) ws; Rep true 1 (Some 6%nat) (chr hash);
       star ws; Grp 1 (plus dot); Eol true].

(** [(?m)^\s*>+\s*(.+)$] *)
Definition p_quote : regex :=
  seq [Bol true; star ws; plus (chr gt); star ws; Grp 1 (plus dot); Eol true].

(** [(?m)^\s*\|?(?:\s*:?-+:?\s*\|)+\s*$] *)
Definition p_table_rule : regex :=
  seq [Bol true; star ws; opt (chr pipe);
       plus (seq [star ws; opt (chr colon); plus (chr dash); opt (chr colon);
                  star ws; chr pipe]);
       star ws; Eol true].

(** [\s*\|\s*] *)
Definition p_pipe : regex := seq [star ws; chr pipe; star ws].

(** [(?m)^\s*(-{3,}|\*{3,})\s*$] *)
Definition p_hrule : regex :=
  seq [Bol true; star ws;
       Grp 1 (Alt (Rep true 3 None (chr dash)) (Rep true 3 None (chr asterisk)));
       star ws; Eol true].

(** The bullet pattern (source line 572): under [(?m)], [^\s*-\s+] and then
    group 1, the possibly empty rest of the line, up to [$]. *)
Definition p_bullet : regex :=
  seq [Bol true; star ws; chr dash; plus ws; Grp 1 (star dot); Eol true].

(** [@@HDR@@(.*?)@@ENDHDR@@] with [re.DOTALL] *)
Definition p_hdr_mark : regex :=
  seq [lit (u "@@HDR@@"); Grp 1 (star_lazy any); lit (u "@@ENDHDR@@")].

(** [@@QUOTE@@(.*?)@@ENDQ@@] with [re.DOTALL] *)
Definition p_quote_mark : regex :=
  seq [lit (u "@@QUOTE@@"); Grp 1 (star_lazy any); lit (u "@@ENDQ@@")].

(** [\*\*(.+?)\*\*] *)
Definition p_bold : regex :=
  seq [lit (u "**"); Grp 1 (plus_lazy dot); lit (u "**")].

(** The italic pattern (source line 584): group 1 = [.+?] between two single
    asterisks, each neither preceded nor followed by another asterisk. *)
Definition p_italic : regex :=
  seq [NotBehind (N.eqb asterisk); chr asterisk; NotAhead (N.eqb asterisk);
       Grp 1 (plus_lazy dot);
       NotBehind (N.eqb asterisk); chr asterisk; NotAhead (N.eqb asterisk)].

(** [`(.+?)`] *)
Definition p_code : regex :=
  seq [chr backtick; Grp 1 (plus_lazy dot); chr backtick].

(** [(\s*\n){3,}] *)
Definition blank_line : regex := Grp 1 (Seq (star ws) (chr newline)).

Definition p_blank_lines : regex := Rep true 3 None blank_line.

(** *** The markup the formatter writes *)

Definition hdr_open : str :=
  u "<div style=" ++ [dquote] ++ u "font-weight:700;margin:6px 0;" ++ [dquote]
    ++ u ">".
Definition div_close : str := u "</div>".
Definition quote_open : str :=
  u "<div style=" ++ [dquote]
    ++ u "color:#666;margin-left:10px;border-left:3px solid #eee;padding-left:8px;"
    ++ [dquote] ++ u ">".
Definition hr_tag : str := u "<hr/>".
Definition b_open : str := u "<b>".
Definition b_close : str := u "</b>".
Definition i_open : str := u "<i>".
Definition i_close : str := u "</i>".
Definition code_open : str :=
  u "<code style=" ++ [dquote]
    ++ u "background:#f0f0f0;padding:2px;border-radius:3px;" ++ [dquote] ++ u ">".
Definition code_close : str := u "</code>".
Definition pre_tag : str :=
  u "<pre style=" ++ [dquote]
    ++ u "background:#f6f8fa;padding:8px;border-radius:6px;" ++ [dquote] ++ u ">".
Definition pre_open : str := pre_tag ++ u "<code>".
Definition pre_close : str := u "</code></pre>".
Definition br_tag : str := u "<br/>".

(** [f"@@CODE{idx}@@"] *)
Definition code_placeholder (idx : nat) : str :=
  u "@@CODE" ++ str_of_nat idx ++ u "@@".

Fixpoint number_from {A : Type} (i : nat) (l : list A) : list (nat * A) :=
  match l with
  | [] => []
  | a :: t => (i, a) :: number_from (S i) t
  end.

(** The first substitution, with its callback [_code_repl]: the i-th fenced
    block is stored under key i of [code_blocks] and replaced by its
    placeholder.  The dict is the list of its items in insertion order. *)
Definition extract_code_blocks (raw : str) : str * list (nat * str) :=
  let (fs, tl) := scan p_code_fence None raw in
  let numbered := number_from 0 fs in
  (concat (List.map (fun nf => f_before (snd nf) ++ code_placeholder (fst nf))
                    numbered) ++ tl,
   List.map (fun nf => (fst nf, group 1 (snd nf))) numbered).

(** The loop over [code_blocks.items()]. *)
Definition restore_code_blocks (code_blocks : list (nat * str)) (escaped : str)
  : str :=
  fold_left
    (fun acc item =>
       replace (code_placeholder (fst item))
               (pre_open ++ html_escape (snd item) ++ pre_close) acc)
    code_blocks escaped.

Definition _format_display_text (text : str) : str :=
  match text with
  | [] => []
  | _ =>
      let raw := replace [13; 10] [newline] text in
      let (raw, code_blocks) := extract_code_blocks raw in
      let raw := sub p_heading [TLit (u "@@HDR@@"); TGrp 1; TLit (u "@@ENDHDR@@")] raw in
      let raw := sub p_quote [TLit (u "@@QUOTE@@"); TGrp 1; TLit (u "@@ENDQ@@")] raw in
      let raw := sub p_table_rule [] raw in
      let raw := sub p_pipe [TLit (u " • ")] raw in
      let raw := sub p_hrule [TLit (u "@@HR@@")] raw in
      let raw := sub p_bullet [TLit (u "• "); TGrp 1] raw in
      let escaped := html_escape raw in
      let escaped := sub p_hdr_mark [TLit hdr_open; TGrp 1; TLit div_close] escaped in
      let escaped := sub p_quote_mark [TLit quote_open; TGrp 1; TLit div_close] escaped in
      let escaped := replace (u "@@HR@@") hr_tag escaped in
      let escaped := sub p_bold [TLit b_open; TGrp 1; TLit b_close] escaped in
      let escaped := sub p_italic [TLit i_open; TGrp 1; TLit i_close] escaped in
      let escaped := sub p_code [TLit code_open; TGrp 1; TLit code_close] escaped in
      let escaped := restore_code_blocks code_blocks escaped in
      let escaped := sub p_blank_lines [TLit [newline; newline]] escaped in
      replace [newline] br_tag escaped
  end.

(** The stages of [_format_display_text], named: the line-structure
    substitutions made before the escaping, the markup written after it, and
    the two steps on line breaks that end the function. *)
Definition structural (raw : str) : str :=
  let raw := sub p_heading [TLit (u "@@HDR@@"); TGrp 1; TLit (u "@@ENDHDR@@")] raw in
  let raw := sub p_quote [TLit (u "@@QUOTE@@"); TGrp 1; TLit (u "@@ENDQ@@")] raw in
  let raw := sub p_table_rule [] raw in
  let raw := sub p_pipe [TLit (u " • ")] raw in
  let raw := sub p_hrule [TLit (u "@@HR@@")] raw in
  sub p_bullet [TLit (u "• "); TGrp 1] raw.

Definition inline_markup (escaped : str) : str :=
  let escaped := sub p_hdr_mark [TLit hdr_open; TGrp 1; TLit div_close] escaped in
  let escaped := sub p_quote_mark [TLit quote_open; TGrp 1; TLit div_close] escaped in
  let escaped := replace (u "@@HR@@") hr_tag escaped in
  let escaped := sub p_bold [TLit b_open; TGrp 1; TLit b_close] escaped in
  let escaped := sub p_italic [TLit i_open; TGrp 1; TLit i_close] escaped in
  sub p_code [TLit code_open; TGrp 1; TLit code_close] escaped.

Definition line_breaks (escaped : str) : str :=
  replace [newline] br_tag
          (sub p_blank_lines [TLit [newline; newline]] escaped).

Definition crlf : str := [13; 10].

(** *** Reply post-processing *)

(** A literal under [re.I]: the characters whose lower case is that of the
    pattern character, with the two folds the engine adds for [i] and [s]. *)
Definition lower (c : char) : char :=
  if (65 <=? c) && (c <=? 90) then c + 32
  else if c =? 304 then 105
  else c.

Definition ci_eq (c x : char) : bool :=
  let l := lower c in
  (lower x =? l)
  || ((l =? 105) && (x =? 305))
  || ((l =? 115) && (x =? 383)).

Definition ci (c : char) : regex := Cls (ci_eq c).

Fixpoint lit_i (s : str) : regex :=
  match s with
  | [] => Eps
  | [c] => ci c
  | c :: t => Seq (ci c) (lit_i t)
  end.

(** [^\s*(AI：|AI:|助手：|助手:|assistant：|assistant:|用户：|User:)\s*] with
    [re.I] *)
Definition p_role_prefix : regex :=
  seq [Bol false; star ws;
       Grp 1 (alt [lit_i (u "AI："); lit_i (u "AI:"); lit_i (u "助手：");
                   lit_i (u "助手:"); lit_i (u "assistant：");
                   lit_i (u "assistant:"); lit_i (u "用户："); lit_i (u "User:")]);
       star ws].

Definition _strip_role_prefixes (text : str) : str :=
  match text with
  | [] => text
  | _ => sub p_role_prefix [] text
  end.

(** [([。！？\n]+)] *)
Definition p_sentence_end : regex :=
  Grp 1 (plus (oneof (u "。！？" ++ [newline]))).

(** The loop [for i in range(0, len(parts), 2)]: [parts[i]] is a sentence and
    [parts[i+1]], when there is one, its delimiter.  [seq] is the list built
    by [seq.append]. *)
Fixpoint collapse_loop (parts : list str) (seq : list str) : list str :=
  match parts with
  | [] => seq
  | sent :: more =>
      let sent := strip sent in
      let delim := match more with d :: _ => d | [] => [] end in
      let full := strip (sent ++ delim) in
      let seq' :=
        match full with
        | [] => seq
        | _ =>
            match rev seq with
            | prev :: _ => if str_eqb prev full then seq else seq ++ [full]
            | [] => seq ++ [full]
            end
        end in
      match more with
      | _ :: parts' => collapse_loop parts' seq'
      | [] => seq'
      end
  end.

Definition _collapse_consecutive_sentences (text : str) : str :=
  match text with
  | [] => text
  | _ => concat (collapse_loop (split1 p_sentence_end text) [])
  end.

(** A character of the class of [p_sentence_end]. *)
Definition is_delim (c : char) : bool := existsb (N.eqb c) (u "。！？" ++ [newline]).

(** One turn of the loop of [_collapse_consecutive_sentences], on a sentence
    and its delimiter. *)
Definition trimmed_unit (unit : str * str) : str :=
  strip (strip (fst unit) ++ snd unit).

Definition keep (seq : list str) (unit : str * str) : list str :=
  let full := trimmed_unit unit in
  match full with
  | [] => seq
  | _ =>
      match rev seq with
      | prev :: _ => if str_eqb prev full then seq else seq ++ [full]
      | [] => seq ++ [full]
      end
  end.

(** [seq[-1]], when there is one. *)
Definition last_kept (seq : list str) : option str :=
  match rev seq with
  | prev :: _ => Some prev
  | [] => None
  end.

(** No delimiter comes next. *)
Definition no_delim_ahead (r : str) : Prop :=
  match r with
  | [] => True
  | x :: _ => is_delim x = false
  end.

(** The list [re.split] makes of the matches of a scan. *)
Definition parts (p : list found * str) : list str :=
  flat_map (fun f => [f_before f; group 1 f]) (fst p) ++ [snd p].

(** *** The post-processing as the specification words it *)

Definition role_labels : list str :=
  [u "AI："; u "AI:"; u "助手："; u "助手:"; u "assistant："; u "assistant:";
   u "用户："; u "User:"].

Fixpoint ci_startswith (p s : str) : bool :=
  match p, s with
  | [], _ => true
  | a :: p', b :: s' => ci_eq a b && ci_startswith p' s'
  | _ :: _, [] => false
  end.

(** The text begins, after optional whitespace, with a role label, whatever
    the case of its letters. *)
Fixpoint begins_with_label (s : str) : bool :=
  existsb (fun l => ci_startswith l s) role_labels
  || match s with
     | c :: t => isspace c && begins_with_label t
     | [] => false
     end.

(** The sentence units of a text: each sentence with the run of delimiters
    that follows it; [sent] and [delims] hold the unit in progress, latest
    character first. *)
Fixpoint split_units (s sent delims : str) : list (str * str) :=
  match s with
  | [] => [(rev sent, rev delims)]
  | c :: t =>
      if is_delim c then split_units t sent (c :: delims)
      else
        match delims with
        | [] => split_units t (c :: sent) []
        | _ => (rev sent, rev delims) :: split_units t [c] []
        end
  end.

Definition units (text : str) : list (str * str) := split_units text [] [].

(** Drop every text equal to the one kept just before it. *)
Fixpoint drop_repeats (prev : option str) (l : list str) : list str :=
  match l with
  | [] => []
  | x :: t =>
      match prev with
      | Some p => if str_eqb p x then drop_repeats prev t
                  else x :: drop_repeats (Some x) t
      | None => x :: drop_repeats (Some x) t
      end
  end.

Definition nonempty (s : str) : bool :=
  match s with [] => false | _ => true end.

(** The function as the specification words it: units keep their delimiter, empty units and
    repeats of the unit kept last are dropped, the rest is joined. *)
Definition collapse_as_claimed (text : str) : str :=
  concat (drop_repeats None
            (filter nonempty (List.map (fun p => fst p ++ snd p) (units text)))).

(** The same with each unit trimmed, as the specification has it. *)
Definition collapse_unit_trimmed (text : str) : str :=
  concat (drop_repeats None
            (filter nonempty
                    (List.map (fun p => strip (fst p ++ snd p)) (units text)))).

(** The same with the trimming the code applies: to the sentence, and to the
    unit once the delimiter is attached. *)
Definition collapse_trimmed (text : str) : str :=
  concat (drop_repeats None
            (filter nonempty (List.map trimmed_unit (units text)))).

(** *** The window and its slots *)

(** The operations of the [QTextEdit] behind [chat_display] that the slots
    call.  How Qt stores and serialises a document is not part of the
    program; nothing below depends on it. *)
Class QTextEdit : Type := {
  document : Type;
  moveCursorEnd : document -> document;
  insertHtml : str -> document -> document;
  toHtml : document -> str;
  setHtml : str -> document -> document;
  toPlainText : document -> str;
  append : str -> document -> document
}.

Definition DEFAULT_SYSTEM_PROMPT : str :=
  u "你是一个专业的 AI 助手，除非用户要求，否则始终使用中文回答。"
  ++ u "回答应简洁、清晰并具可操作性：优先给出直接答案或步骤，必要时提供示例或代码片段，"
  ++ u "遇到不确定或需要更多信息的情况要礼貌地询问澄清问题。"
  ++ u "避免冗长的开场白，重点突出关键点并给出建议或后续操作。"
  ++ u "当用户问你是谁之类的问题时，你回答：我是由 LMStudio 驱动的本地 AI 助手。".

Definition placeholder_id : str := u "ai_holder".

Section Slots.

Context {Q : QTextEdit}.

Record window : Type := Window {
  history : list message;
  current_ai_buffer : str;
  input_box : str;
  model_box : str;
  chat_display : document;
  send_btn : bool;
  stop_btn : bool;
  status : str;
  progress_bar : str;
  history_label : str;
  status_model : str;
  worker : option StreamWorker.worker
}.

Definition indent (n : nat) : str := repeat 32 n.

(** [append_message] *)
Definition append_message (r : Role) (text : str) (d : document) : document :=
  let safe_html := _format_display_text text in
  let role_label := match r with user => u "用户：" | _ => u "AI：" end in
  let bg_color := match r with user => u "#e3f2fd" | _ => u "#f3f4f6" end in
  let block :=
    [newline] ++ indent 8 ++ u "<div style=" ++ [dquote] ++ u "margin:8px 0;"
      ++ [dquote] ++ u ">" ++ [newline]
      ++ indent 10 ++ u "<div style=" ++ [dquote]
      ++ u "font-weight:600;margin-bottom:4px;color:#555;" ++ [dquote] ++ u ">"
      ++ role_label ++ u "</div>" ++ [newline]
      ++ indent 10 ++ u "<div style=" ++ [dquote] ++ u "background:" ++ bg_color
      ++ u ";padding:12px;border-radius:8px;white-space:pre-wrap;" ++ [dquote]
      ++ u ">" ++ safe_html ++ u "</div>" ++ [newline]
      ++ indent 8 ++ u "</div>" ++ [newline] ++ indent 8 in
  moveCursorEnd (insertHtml (u "<br/>") (insertHtml block (moveCursorEnd d))).

(** [append_ai_placeholder] *)
Definition append_ai_placeholder (d : document) : document :=
  let placeholder_html :=
    [newline] ++ indent 8 ++ u "<div style=" ++ [dquote] ++ u "margin:8px 0;"
      ++ [dquote] ++ u ">" ++ [newline]
      ++ indent 10 ++ u "<div style=" ++ [dquote]
      ++ u "background:#f3f4f6;padding:12px;border-radius:8px;white-space:pre-wrap;"
      ++ [dquote] ++ u ">" ++ [newline]
      ++ indent 12 ++ u "<span id=" ++ [dquote] ++ placeholder_id ++ [dquote]
      ++ u "></span>" ++ [newline]
      ++ indent 10 ++ u "</div>" ++ [newline]
      ++ indent 8 ++ u "</div>" ++ [newline]
      ++ indent 8 ++ u "<br/>" ++ [newline] ++ indent 8 in
  moveCursorEnd (insertHtml placeholder_html (moveCursorEnd d)).

(** [on_send] *)
Definition on_send (w : window) : window :=
  let user_text := strip (input_box w) in
  match user_text with
  | [] => w
  | _ =>
      let messages :=
        [Message system DEFAULT_SYSTEM_PROMPT] ++ history w
          ++ [Message user user_text] in
      let history' := history w ++ [Message user user_text] in
      let model := model_box w in
      Window history' [] [] model
             (append_ai_placeholder
                (append_message user user_text (chat_display w)))
             false true (u "正在生成...") (u "响应进度: 0%")
             (u "历史消息: " ++ str_of_nat (length history'))
             (u "模型: " ++ model)
             (Some (StreamWorker.init messages model))
  end.

(** [on_stop] *)
Definition on_stop (w : window) : window :=
  match worker w with
  | Some wk =>
      Window (history w) (current_ai_buffer w) (input_box w) (model_box w)
             (chat_display w) (send_btn w) false (u "已停止")
             (u "响应进度: 已停止") (history_label w) (status_model w)
             (Some (StreamWorker.stop wk))
  | None => w
  end.

(** [update_progress] *)
Definition update_progress (value : Z) (w : window) : window :=
  Window (history w) (current_ai_buffer w) (input_box w) (model_box w)
         (chat_display w) (send_btn w) (stop_btn w) (status w)
         (u "响应进度: " ++ str_of_Z value ++ u "%")
         (history_label w) (status_model w) (worker w).

(** [on_stream_update] *)
Definition on_stream_update (chunk : str) (w : window) : window :=
  Window (history w)
         (_strip_role_prefixes (current_ai_buffer w ++ chunk))
         (input_box w) (model_box w) (moveCursorEnd (chat_display w))
         (send_btn w) (stop_btn w) (status w) (progress_bar w)
         (history_label w) (status_model w) (worker w).

Definition quote_chars : str := [dquote; squote].

(** The pattern of [on_error] for the element with a given id: group 1 an
    opening tag carrying the id, group 2 its content ([.*?] under
    [re.DOTALL]), group 3 the closing tag after it. *)
Definition p_element (id : str) : regex :=
  seq [Grp 1 (seq [chr lt; star (noneof [gt]); lit (u "id="); oneof quote_chars;
                   lit id; oneof quote_chars; star (noneof [gt]); chr gt]);
       Grp 2 (star_lazy any);
       Grp 3 (seq [lit (u "</"); plus (noneof [gt]); chr gt])].

(** [on_error], its display calls taken as total. *)
Definition on_error (msg : str) (w : window) : window :=
  let doc_html := toHtml (chat_display w) in
  let doc_html :=
    fst (subn (p_element placeholder_id)
              (fun f => group 1 f ++ html_escape (u "错误: " ++ msg) ++ group 3 f)
              1 doc_html) in
  let doc_html :=
    fst (subn (p_element (placeholder_id ++ u "_status")) (fun _ => []) 1
              doc_html) in
  Window (history w) (current_ai_buffer w) (input_box w) (model_box w)
         (setHtml doc_html (chat_display w))
         true false (u "出错") (u "响应进度: 出错")
         (history_label w) (status_model w) (worker w).

(** [block_pattern] of [on_stream_finish]: the two nested [div]s around the
    empty placeholder [span], and the line break after them if there is
    one. *)
Definition block_pattern : regex :=
  seq [lit (u "<div"); star (noneof [gt]); chr gt; star ws;
       lit (u "<div"); star (noneof [gt]); chr gt; star ws;
       lit (u "<span"); star (noneof [gt]); lit (u "id="); oneof quote_chars;
       lit placeholder_id; oneof quote_chars; star (noneof [gt]); chr gt;
       star ws; lit (u "</span>"); star ws; lit (u "</div>"); star ws;
       lit (u "</div>"); star ws;
       opt (Grp 1 (seq [lit (u "<br"); star ws; opt (chr 47); chr gt]))].

(** The loop over [reversed(self.history)]: the stripped content of the most
    recent assistant message, [None] when there is none. *)
Fixpoint last_assistant_in (reversed : list message) : option str :=
  match reversed with
  | [] => None
  | msg :: t =>
      match role msg with
      | assistant => Some (strip (content msg))
      | _ => last_assistant_in t
      end
  end.

(** The content of the most recent assistant turn of a history. *)
Definition most_recent_assistant (h : list message) : option str :=
  option_map content
    (find (fun msg => match role msg with assistant => true | _ => false end)
          (rev h)).

(** [final] of [on_stream_finish] *)
Definition final_text (buffer : str) : str :=
  _collapse_consecutive_sentences (_strip_role_prefixes (strip buffer)).

Definition endswith (suffix s : str) : bool := startswith (rev suffix) (rev s).

(** Lines 749-756 *)
Definition finish_history (h : list message) (final : str) : list message :=
  if nonempty final then
    match last_assistant_in (rev h) with
    | Some last_assistant =>
        if str_eqb last_assistant final then h
        else h ++ [Message assistant final]
    | None => h ++ [Message assistant final]
    end
  else h.

(** [on_stream_finish] *)
Definition on_stream_finish (w : window) : window :=
  let final := final_text (current_ai_buffer w) in
  let history' := finish_history (history w) final in
  let doc_html := toHtml (chat_display w) in
  let '(new_html, n) := subn block_pattern (fun _ => []) 1 doc_html in
  let d :=
    match n with
    | S _ =>
        let d := setHtml new_html (chat_display w) in
        if nonempty final then append_message assistant final d else d
    | O =>
        let plain := rstrip (toPlainText (chat_display w)) in
        if nonempty final && negb (endswith final plain)
        then append_message assistant final (chat_display w)
        else chat_display w
    end in
  Window history' (current_ai_buffer w) (input_box w) (model_box w)
         (append [] d) true false (u "就绪") (u "响应进度: 完成")
         (u "历史消息: " ++ str_of_nat (length history'))
         (status_model w) None.

(** The slot each signal is connected to in [on_send]. *)
Definition deliver (e : event) (w : window) : window :=
  match e with
  | update_signal chunk => on_stream_update chunk w
  | error_signal msg => on_error msg w
  | finish_signal => on_stream_finish w
  | progress_signal value => update_progress value w
  end.

(** What reaches the window during a session: a signal of the worker, queued
    to the window's thread in the order of emission, or a click on the stop
    button. *)
Inductive ui_event : Type :=
| Signal (e : event)
| StopClicked.

Definition handle (w : window) (x : ui_event) : window :=
  match x with
  | Signal e => deliver e w
  | StopClicked => on_stop w
  end.

Fixpoint signals_of (trace : list ui_event) : list event :=
  match trace with
  | [] => []
  | Signal e :: t => e :: signals_of t
  | StopClicked :: t => signals_of t
  end.

(** The window after the events of a trace, in order. *)
Definition run_trace (w : window) (trace : list ui_event) : window :=
  fold_left handle trace w.

(** An event other than the finish signal. *)
Definition quiet (x : ui_event) : bool :=
  match x with
  | Signal finish_signal => false
  | _ => true
  end.

End Slots.

(** *** Model discovery *)

(** The request of [fetch_models_from_api] as the function sees it:
    [requests.get] raises, or returns a response whose [json()] gives a value
    or raises. *)
Inductive get_result : Type :=
| GetRaises
| GetReturns (status_code : Z) (json : option json).




Definition is_object (data : json) : bool :=
  match data with
  | JObj _ => true
  | _ => false
  end.

(** [item.get("id") or item.get("name")] *)
Definition entry_name (d : list (str * json)) : json :=
  let get k := match dict_get k d with Some v => v | None => JNull end in
  if truthy (get (u "id")) then get (u "id") else get (u "name").

(** The two loops over the entries, lines 407-411 and 413-417. *)
Fixpoint names_of (items : list json) : list json :=
  match items with
  | [] => []
  | JObj d :: t =>
      let name := entry_name d in
      if truthy name then name :: names_of t else names_of t
  | _ :: t => names_of t
  end.

(** Lines 425-428 *)
Fixpoint dedup (models seen : list json) : list json :=
  match models with
  | [] => seen
  | m :: t => if existsb (py_eq m) seen then dedup t seen else dedup t (seen ++ [m])
  end.

Definition fetch_models_from_api (r : get_result) : list json :=
  match r with
  | GetRaises => []
  | GetReturns status_code body =>
      if negb (status_code =? 200)%Z then [] else
      match body with
      | None => []
      | Some data =>
          let models :=
            match data with
            | JObj d =>
                match dict_get (u "data") d with
                | Some (JArr items) => names_of items
                | _ => []
                end
            | JArr items => names_of items
            | _ => []
            end in
          let models :=
            match models with
            | [] =>
                match data with
                | JObj d => List.map (fun kv => JStr (fst kv)) d
                | _ => []
                end
            | _ => models
            end in
          dedup models []
      end
  end.

(** *** The model list and its file *)

(** A [QMessageBox] shown to the user. *)
Inductive message_box : Type :=
| information (title text : str)
| warning (title text : str).

(** [save_current_model], on the text of the model box and the list of its
    items; [write_error] is the exception raised while the file is written,
    if one is.  The result: the items of the box, the list dumped to the
    models file when the write went through, and the box shown. *)
Definition save_current_model (current_text : str) (items : list str)
    (write_error : option str) : list str * option (list str) * message_box :=
  let current_model := strip current_text in
  match current_model with
  | [] => (items, None, warning (u "警告") (u "模型名称不能为空"))
  | _ =>
      let models := items in
      if existsb (str_eqb current_model) models then
        (items, None,
         information (u "提示") (u "模型 '" ++ current_model ++ u "' 已存在"))
      else
        let items' := items ++ [current_model] in
        match write_error with
        | None =>
            (items', Some (models ++ [current_model]),
             information (u "成功") (u "模型 '" ++ current_model ++ u "' 已保存"))
        | Some e =>
            (items', None, warning (u "错误") (u "保存模型失败: " ++ e))
        end
  end.

(** What [load_saved_models] finds when it opens the models file and decodes
    it: no file, a text that is not JSON, a decoded value, or another failure
    of [open] or of the decoding. *)
Inductive models_file : Type :=
| NoFile
| NotJson
| Holds (v : json)
| Unreadable (e : str).

(** [QComboBox.addItems] with the value Python hands it, on a box with the
    given items: the items of the box after the call, [None] when the binding
    refuses the value. *)
Class QComboBox : Type := {
  addItems : json -> list str -> option (list str)
}.

Definition DEFAULT_MODELS : list str :=
  [DEFAULT_MODEL; u "gpt-4o"; u "gpt-4o-mini"].

Section Models.

Context {B : QComboBox}.

(** [load_saved_models], on the list [fetch_models_from_api] returned and the
    state of the models file: the items of the model box at the end, [None]
    when an exception leaves the function. *)
Definition load_saved_models (api_models : list json) (file : models_file)
  : option (list str) :=
  let from_file :=
    match file with
    | Holds models => addItems models []
    | NoFile | NotJson => addItems (JArr (List.map JStr DEFAULT_MODELS)) []
    | Unreadable _ => None
    end in
  match api_models with
  | [] => from_file
  | _ =>
      match addItems (JArr api_models) [] with
      | Some items => Some items
      | None => from_file
      end
  end.

End Models.

(** *** Export and clearing *)

(** What [export_conversation] writes for one turn. *)
Definition export_block (msg : message) : str :=
  let role := match role msg with user => u "用户" | _ => u "AI" end in
  role ++ u "：" ++ [newline] ++ content msg ++ [newline; newline].

(** [QTextEdit.clear] *)
Class QTextEditClear {Q : QTextEdit} : Type := {
  clear : document -> document
}.

Section Housekeeping.

Context {Q : QTextEdit} {C : QTextEditClear}.

(** [export_conversation]; [write_error] is the exception raised while the
    file is written, if one is.  The result: the window, which the function
    leaves as it is, the text written to the export file when the write went
    through, and the box shown. *)
Definition export_conversation (write_error : option str) (w : window)
  : window * option str * message_box :=
  match history w with
  | [] => (w, None, information (u "提示") (u "没有对话记录可导出"))
  | _ =>
      match write_error with
      | None =>
          (w, Some (concat (List.map export_block (history w))),
           information (u "成功") (u "对话记录已导出到 对话记录.txt"))
      | Some e => (w, None, warning (u "错误") (u "导出失败: " ++ e))
      end
  end.

(** [clear_history]; [confirmed] tells whether the question was answered
    with [QMessageBox.Yes]. *)
Definition clear_history (confirmed : bool) (w : window) : window :=
  if confirmed then
    Window [] (current_ai_buffer w) (input_box w) (model_box w)
           (clear (chat_display w)) (send_btn w) (stop_btn w) (u "已清空")
           (progress_bar w) (u "历史消息: 0") (status_model w) (worker w)
  else w.

(** [on_model_changed] *)
Definition on_model_changed (name : str) (w : window) : window :=
  Window (history w) (current_ai_buffer w) (input_box w) (model_box w)
         (chat_display w) (send_btn w) (stop_btn w) (status w)
         (progress_bar w) (history_label w) (u "模型: " ++ name) (worker w).

(** The label that counts the turns shows the length of the history. *)
Definition label_counts (w : window) : Prop :=
  history_label w = u "历史消息: " ++ str_of_nat (length (history w)).

End Housekeeping.

(** A turn as the window records it: of the user or of the assistant, its
    content not empty and with no blank at either end. *)
Definition recorded_turn (msg : message) : Prop :=
  role msg <> system /\ content msg <> [] /\ tidy (content msg).

(** The characters with which the formatter's patterns for headings, quotes,
    tables, rules, bullets, emphasis, code and its own markers begin. *)
Definition markup_chars : str := u "#>|-*`@".

Definition plain (c : char) : bool := negb (existsb (N.eqb c) markup_chars).

(** No two neighbours of the list are equal. *)
Fixpoint no_repeat (l : list str) : Prop :=
  match l with
  | x :: ((y :: _) as t) => x <> y /\ no_repeat t
  | _ => True
  end.

(** Two texts equal up to the case of their letters, as [re.I] compares
    them. *)
Fixpoint ci_same (p s : str) : bool :=
  match p, s with
  | [], [] => true
  | a :: p', b :: s' => ci_eq a b && ci_same p' s'
  | _, _ => false
  end.

End AIAssistantWindow.

Import AIAssistantWindow.

(** ** Markup written by the formatter *)

Module Markup.

(** The tags [_format_display_text] writes. *)
Definition whitelist : list str :=
  [hdr_open; div_close; quote_open; hr_tag; b_open; b_close; i_open; i_close;
   code_open; code_close; pre_tag; u "<code>"; u "</pre>"; br_tag].

(** A text in which every angle bracket belongs to a tag of the list: it is
    made of such tags and of characters other than the two brackets. *)
Inductive safe : str -> Prop :=
| safe_nil : safe []
| safe_text c s : c <> lt -> c <> gt -> safe s -> safe (c :: s)
| safe_tag t s : In t whitelist -> safe s -> safe (t ++ s).

(** The ways of cutting a tag in two non-empty parts. *)
Definition splits (t : str) : list (str * str) :=
  List.map (fun k => (firstn k t, skipn k t)) (List.seq 1 (length t - 1)).

Definition cuts : list (str * str) := flat_map splits whitelist.

(** A cut between [x] and [y] that falls inside a tag. *)
Definition straddles (x y : str) : Prop :=
  exists p q, In (p, q) cuts /\ (exists x', x = x' ++ p) /\ (exists y', y = q ++ y').

(** No tag has [c] after its first character. *)
Definition head_ok (c : char) : bool :=
  forallb (fun pq => match snd pq with h :: _ => negb (h =? c) | [] => true end)
          cuts.

(** No tag has [c] before its last character. *)
Definition last_ok (c : char) : bool :=
  forallb (fun pq => match rev (fst pq) with h :: _ => negb (h =? c) | [] => true end)
          cuts.

(** No tag ends in a blank or has two blanks in a row. *)
Definition blanks_ok : bool :=
  forallb (fun pq =>
             match snd pq with
             | [] => true
             | [a] => negb (isspace a)
             | a :: b :: _ => negb (isspace a && isspace b)
             end) cuts.

(** A non-empty text whose first and last characters occur in no tag (apart
    from the brackets that open and close one). *)
Definition clean (d : str) : Prop :=
  exists c1 r1 c2 r2,
    d = c1 :: r1 /\ d = r2 ++ [c2] /\ head_ok c1 = true /\ last_ok c2 = true.

End Markup.

Import Markup.

(** ** Sample environments *)

Module Sample.

(** A display that keeps the markup it is given, as text. *)
#[export] Instance plain_display : QTextEdit := {
  document := str;
  moveCursorEnd d := d;
  insertHtml h d := d ++ h;
  toHtml d := d;
  setHtml h _ := h;
  toPlainText d := d;
  append t d := d ++ [newline] ++ t
}.

(** A model box that takes a list of strings and refuses anything else. *)
Fixpoint as_strings (l : list json) : option (list str) :=
  match l with
  | [] => Some []
  | JStr s :: t => option_map (cons s) (as_strings t)
  | _ :: _ => None
  end.

#[export] Instance string_box : QComboBox := {
  addItems v items :=
    match v with
    | JArr l => option_map (app items) (as_strings l)
    | _ => None
    end
}.

#[export] Instance plain_clear : QTextEditClear := {
  clear _ := []
}.

Definition blank_window (input : str) : window :=
  Window [] [] input DEFAULT_MODEL [] true false (u "就绪") (u "响应进度: 0%")
         (u "历史消息: 0") (u "模型: " ++ DEFAULT_MODEL) None.

(** A decoder for the part of JSON the sample frames use: objects, arrays,
    strings with the simplest escapes, integers and the three constants. *)
Fixpoint skip_ws (s : str) : str :=
  match s with
  | c :: t =>
      if (c =? 32) || (c =? 9) || (c =? 10) || (c =? 13) then skip_ws t else s
  | [] => []
  end.

Fixpoint read_string (s acc : str) : option (str * str) :=
  match s with
  | [] => None
  | c :: t =>
      if c =? dquote then Some (rev acc, t)
      else if c =? 92 then
        match t with
        | e :: t' =>
            if (e =? dquote) || (e =? 92) || (e =? 47)
            then read_string t' (e :: acc)
            else if e =? 110 then read_string t' (newline :: acc)
            else None
        | [] => None
        end
      else read_string t (c :: acc)
  end.

Fixpoint read_digits (s : str) (acc : Z) : Z * str :=
  match s with
  | c :: t =>
      if (48 <=? c) && (c <=? 57)
      then read_digits t (acc * 10 + Z.of_N (c - 48))%Z
      else (acc, s)
  | [] => (acc, [])
  end.

Fixpoint dict_set (k : str) (v : json) (d : list (str * json))
  : list (str * json) :=
  match d with
  | [] => [(k, v)]
  | (k', v') :: t =>
      if str_eqb k' k then (k, v) :: t else (k', v') :: dict_set k v t
  end.

Fixpoint read_value (fuel : nat) (s : str) : option (json * str) :=
  match fuel with
  | O => None
  | S f =>
      match skip_ws s with
      | [] => None
      | c :: t =>
          if c =? dquote then
            match read_string t [] with
            | Some (x, r) => Some (JStr x, r)
            | None => None
            end
          else if c =? 91 then
            match skip_ws t with
            | [] => None
            | x :: r =>
                if x =? 93 then Some (JArr [], r) else
                (fix items (n : nat) (s : str) (acc : list json) {struct n}
                   : option (json * str) :=
                   match n with
                   | O => None
                   | S n' =>
                       match read_value f s with
                       | Some (v, r) =>
                           match skip_ws r with
                           | y :: r' =>
                               if y =? 44 then items n' r' (v :: acc)
                               else if y =? 93
                               then Some (JArr (rev (v :: acc)), r')
                               else None
                           | [] => None
                           end
                       | None => None
                       end
                   end) f t []
            end
          else if c =? 123 then
            match skip_ws t with
            | [] => None
            | x :: r =>
                if x =? 125 then Some (JObj [], r) else
                (fix items (n : nat) (s : str) (acc : list (str * json))
                     {struct n} : option (json * str) :=
                   match n with
                   | O => None
                   | S n' =>
                       match skip_ws s with
                       | q :: s1 =>
                           if q =? dquote then
                             match read_string s1 [] with
                             | Some (k, s2) =>
                                 match skip_ws s2 with
                                 | col :: s3 =>
                                     if col =? 58 then
                                       match read_value f s3 with
                                       | Some (v, r) =>
                                           match skip_ws r with
                                           | y :: r' =>
                                               if y =? 44
                                               then items n' r' (dict_set k v acc)
                                               else if y =? 125
                                               then Some (JObj (dict_set k v acc), r')
                                               else None
                                           | [] => None
                                           end
                                       | None => None
                                       end
                                     else None
                                 | [] => None
                                 end
                             | None => None
                             end
                           else None
                       | [] => None
                       end
                   end) f t []
            end
          else if startswith (u "null") (c :: t) then Some (JNull, skipn 3 t)
          else if startswith (u "true") (c :: t) then Some (JBool true, skipn 3 t)
          else if startswith (u "false") (c :: t) then Some (JBool false, skipn 4 t)
          else if (48 <=? c) && (c <=? 57) then
            let (z, r) := read_digits (c :: t) 0 in Some (JNum (inject_Z z), r)
          else if c =? 45 then
            match t with
            | d :: _ =>
                if (48 <=? d) && (d <=? 57) then
                  let (z, r) := read_digits t 0 in Some (JNum (inject_Z (- z)), r)
                else None
            | [] => None
            end
          else None
      end
  end.

Definition loads (s : str) : option json :=
  match read_value (S (length s)) s with
  | Some (v, r) => match skip_ws r with [] => Some v | _ => None end
  | None => None
  end.

(** Frames that are ASCII. *)
#[export] Instance library : Library := {
  json_loads := loads;
  decode_utf8 raw := Some raw;
  decode_ignore raw := raw;
  emit_type_error _ := u "argument 1 has unexpected type"
}.

(** A literal in which the apostrophe stands for the double quote. *)
Definition frame (s : String.string) : bytes :=
  List.map (fun c => if c =? squote then dquote else c) (u s).

(** A session on the sample display: the user sends "Hello", the server
    answers in two deltas and ends the stream. *)
Definition hello_window : window := on_send (Sample.blank_window (u "Hello")).

Definition hello_worker : StreamWorker.worker :=
  match worker hello_window with
  | Some wk => wk
  | None => init [] DEFAULT_MODEL
  end.

Definition hello_reply : post_result :=
  PostReturns
    (Response 200 None
       [Line (Sample.frame "data: {'choices':[{'delta':{'content':'Hi'}}]}");
        Line (Sample.frame "data: {'choices':[{'delta':{'content':' there'}}]}");
        Line (Sample.frame "data: [DONE]")]).

Definition hello_cancelled : response :=
  Response 200 None
    [StopCalled;
     Line (Sample.frame "data: {'choices':[{'delta':{'content':'Hi'}}]}")].

End Sample.

(** * Properties *)

(** ** Text *)

Module TextFacts.

Lemma str_eqb_eq (a b : str) : str_eqb a b = true <-> a = b.
Proof.
  unfold str_eqb. destruct (list_eq_dec N.eq_dec a b); split; congruence.
Qed.

Lemma str_eqb_refl (a : str) : str_eqb a a = true.
Proof. apply str_eqb_eq. reflexivity. Qed.

Lemma str_eqb_neq (a b : str) : str_eqb a b = false <-> a <> b.
Proof.
  unfold str_eqb. destruct (list_eq_dec N.eq_dec a b); split; congruence.
Qed.

Lemma lstrip_blank (s : str) : forallb isspace s = true -> lstrip s = [].
Proof.
  induction s as [|c t IH]; simpl; [reflexivity|].
  intros H. apply andb_true_iff in H. destruct H as [Hc Ht].
  rewrite Hc. auto.
Qed.

Lemma strip_blank (s : str) : forallb isspace s = true -> strip s = [].
Proof.
  intros H. unfold strip, rstrip. rewrite (lstrip_blank s H). reflexivity.
Qed.

End TextFacts.

Import TextFacts.

(** ** The matcher *)

Module ReFacts.

Section Sound.

Variable body : (mstate -> option mstate) -> mstate -> option mstate.
Variable R : mstate -> mstate -> Prop.
Hypothesis body_sound :
  forall k st res, body k st = Some res -> exists e, R st e /\ k e = Some res.

Lemma rep_loop_sound k greedy fuel :
  forall lo hi st res,
    rep_loop body k greedy fuel lo hi st = Some res ->
    exists e, iter R lo st e /\ k e = Some res.
Proof.
  induction fuel as [|fuel IH]; intros lo hi st res H; simpl in H.
  - destruct lo; [|discriminate]. exists st. split; [constructor|assumption].
  - assert (Hagain :
      (if hi_open hi then
         body (fun e =>
                 if (length (rest e) <? length (rest st))%nat || (0 <? lo)%nat
                 then rep_loop body k greedy fuel (Nat.pred lo) (dec_hi hi) e
                 else None) st
       else None) = Some res ->
      exists e, iter R lo st e /\ k e = Some res).
    { intros Hg. destruct (hi_open hi); [|discriminate].
      apply body_sound in Hg. destruct Hg as [mid [Ha Hg]].
      destruct ((length (rest mid) <? length (rest st))%nat || (0 <? lo)%nat);
        [|discriminate].
      apply IH in Hg. destruct Hg as [e [Hi He]].
      exists e. split; [|assumption]. econstructor; eassumption. }
    destruct lo as [|lo']; [|exact (Hagain H)].
    destruct greedy.
    + match type of H with
      | match ?x with _ => _ end = _ => destruct x eqn:E
      end.
      * apply Hagain. exact H.
      * exists st. split; [constructor|assumption].
    + destruct (k st) eqn:E.
      * inversion H; subst. exists st. split; [constructor|assumption].
      * exact (Hagain H).
Qed.

End Sound.

(** Whatever the matcher returns is a match. *)
Lemma m_sound (r : regex) :
  forall k st res, m r k st = Some res ->
  exists e, matches r st e /\ k e = Some res.
Proof.
  induction r as [|p|a IHa b IHb|a IHa b IHb|g lo hi a IHa|i a IHa|ml|ml|p|p];
    intros k st res H; simpl in H.
  - exists st. split; [reflexivity|assumption].
  - destruct (rest st) as [|c t] eqn:E; [discriminate|].
    destruct (p c) eqn:Ep; [|discriminate].
    exists (step c t st). split; [|assumption].
    exists c, t. auto.
  - apply IHa in H. destruct H as [mid [Ha H]].
    apply IHb in H. destruct H as [e [Hb H]].
    exists e. split; [|assumption]. exists mid. auto.
  - destruct (m a k st) eqn:E.
    + inversion H; subst. apply IHa in E. destruct E as [e [Ha He]].
      exists e. simpl. auto.
    + apply IHb in H. destruct H as [e [Hb He]]. exists e. simpl. auto.
  - eapply rep_loop_sound in H; [exact H|exact IHa].
  - apply IHa in H. destruct H as [e [Ha H]].
    exists (set_cap i st e). split; [|assumption]. exists e. auto.
  - destruct (at_bol ml st) eqn:E; [|discriminate]. exists st. simpl. auto.
  - destruct (at_eol ml st) eqn:E; [|discriminate]. exists st. simpl. auto.
  - exists st. destruct (bef st) as [|c t] eqn:E; simpl; rewrite E.
    + auto.
    + destruct (p c); [discriminate|auto].
  - exists st. destruct (rest st) as [|c t] eqn:E; simpl; rewrite E.
    + auto.
    + destruct (p c); [discriminate|auto].
Qed.

Lemma span_refl st : span st st [].
Proof. split; reflexivity. Qed.

Lemma span_trans st mid e a b :
  span st mid a -> span mid e b -> span st e (a ++ b).
Proof.
  intros [H1 H2] [H3 H4]. split.
  - rewrite H1, H3. now rewrite app_assoc.
  - rewrite H4, H2, rev_app_distr. now rewrite app_assoc.
Qed.

Lemma span_step c t st : rest st = c :: t -> span st (step c t st) [c].
Proof. intros H. split; simpl; auto. Qed.

Lemma span_set_cap i st0 st e txt : span st e txt -> span st (set_cap i st0 e) txt.
Proof. intros [H1 H2]. split; simpl; auto. Qed.

Lemma span_inj st e a b : span st e a -> span st e b -> a = b.
Proof.
  intros [H1 H2] [H3 H4]. rewrite H2 in H4.
  apply app_inv_tail in H4. apply (f_equal (@rev _)) in H4.
  now rewrite !rev_involutive in H4.
Qed.

Lemma matches_span (r : regex) :
  forall st e, matches r st e -> exists txt, span st e txt.
Proof.
  induction r as [|p|a IHa b IHb|a IHa b IHb|g lo hi a IHa|i a IHa|ml|ml|p|p];
    intros st e H; simpl in H.
  - subst. exists []. apply span_refl.
  - destruct H as [c [t [H1 [_ H2]]]]. subst. exists [c]. now apply span_step.
  - destruct H as [mid [H1 H2]].
    apply IHa in H1. apply IHb in H2.
    destruct H1 as [x H1], H2 as [y H2]. exists (x ++ y).
    eapply span_trans; eassumption.
  - destruct H as [H|H]; auto.
  - induction H as [st|lo' st mid e H1 H2 IH].
    + exists []. apply span_refl.
    + apply IHa in H1. destruct H1 as [x H1], IH as [y IH].
      exists (x ++ y). eapply span_trans; eassumption.
  - destruct H as [e' [H1 H2]]. subst.
    apply IHa in H1. destruct H1 as [x H1]. exists x. now apply span_set_cap.
  - destruct H as [_ H]. subst. exists []. apply span_refl.
  - destruct H as [_ H]. subst. exists []. apply span_refl.
  - destruct H as [_ H]. subst. exists []. apply span_refl.
  - destruct H as [_ H]. subst. exists []. apply span_refl.
Qed.

Lemma span_consumed st e txt : span st e txt -> consumed st e = txt.
Proof.
  intros [_ H]. unfold consumed. rewrite H.
  rewrite length_app, length_rev.
  replace (length txt + length (bef st) - length (bef st))%nat
    with (length (rev txt) + 0)%nat by (rewrite length_rev; lia).
  rewrite firstn_app_2. simpl. rewrite app_nil_r. apply rev_involutive.
Qed.

Lemma span_mlen b s c e txt :
  span (MState b s c) e txt -> mlen b e = length txt /\ firstn (mlen b e) s = txt.
Proof.
  intros [H1 H2]. simpl in *. unfold mlen. rewrite H2.
  rewrite length_app, length_rev.
  replace (length txt + length b - length b)%nat with (length txt) by lia.
  split; [reflexivity|].
  rewrite H1. replace (length txt) with (length txt + 0)%nat by lia.
  rewrite firstn_app_2. simpl. apply app_nil_r.
Qed.


Lemma attempt_sound r adv b s e :
  attempt r adv b s = Some e -> matches r (MState b s []) e.
Proof.
  unfold attempt. intros H. apply m_sound in H.
  destruct H as [e' [H1 H2]]. unfold final in H2.
  destruct (adv && (length (bef e') =? length b)%nat); [discriminate|].
  now inversion H2; subst.
Qed.

Lemma attempt_found r adv pend b s e :
  attempt r adv b s = Some e ->
  exists txt,
    mk_found pend b s e = Found (rev pend) txt (caps e)
    /\ found_ok r (Found (rev pend) txt (caps e))
    /\ s = txt ++ rest e
    /\ mlen b e = length txt.
Proof.
  intros H. apply attempt_sound in H.
  destruct (matches_span _ _ _ H) as [txt Hs].
  destruct (span_mlen _ _ _ _ _ Hs) as [Hl Hf].
  exists txt. unfold mk_found. rewrite Hf.
  split; [reflexivity|]. split; [|split]; [|apply Hs|exact Hl].
  exists (MState b s []), e. simpl. auto.
Qed.

Lemma attempt_advances r b s e :
  attempt r true b s = Some e -> mlen b e <> 0%nat.
Proof.
  unfold attempt. intros H. apply m_sound in H.
  destruct H as [e' [H1 H2]]. unfold final in H2. simpl in H2.
  destruct (length (bef e') =? length b)%nat eqn:E; [discriminate|].
  inversion H2; subst e'. apply Nat.eqb_neq in E.
  destruct (matches_span _ _ _ H1) as [txt [_ Hs]]. simpl in Hs.
  unfold mlen. rewrite Hs in *. rewrite length_app in *. lia.
Qed.


Lemma rebuilt_cons f fs tl :
  rebuilt (f :: fs) tl = f_before f ++ f_text f ++ rebuilt fs tl.
Proof. unfold rebuilt. simpl. now rewrite <- !app_assoc. Qed.

Lemma skipn_length_app (a b : str) : skipn (length a) (a ++ b) = b.
Proof.
  rewrite skipn_app, skipn_all, Nat.sub_diag. reflexivity.
Qed.

Lemma length_zero_nil (a : str) : 0%nat = length a -> a = [].
Proof. destruct a; [reflexivity|discriminate]. Qed.

(** The matches of a scan are matches, and with the text between them they
    make up the subject again. *)
Lemma scan_go_spec r :
  forall s cnt skip pend b fs tl,
    scan_go r cnt skip pend b s = (fs, tl) ->
    (skip <= length s)%nat ->
    Forall (found_ok r) fs
    /\ match skip with O => rev pend | S _ => [] end ++ skipn skip s
       = rebuilt fs tl.
Proof.
  induction s as [|c t IH]; intros cnt skip pend b fs tl H Hk.
  - simpl in Hk. assert (skip = 0%nat) by lia. subst skip. simpl in H.
    destruct (exhausted cnt).
    { inversion H; subst. split; [constructor|]. reflexivity. }
    destruct (attempt r false b []) as [e|] eqn:E.
    + destruct (attempt_found _ _ pend _ _ _ E) as [x [Hm [Hok [Hs Hl]]]].
      rewrite Hm in H. symmetry in Hs. apply app_eq_nil in Hs.
      destruct Hs as [Hx _]. subst x. rewrite Hl in H. simpl in H.
      destruct (exhausted (dec_hi cnt)).
      { inversion H; subst. split; [repeat constructor; exact Hok|].
        rewrite rebuilt_cons. reflexivity. }
      destruct (attempt r true b []) as [e2|] eqn:E2.
      * pose proof (attempt_advances _ _ _ _ E2) as Hadv.
        destruct (attempt_found _ _ [] _ _ _ E2) as [y [_ [_ [Hs2 Hl2]]]].
        symmetry in Hs2. apply app_eq_nil in Hs2. destruct Hs2 as [Hy _].
        subst y. simpl in Hl2. lia.
      * inversion H; subst. split; [repeat constructor; exact Hok|].
        rewrite rebuilt_cons. reflexivity.
    + inversion H; subst. split; [constructor|]. unfold rebuilt. simpl.
      now rewrite app_nil_r.
  - destruct skip as [|k].
    + simpl in H. destruct (exhausted cnt).
      { inversion H; subst. split; [constructor|]. reflexivity. }
      destruct (attempt r false b (c :: t)) as [e|] eqn:E.
      * destruct (attempt_found _ _ pend _ _ _ E) as [x [Hm [Hok [Hs Hl]]]].
        rewrite Hm in H. rewrite Hl in H.
        destruct x as [|x0 x]; simpl in H.
        -- destruct (exhausted (dec_hi cnt)).
           { inversion H; subst. split; [repeat constructor; exact Hok|].
             rewrite rebuilt_cons. reflexivity. }
           destruct (attempt r true b (c :: t)) as [e2|] eqn:E2.
           ++ pose proof (attempt_advances _ _ _ _ E2) as Hadv.
              destruct (attempt_found _ _ [] _ _ _ E2)
                as [y [Hm2 [Hok2 [Hs2 Hl2]]]].
              rewrite Hm2, Hl2 in H.
              destruct (scan_go r (dec_hi (dec_hi cnt)) (Nat.pred (length y))
                          [] (c :: b) t) as [fs' tl'] eqn:Er.
              unfold cons_fst in H. simpl in H. inversion H; subst.
              destruct y as [|y0 y]; [simpl in Hl2; lia|].
              simpl in Er. simpl in Hs2.
              injection Hs2 as Hc Ht. subst y0.
              apply IH in Er; [|rewrite Ht, length_app; lia].
              destruct Er as [Hf Hr].
              split; [repeat constructor; assumption|].
              rewrite !rebuilt_cons. simpl. rewrite <- Hr.
              rewrite Ht at 2. rewrite skipn_length_app.
              rewrite Ht at 1. destruct (length y); reflexivity.
           ++ destruct (scan_go r (dec_hi cnt) 0 [c] (c :: b) t)
                as [fs' tl'] eqn:Er.
              unfold cons_fst in H. simpl in H. inversion H; subst.
              apply IH in Er; [|lia]. destruct Er as [Hf Hr].
              split; [constructor; assumption|].
              rewrite rebuilt_cons. simpl. rewrite <- Hr. reflexivity.
        -- destruct (scan_go r (dec_hi cnt) (length x) [] (c :: b) t)
             as [fs' tl'] eqn:Er.
           unfold cons_fst in H. simpl in H. inversion H; subst.
           simpl in Hs. injection Hs as Hc Ht. subst x0.
           apply IH in Er; [|rewrite Ht, length_app; lia].
           destruct Er as [Hf Hr].
           split; [constructor; assumption|].
           rewrite rebuilt_cons. simpl. rewrite <- Hr.
           rewrite Ht at 2. rewrite skipn_length_app.
           rewrite Ht at 1. destruct (length x); reflexivity.
      * destruct (scan_go r cnt 0 (c :: pend) (c :: b) t) as [fs' tl'] eqn:Er.
        inversion H; subst.
        apply IH in Er; [|lia]. destruct Er as [Hf Hr].
        split; [assumption|]. simpl in Hr. simpl. rewrite <- Hr.
        rewrite <- app_assoc. reflexivity.
    + simpl in H. apply IH in H; [|simpl in Hk; lia].
      destruct H as [Hf Hr]. split; [assumption|].
      simpl. rewrite <- Hr. destruct k; reflexivity.
Qed.

End ReFacts.

Import ReFacts.

(** ** The fuel of a repeat *)

Module FuelFacts.

Section Loop.

Variable body : (mstate -> option mstate) -> mstate -> option mstate.
Hypothesis body_local : local body.
Hypothesis body_strict : strict body.

Lemma rep_loop_local g fuel :
  forall k1 k2 lo hi st,
    (forall e, (length (rest e) <= length (rest st))%nat -> k1 e = k2 e) ->
    rep_loop body k1 g fuel lo hi st = rep_loop body k2 g fuel lo hi st.
Proof.
  induction fuel as [|fuel IH]; intros k1 k2 lo hi st H.
  - simpl. destruct lo; [apply H; lia|reflexivity].
  - simpl.
    assert (Ha :
      body (fun e =>
              if (length (rest e) <? length (rest st))%nat || (0 <? lo)%nat
              then rep_loop body k1 g fuel (Nat.pred lo) (dec_hi hi) e
              else None) st
      = body (fun e =>
                if (length (rest e) <? length (rest st))%nat || (0 <? lo)%nat
                then rep_loop body k2 g fuel (Nat.pred lo) (dec_hi hi) e
                else None) st).
    { apply body_local. intros e He.
      destruct ((length (rest e) <? length (rest st))%nat || (0 <? lo)%nat);
        [|reflexivity].
      apply IH. intros e' He'. apply H. lia. }
    rewrite Ha, (H st (le_n _)). reflexivity.
Qed.

Lemma rep_loop_strict g fuel :
  forall lo hi st, rep_loop body (fun _ => None) g fuel lo hi st = None.
Proof.
  induction fuel as [|fuel IH]; intros lo hi st.
  - simpl. destruct lo; reflexivity.
  - simpl.
    assert (Ha :
      body (fun e =>
              if (length (rest e) <? length (rest st))%nat || (0 <? lo)%nat
              then rep_loop body (fun _ => None) g fuel (Nat.pred lo) (dec_hi hi) e
              else None) st = None).
    { transitivity (body (fun _ => None) st); [|apply body_strict].
      apply body_local. intros e _.
      rewrite IH. now destruct (_ || _). }
    rewrite Ha. destruct lo, g, (hi_open hi); reflexivity.
Qed.

(** The fuel a repeat starts with is never what stops it: more fuel gives
    the same result. *)
Lemma rep_loop_fuel g k fuel :
  forall lo hi st,
    (lo + length (rest st) <= fuel)%nat ->
    rep_loop body k g (S fuel) lo hi st = rep_loop body k g fuel lo hi st.
Proof.
  induction fuel as [|fuel IH]; intros lo hi st H.
  - assert (lo = 0%nat) by lia. subst lo.
    assert (Hr : length (rest st) = 0%nat) by lia.
    simpl. rewrite Hr.
    assert (Ha : body (fun e => if (length (rest e) <? 0)%nat || (0 <? 0)%nat
                                then k e else None) st = None).
    { transitivity (body (fun _ => None) st); [|apply body_strict].
      apply body_local. intros e _. reflexivity. }
    rewrite Ha. destruct g, (hi_open hi), (k st); reflexivity.
  - change (rep_loop body k g (S (S fuel)) lo hi st)
      with (let again (_ : unit) :=
              if hi_open hi then
                body (fun e =>
                        if (length (rest e) <? length (rest st))%nat
                           || (0 <? lo)%nat
                        then rep_loop body k g (S fuel) (Nat.pred lo) (dec_hi hi) e
                        else None) st
              else None in
            match lo with
            | S _ => again tt
            | O =>
                if g then match again tt with Some e => Some e | None => k st end
                else match k st with Some e => Some e | None => again tt end
            end).
    change (rep_loop body k g (S fuel) lo hi st)
      with (let again (_ : unit) :=
              if hi_open hi then
                body (fun e =>
                        if (length (rest e) <? length (rest st))%nat
                           || (0 <? lo)%nat
                        then rep_loop body k g fuel (Nat.pred lo) (dec_hi hi) e
                        else None) st
              else None in
            match lo with
            | S _ => again tt
            | O =>
                if g then match again tt with Some e => Some e | None => k st end
                else match k st with Some e => Some e | None => again tt end
            end).
    cbv zeta.
    assert (Ha :
      body (fun e =>
              if (length (rest e) <? length (rest st))%nat || (0 <? lo)%nat
              then rep_loop body k g (S fuel) (Nat.pred lo) (dec_hi hi) e
              else None) st
      = body (fun e =>
                if (length (rest e) <? length (rest st))%nat || (0 <? lo)%nat
                then rep_loop body k g fuel (Nat.pred lo) (dec_hi hi) e
                else None) st).
    { apply body_local. intros e He.
      destruct ((length (rest e) <? length (rest st))%nat || (0 <? lo)%nat)
        eqn:Ec; [|reflexivity].
      apply IH. apply orb_true_iff in Ec. destruct Ec as [Ec|Ec].
      - apply Nat.ltb_lt in Ec. lia.
      - apply Nat.ltb_lt in Ec. lia. }
    rewrite Ha. reflexivity.
Qed.

(** ... and so does any amount of it. *)
Lemma rep_loop_enough g k lo hi st fuel :
  (lo + length (rest st) <= fuel)%nat ->
  rep_loop body k g fuel lo hi st
  = rep_loop body k g (lo + length (rest st)) lo hi st.
Proof.
  intros H. induction H as [|fuel H IH]; [reflexivity|].
  rewrite rep_loop_fuel by exact H. exact IH.
Qed.

End Loop.

(** The matcher is such a body, for every pattern. *)
Lemma m_local_strict (r : regex) : local (m r) /\ strict (m r).
Proof.
  induction r as [|p|a [La Sa] b [Lb Sb]|a [La Sa] b [Lb Sb]|g lo hi a [La Sa]
                 |i a [La Sa]|ml|ml|p|p]; split.
  - intros k1 k2 st H. simpl. apply H. lia.
  - intros st. reflexivity.
  - intros k1 k2 st H. simpl. destruct (rest st) as [|c t] eqn:E; [reflexivity|].
    destruct (p c); [|reflexivity]. apply H. simpl. lia.
  - intros st. simpl. destruct (rest st) as [|c t]; [reflexivity|].
    destruct (p c); reflexivity.
  - intros k1 k2 st H. simpl. apply La. intros e He. apply Lb.
    intros e' He'. apply H. lia.
  - intros st. simpl. transitivity (m a (fun _ => None) st); [|apply Sa].
    apply La. intros e _. apply Sb.
  - intros k1 k2 st H. simpl. rewrite (La k1 k2 st H), (Lb k1 k2 st H).
    reflexivity.
  - intros st. simpl. rewrite Sa. apply Sb.
  - intros k1 k2 st H. simpl. now apply rep_loop_local.
  - intros st. simpl. now apply rep_loop_strict.
  - intros k1 k2 st H. simpl. apply La. intros e He. apply H. simpl. exact He.
  - intros st. simpl. apply Sa.
  - intros k1 k2 st H. simpl. destruct (at_bol ml st); [apply H; lia|reflexivity].
  - intros st. simpl. destruct (at_bol ml st); reflexivity.
  - intros k1 k2 st H. simpl. destruct (at_eol ml st); [apply H; lia|reflexivity].
  - intros st. simpl. destruct (at_eol ml st); reflexivity.
  - intros k1 k2 st H. simpl. pose proof (H st (le_n _)) as Hs.
    destruct (bef st) as [|c t]; [exact Hs|].
    destruct (p c); [reflexivity|exact Hs].
  - intros st. simpl. destruct (bef st) as [|c t]; [reflexivity|].
    destruct (p c); reflexivity.
  - intros k1 k2 st H. simpl. pose proof (H st (le_n _)) as Hs.
    destruct (rest st) as [|c t] eqn:E; [exact Hs|].
    destruct (p c); [reflexivity|exact Hs].
  - intros st. simpl. destruct (rest st) as [|c t]; [reflexivity|].
    destruct (p c); reflexivity.
Qed.

(** A repeat of the matcher gives the same result with any fuel beyond the
    one it starts with. *)
Lemma rep_fuel_adequate (a : regex) g k lo hi st fuel :
  (lo + length (rest st) <= fuel)%nat ->
  rep_loop (m a) k g fuel lo hi st = m (Rep g lo hi a) k st.
Proof.
  intros H. destruct (m_local_strict a) as [La Sa].
  simpl. now apply rep_loop_enough.
Qed.

End FuelFacts.

Import FuelFacts.

(** ** Safe markup *)

Module MarkupFacts.

Lemma safe_app x y : safe x -> safe y -> safe (x ++ y).
Proof.
  induction 1 as [|c s Hc1 Hc2 Hs IH|t s Ht Hs IH]; intros Hy; simpl.
  - assumption.
  - constructor; auto.
  - rewrite <- app_assoc. constructor; auto.
Qed.

Lemma safe_no_angle s : ~ In lt s -> ~ In gt s -> safe s.
Proof.
  induction s as [|c t IH]; intros H1 H2; [constructor|].
  constructor.
  - intro E. apply H1. left. exact E.
  - intro E. apply H2. left. exact E.
  - apply IH; intro E; [apply H1|apply H2]; right; exact E.
Qed.

Lemma safe_one_tag t : In t whitelist -> safe t.
Proof.
  intros H. rewrite <- (app_nil_r t). constructor; [assumption|constructor].
Qed.

Lemma in_cuts t p q :
  In t whitelist -> t = p ++ q -> p <> [] -> q <> [] -> In (p, q) cuts.
Proof.
  intros Ht E Hp Hq. unfold cuts. apply in_flat_map. exists t.
  split; [assumption|]. unfold splits. apply in_map_iff.
  exists (length p). split.
  - subst t. rewrite firstn_app, firstn_all, Nat.sub_diag. simpl.
    rewrite app_nil_r. f_equal. apply skipn_length_app.
  - apply in_seq. subst t. rewrite length_app.
    destruct p; [congruence|]. destruct q; [congruence|]. simpl. lia.
Qed.

Lemma straddles_tail c x y : straddles x y -> straddles (c :: x) y.
Proof.
  intros [p [q [H [[x' Hx] Hy]]]]. exists p, q. split; [assumption|].
  split; [|assumption]. exists (c :: x'). subst x. reflexivity.
Qed.

Lemma straddles_app l x y : straddles x y -> straddles (l ++ x) y.
Proof.
  induction l; simpl; auto using straddles_tail.
Qed.

(** A text cut outside its tags stays made of tags and plain characters on
    both sides. *)
Lemma safe_cut z :
  safe z -> forall x y, z = x ++ y -> ~ straddles x y -> safe x /\ safe y.
Proof.
  induction 1 as [|c s Hc1 Hc2 Hs IH|t s Ht Hs IH]; intros x y E Hn.
  - symmetry in E. apply app_eq_nil in E. destruct E; subst.
    split; constructor.
  - destruct x as [|c' x].
    + simpl in E. subst y. split; constructor; assumption.
    + simpl in E. injection E as Ec Es. subst c'.
      destruct (IH x y Es) as [Hx Hy].
      { intro Hst. apply Hn. now apply straddles_tail. }
      split; [constructor|]; assumption.
  - apply app_eq_app in E. destruct E as [l [[E1 E2]|[E1 E2]]].
    + (* x ends inside the tag *)
      destruct x as [|c x].
      * simpl in E1. subst l. split; [constructor|]. subst y. now constructor.
      * destruct l as [|cl l].
        -- rewrite app_nil_r in E1. simpl in E2. subst.
           split; [|assumption]. now apply safe_one_tag.
        -- exfalso. apply Hn. exists (c :: x), (cl :: l).
           split; [|split].
           ++ apply (in_cuts t); auto; discriminate.
           ++ exists []. reflexivity.
           ++ exists s. exact E2.
    + (* the tag ends inside x *)
      destruct (IH l y E2) as [Hl Hy].
      { intro Hst. apply Hn. subst x. now apply straddles_app. }
      split; [|assumption]. subst x. now constructor.
Qed.

Lemma no_straddle_head x c y : head_ok c = true -> ~ straddles x (c :: y).
Proof.
  intros H [p [q [Hin [_ [y' Hy]]]]].
  unfold head_ok in H. rewrite forallb_forall in H. specialize (H _ Hin).
  simpl in H. destruct q as [|h q].
  - unfold cuts in Hin. apply in_flat_map in Hin.
    destruct Hin as [t [_ Hin]]. unfold splits in Hin.
    apply in_map_iff in Hin. destruct Hin as [k [Hk Hs]].
    apply in_seq in Hs. injection Hk as _ Hk.
    apply (f_equal (@length _)) in Hk. rewrite length_skipn in Hk.
    simpl in Hk. lia.
  - simpl in Hy. injection Hy as Hc _. subst h.
    rewrite N.eqb_refl in H. discriminate.
Qed.

Lemma cut_parts p q : In (p, q) cuts -> p <> [] /\ q <> [].
Proof.
  unfold cuts. intros Hin. apply in_flat_map in Hin.
  destruct Hin as [t [_ Hin]]. unfold splits in Hin.
  apply in_map_iff in Hin. destruct Hin as [k [Hk Hs]].
  apply in_seq in Hs. injection Hk as Hp Hq.
  apply (f_equal (@length _)) in Hp. apply (f_equal (@length _)) in Hq.
  rewrite length_firstn in Hp. rewrite length_skipn in Hq.
  split; intro; subst; simpl in *; lia.
Qed.

Lemma no_straddle_last x c y : last_ok c = true -> ~ straddles (x ++ [c]) y.
Proof.
  intros H [p [q [Hin [[x' Hx] _]]]].
  unfold last_ok in H. rewrite forallb_forall in H. specialize (H _ Hin).
  simpl in H. destruct (cut_parts _ _ Hin) as [Hp _].
  destruct (rev p) as [|h rp] eqn:E.
  - apply (f_equal (@rev _)) in E. rewrite rev_involutive in E. simpl in E.
    congruence.
  - apply (f_equal (@rev _)) in E. rewrite rev_involutive in E. simpl in E.
    subst p. rewrite app_assoc in Hx. apply app_inj_tail in Hx.
    destruct Hx as [_ Hc]. subst h.
    rewrite rev_app_distr in H. simpl in H.
    rewrite N.eqb_refl in H. discriminate.
Qed.

Lemma blanks_ok_true : blanks_ok = true.
Proof. vm_compute. reflexivity. Qed.

Lemma no_straddle_blanks x a b y :
  isspace a = true -> isspace b = true -> ~ straddles x (a :: b :: y).
Proof.
  intros Ha Hb [p [q [Hin [_ [y' Hy]]]]].
  pose proof blanks_ok_true as H. unfold blanks_ok in H.
  rewrite forallb_forall in H. specialize (H _ Hin). simpl in H.
  destruct (cut_parts _ _ Hin) as [_ Hq].
  destruct q as [|q0 [|q1 q]]; [congruence| |]; simpl in Hy.
  - injection Hy as Hc _. subst q0. rewrite Ha in H. discriminate.
  - injection Hy as Hc1 Hc2 _. subst q0 q1. rewrite Ha, Hb in H. discriminate.
Qed.

(** A piece of text between two clean cuts can be exchanged for safe text. *)
Lemma safe_swap x d d' y :
  safe (x ++ d ++ y) ->
  ~ straddles x (d ++ y) -> ~ straddles (x ++ d) y ->
  safe d' -> safe (x ++ d' ++ y).
Proof.
  intros Hs H1 H2 Hd.
  destruct (safe_cut _ Hs x (d ++ y) eq_refl H1) as [Hx Hdy].
  rewrite app_assoc in Hs.
  destruct (safe_cut _ Hs (x ++ d) y eq_refl H2) as [_ Hy].
  auto using safe_app.
Qed.


Lemma safe_swap_clean x d d' y :
  clean d -> safe d' -> safe (x ++ d ++ y) -> safe (x ++ d' ++ y).
Proof.
  intros [c1 [r1 [c2 [r2 [E1 [E2 [H1 H2]]]]]]] Hd Hs.
  apply (safe_swap x d d' y); auto.
  - rewrite E1. simpl. now apply no_straddle_head.
  - rewrite E2. rewrite app_assoc. now apply no_straddle_last.
Qed.

Lemma clean_of (d : str) c1 r1 c2 r2 :
  d = c1 :: r1 -> d = r2 ++ [c2] -> head_ok c1 = true -> last_ok c2 = true ->
  clean d.
Proof. intros. exists c1, r1, c2, r2. auto. Qed.

(** Substitution keeps a text safe when each match can be exchanged for its
    replacement where it stands. *)
Lemma rebuilt_safe (P : found -> Prop) (repl : found -> str) :
  (forall f x y, P f -> safe (x ++ f_text f ++ y) -> safe (x ++ repl f ++ y)) ->
  forall fs tl pre,
    Forall P fs ->
    safe (pre ++ rebuilt fs tl) ->
    safe (pre ++ concat (List.map (fun f => f_before f ++ repl f) fs) ++ tl).
Proof.
  intros Hloc fs tl. induction fs as [|f fs IH]; intros pre HP Hs.
  - exact Hs.
  - inversion HP as [|? ? Hf HP']; subst.
    rewrite rebuilt_cons in Hs. simpl.
    rewrite <- !app_assoc.
    rewrite app_assoc in Hs. apply Hloc in Hs; [|assumption].
    rewrite app_assoc in Hs.
    apply IH in Hs; [|assumption].
    rewrite <- !app_assoc in Hs. exact Hs.
Qed.

Lemma scan_spec r cnt s fs tl :
  scan r cnt s = (fs, tl) -> Forall (found_ok r) fs /\ s = rebuilt fs tl.
Proof.
  unfold scan. intros H. apply scan_go_spec in H; [|lia].
  simpl in H. exact H.
Qed.

Lemma sub_with_safe r repl s :
  (forall f x y, found_ok r f ->
                 safe (x ++ f_text f ++ y) -> safe (x ++ repl f ++ y)) ->
  safe s -> safe (sub_with r repl s).
Proof.
  intros Hloc Hs. unfold sub_with.
  destruct (scan r None s) as [fs tl] eqn:E.
  apply scan_spec in E. destruct E as [Hf Hr].
  apply (rebuilt_safe (found_ok r) repl Hloc fs tl []); [assumption|].
  simpl. now rewrite <- Hr.
Qed.

End MarkupFacts.

Import MarkupFacts.

(** ** The formatter *)

Module FormatFacts.

Lemma matches_chr c st e :
  matches (chr c) st e -> span st e [c] /\ caps e = caps st.
Proof.
  simpl. intros [x [t [H1 [H2 H3]]]]. apply N.eqb_eq in H2. subst.
  split; [now apply span_step|reflexivity].
Qed.

Lemma matches_lit l :
  forall st e, matches (lit l) st e -> span st e l /\ caps e = caps st.
Proof.
  induction l as [|c t IH]; intros st e H.
  - simpl in H. subst. split; [apply span_refl|reflexivity].
  - destruct t as [|c' t].
    + now apply matches_chr.
    + change (lit (c :: c' :: t)) with (Seq (chr c) (lit (c' :: t))) in H.
      destruct H as [mid [H1 H2]].
      apply matches_chr in H1. apply IH in H2.
      destruct H1 as [S1 C1], H2 as [S2 C2].
      split; [|congruence].
      apply (span_trans _ _ _ [c] (c' :: t) S1 S2).
Qed.

Lemma group_set_cap i st0 e0 b r c :
  group i (Found b r ((i, c) :: caps (set_cap i st0 e0))) = c.
Proof. unfold group. simpl. now rewrite Nat.eqb_refl. Qed.

(** A match of [d1 (body) d2] is [d1], group 1, [d2]. *)
Lemma delimited_found d1 d2 body f :
  found_ok (seq [lit d1; Grp 1 body; lit d2]) f ->
  f_text f = d1 ++ group 1 f ++ d2.
Proof.
  intros [st [e [Hc [Hm [Hs Hf]]]]].
  change (seq [lit d1; Grp 1 body; lit d2])
    with (Seq (lit d1) (Seq (Grp 1 body) (lit d2))) in Hm.
  destruct Hm as [m1 [H1 [m2 [[e' [H2 E2]] H3]]]].
  apply matches_lit in H1. apply matches_lit in H3.
  destruct H1 as [S1 C1], H3 as [S3 C3].
  destruct (matches_span _ _ _ H2) as [g S2].
  assert (Sg : span m1 m2 g) by (subst m2; now apply span_set_cap).
  pose proof (span_trans _ _ _ _ _ S1 (span_trans _ _ _ _ _ Sg S3)) as St.
  rewrite (span_inj _ _ _ _ Hs St).
  unfold group. rewrite Hf, C3. subst m2. simpl. 
  now rewrite (span_consumed _ _ _ S2).
Qed.

Lemma expand3 a b f :
  expand [TLit a; TGrp 1; TLit b] f = a ++ group 1 f ++ b.
Proof. unfold expand. simpl. now rewrite app_nil_r. Qed.

Lemma delimited_swap d1 d2 body t1 t2 f x y :
  clean d1 -> clean d2 -> safe t1 -> safe t2 ->
  found_ok (seq [lit d1; Grp 1 body; lit d2]) f ->
  safe (x ++ f_text f ++ y) ->
  safe (x ++ expand [TLit t1; TGrp 1; TLit t2] f ++ y).
Proof.
  intros C1 C2 T1 T2 Hf Hs.
  rewrite (delimited_found _ _ _ _ Hf) in Hs. rewrite expand3.
  rewrite <- !app_assoc in *.
  apply (safe_swap_clean x d1 t1) in Hs; auto.
  rewrite (app_assoc t1), (app_assoc x) in Hs.
  apply (safe_swap_clean _ d2 t2) in Hs; auto.
  rewrite <- !app_assoc in Hs. exact Hs.
Qed.

Lemma delimited_sub_safe d1 d2 body t1 t2 s :
  clean d1 -> clean d2 -> safe t1 -> safe t2 -> safe s ->
  safe (sub (seq [lit d1; Grp 1 body; lit d2]) [TLit t1; TGrp 1; TLit t2] s).
Proof.
  intros. apply sub_with_safe; [|assumption].
  intros f x y Hf Hs. now apply (delimited_swap d1 d2 body).
Qed.

Ltac clean_text :=
  match goal with
  | |- clean ?d =>
      let d' := eval vm_compute in d in
      change (clean d');
      match d' with
      | ?c :: ?r =>
          apply (clean_of d' c r (last d' 0%N) (removelast d'));
          vm_compute; reflexivity
      end
  end.

Ltac tag_text := apply safe_one_tag; vm_compute; tauto.

Lemma hdr_mark_safe s :
  safe s -> safe (sub p_hdr_mark [TLit hdr_open; TGrp 1; TLit div_close] s).
Proof.
  apply delimited_sub_safe; [clean_text|clean_text|tag_text|tag_text].
Qed.

Lemma quote_mark_safe s :
  safe s -> safe (sub p_quote_mark [TLit quote_open; TGrp 1; TLit div_close] s).
Proof.
  apply delimited_sub_safe; [clean_text|clean_text|tag_text|tag_text].
Qed.

Lemma bold_safe s :
  safe s -> safe (sub p_bold [TLit b_open; TGrp 1; TLit b_close] s).
Proof.
  apply delimited_sub_safe; [clean_text|clean_text|tag_text|tag_text].
Qed.

Lemma code_safe s :
  safe s -> safe (sub p_code [TLit code_open; TGrp 1; TLit code_close] s).
Proof.
  apply (delimited_sub_safe [backtick] [backtick]);
    [clean_text|clean_text|tag_text|tag_text].
Qed.


Lemma italic_found f :
  found_ok p_italic f -> f_text f = [asterisk] ++ group 1 f ++ [asterisk].
Proof.
  intros [st [e [Hc [Hm [Hs Hf]]]]].
  unfold p_italic in Hm.
  change (seq [NotBehind (N.eqb asterisk); chr asterisk; NotAhead (N.eqb asterisk);
               Grp 1 (plus_lazy dot); NotBehind (N.eqb asterisk); chr asterisk;
               NotAhead (N.eqb asterisk)])
    with (Seq (NotBehind (N.eqb asterisk))
           (Seq (chr asterisk)
              (Seq (NotAhead (N.eqb asterisk))
                 (Seq (Grp 1 (plus_lazy dot))
                    (Seq (NotBehind (N.eqb asterisk))
                       (Seq (chr asterisk) (NotAhead (N.eqb asterisk)))))))) in Hm.
  destruct Hm as [m1 [[_ E1] Hm]]. destruct Hm as [m2 [H2 Hm]].
  destruct Hm as [m3 [[_ E3] Hm]]. destruct Hm as [m4 [[e' [H4 E4]] Hm]].
  destruct Hm as [m5 [[_ E5] Hm]]. destruct Hm as [m6 [H6 [_ E7]]].
  subst m1 m3 m5 e.
  apply matches_chr in H2. apply matches_chr in H6.
  destruct H2 as [S2 C2], H6 as [S6 C6].
  destruct (matches_span _ _ _ H4) as [g S4].
  assert (Sg : span m2 m4 g) by (subst m4; now apply span_set_cap).
  pose proof (span_trans _ _ _ _ _ S2 (span_trans _ _ _ _ _ Sg S6)) as St.
  rewrite (span_inj _ _ _ _ Hs St).
  unfold group. rewrite Hf, C6. subst m4. simpl.
  now rewrite (span_consumed _ _ _ S4).
Qed.

Lemma italic_safe s :
  safe s -> safe (sub p_italic [TLit i_open; TGrp 1; TLit i_close] s).
Proof.
  intros H. apply sub_with_safe; [|assumption].
  intros f x y Hf Hs.
  rewrite (italic_found _ Hf) in Hs. rewrite expand3.
  rewrite <- !app_assoc in *.
  apply (safe_swap_clean x [asterisk] i_open) in Hs;
    [|clean_text|tag_text].
  rewrite (app_assoc i_open), (app_assoc x) in Hs.
  apply (safe_swap_clean _ [asterisk] i_close) in Hs;
    [|clean_text|tag_text].
  rewrite <- !app_assoc in Hs. exact Hs.
Qed.

(** Blank lines *)

Lemma star_ws_span st e :
  matches (star ws) st e ->
  exists w, span st e w /\ Forall (fun c => isspace c = true) w /\ caps e = caps st.
Proof.
  unfold star. simpl. generalize 0%nat. intros lo H.
  induction H as [st|lo st mid e [c [t [H1 [H2 H3]]]] Hi IH].
  - exists []. split; [apply span_refl|]. split; [constructor|reflexivity].
  - destruct IH as [w [Sw [Fw Cw]]]. subst mid. exists (c :: w).
    split; [|split].
    + apply (span_trans _ _ _ [c] w (span_step c t st H1) Sw).
    + constructor; assumption.
    + rewrite Cw. reflexivity.
Qed.


Lemma blank_line_span st e :
  matches blank_line st e ->
  exists w, span st e (w ++ [newline]) /\ Forall (fun c => isspace c = true) w.
Proof.
  intros [e' [[mid [H1 H2]] E]]. subst e.
  apply star_ws_span in H1. destruct H1 as [w [Sw [Fw _]]].
  apply matches_chr in H2. destruct H2 as [Sn _].
  exists w. split; [|assumption].
  apply span_set_cap. eapply span_trans; eassumption.
Qed.

Lemma blank_lines_span lo st e :
  iter (matches blank_line) lo st e ->
  exists T, span st e T
            /\ Forall (fun c => isspace c = true) T
            /\ (lo <= length T)%nat
            /\ (T = [] \/ exists z, T = z ++ [newline]).
Proof.
  induction 1 as [st|lo st mid e H1 Hi IH].
  - exists []. split; [apply span_refl|]. split; [constructor|].
    split; [simpl; lia|left; reflexivity].
  - apply blank_line_span in H1. destruct H1 as [w [Sw Fw]].
    destruct IH as [T [ST [FT [LT ET]]]].
    exists ((w ++ [newline]) ++ T). split; [|split; [|split]].
    + eapply span_trans; eassumption.
    + apply Forall_app. split; [|assumption].
      apply Forall_app. split; [assumption|]. repeat constructor.
    + rewrite !length_app. simpl. lia.
    + right. destruct ET as [ET|[z ET]].
      * subst T. exists w. now rewrite app_nil_r.
      * subst T. exists ((w ++ [newline]) ++ z). now rewrite app_assoc.
Qed.

Lemma blank_lines_found f :
  found_ok p_blank_lines f ->
  exists a b r z,
    f_text f = a :: b :: r /\ isspace a = true /\ isspace b = true
    /\ f_text f = z ++ [newline].
Proof.
  intros [st [e [Hc [Hm [Hs Hf]]]]].
  apply blank_lines_span in Hm. destruct Hm as [T [ST [FT [LT ET]]]].
  rewrite (span_inj _ _ _ _ Hs ST).
  destruct T as [|a [|b r]]; simpl in LT; try lia.
  destruct ET as [ET|[z ET]]; [discriminate|].
  exists a, b, r, z. inversion FT as [|? ? Ha FT']; subst.
  inversion FT' as [|? ? Hb _]; subst. auto.
Qed.

Lemma blank_lines_safe s :
  safe s -> safe (sub p_blank_lines [TLit [newline; newline]] s).
Proof.
  intros H. apply sub_with_safe; [|assumption].
  intros f x y Hf Hs.
  destruct (blank_lines_found _ Hf) as [a [b [r [z [E1 [Ha [Hb E2]]]]]]].
  assert (Ex : expand [TLit [newline; newline]] f = [newline; newline])
    by reflexivity.
  rewrite Ex.
  apply (safe_swap x (f_text f)); auto.
  - rewrite E1. simpl. now apply no_straddle_blanks.
  - rewrite E2. rewrite app_assoc. apply no_straddle_last. vm_compute. reflexivity.
  - apply safe_no_angle; vm_compute; intuition discriminate.
Qed.

(** [str.replace] *)

Lemma startswith_split p : forall s,
  startswith p s = true -> s = p ++ skipn (length p) s.
Proof.
  induction p as [|a p IH]; intros s H; [reflexivity|].
  destruct s as [|b s]; [discriminate|]. simpl in H.
  apply andb_true_iff in H. destruct H as [H1 H2]. apply N.eqb_eq in H1.
  subst b. simpl. f_equal. now apply IH.
Qed.

Lemma replace_go_safe old new :
  clean old -> safe new ->
  forall s k pre,
    (k <= length s)%nat ->
    safe (pre ++ skipn k s) -> safe (pre ++ replace_go old new k s).
Proof.
  intros Hc Hn. induction s as [|c t IH]; intros k pre Hk Hs.
  - simpl in *. now rewrite skipn_nil in Hs.
  - destruct k as [|k]; simpl.
    + destruct (startswith old (c :: t)) eqn:E.
      * apply startswith_split in E.
        destruct Hc as [c1 [r1 [c2 [r2 [E1 [E2 [H1 H2]]]]]]].
        assert (Hc : clean old) by (exists c1, r1, c2, r2; auto).
        assert (El : length old = S (length r1)) by (rewrite E1; reflexivity).
        rewrite El in *. simpl. rewrite Nat.sub_0_r.
        simpl in Hs. rewrite E in Hs.
        apply (safe_swap_clean pre old new) in Hs; auto.
        rewrite app_assoc in *. apply IH; [|exact Hs].
        rewrite E1 in E. simpl in E. injection E as _ E.
        apply (f_equal (@length _)) in E. rewrite length_app in E. lia.
      * simpl in Hs.
        replace (pre ++ c :: replace_go old new 0 t)
          with ((pre ++ [c]) ++ replace_go old new 0 t)
          by (now rewrite <- app_assoc).
        apply IH; [lia|]. simpl. now rewrite <- app_assoc.
    + apply IH; [simpl in Hk; lia|exact Hs].
Qed.

Lemma replace_safe old new s :
  clean old -> safe new -> safe s -> safe (replace old new s).
Proof.
  intros Hc Hn Hs. unfold replace.
  apply (replace_go_safe old new Hc Hn s 0 []); [lia|exact Hs].
Qed.

Lemma replace_single c new s :
  replace [c] new s = flat_map (fun x => if (c =? x)%N then new else [x]) s.
Proof.
  unfold replace. induction s as [|x t IH]; [reflexivity|].
  simpl. rewrite andb_true_r. destruct (c =? x)%N; simpl; now rewrite IH.
Qed.

Lemma replace_single_gone c new s :
  ~ In c new -> ~ In c (replace [c] new s).
Proof.
  intros Hn. rewrite replace_single. intro H. apply in_flat_map in H.
  destruct H as [x [_ H]]. destruct (c =? x)%N eqn:E.
  - contradiction.
  - simpl in H. destruct H as [H|[]]. subst. rewrite N.eqb_refl in E.
    discriminate.
Qed.

Lemma replace_single_keeps c d new s :
  ~ In d new -> ~ In d s -> ~ In d (replace [c] new s).
Proof.
  intros Hn Hs. rewrite replace_single. intro H. apply in_flat_map in H.
  destruct H as [x [Hx H]]. destruct (c =? x)%N.
  - contradiction.
  - simpl in H. destruct H as [H|[]]. subst. contradiction.
Qed.

(** The escaping leaves no angle bracket. *)
Lemma html_escape_no_angle s :
  ~ In lt (html_escape s) /\ ~ In gt (html_escape s).
Proof.
  unfold html_escape.
  change (u "&") with [38%N]. change (u "<") with [lt]. change (u ">") with [gt].
  assert (L : forall t, ~ In lt (replace [lt] (u "&lt;") t)).
  { intro t. apply replace_single_gone. vm_compute. intuition discriminate. }
  split.
  - apply replace_single_keeps; [vm_compute; intuition discriminate|].
    apply replace_single_keeps; [vm_compute; intuition discriminate|].
    apply replace_single_keeps; [vm_compute; intuition discriminate|].
    apply L.
  - apply replace_single_keeps; [vm_compute; intuition discriminate|].
    apply replace_single_keeps; [vm_compute; intuition discriminate|].
    apply replace_single_gone. vm_compute. intuition discriminate.
Qed.

Lemma html_escape_safe s : safe (html_escape s).
Proof. apply safe_no_angle; apply html_escape_no_angle. Qed.

Lemma code_placeholder_clean idx : clean (code_placeholder idx).
Proof.
  unfold code_placeholder.
  apply (clean_of _ 64%N (skipn 1 (u "@@CODE") ++ str_of_nat idx ++ u "@@")
                  64%N (u "@@CODE" ++ str_of_nat idx ++ [64%N])).
  - reflexivity.
  - rewrite <- !app_assoc. reflexivity.
  - vm_compute. reflexivity.
  - vm_compute. reflexivity.
Qed.

Lemma code_block_markup_safe cb :
  safe (pre_open ++ html_escape cb ++ pre_close).
Proof.
  unfold pre_open, pre_close. rewrite <- app_assoc.
  constructor; [vm_compute; tauto|].
  change (u "<code>" ++ html_escape cb ++ u "</code></pre>")
    with (u "<code>" ++ html_escape cb ++ code_close ++ u "</pre>").
  constructor; [vm_compute; tauto|].
  apply safe_app; [apply html_escape_safe|].
  constructor; [vm_compute; tauto|]. tag_text.
Qed.

Lemma restore_code_blocks_safe code_blocks :
  forall s, safe s -> safe (restore_code_blocks code_blocks s).
Proof.
  unfold restore_code_blocks.
  induction code_blocks as [|[idx cb] l IH]; intros s Hs; [exact Hs|].
  simpl. apply IH. apply replace_safe; auto.
  - apply code_placeholder_clean.
  - apply code_block_markup_safe.
Qed.

Lemma format_display_text_safe_all text : safe (_format_display_text text).
Proof.
  unfold _format_display_text. destruct text as [|c t]; [constructor|].
  destruct (extract_code_blocks (replace [13%N; 10%N] [newline] (c :: t)))
    as [raw code_blocks].
  apply replace_safe; [clean_text|tag_text|].
  apply blank_lines_safe, restore_code_blocks_safe, code_safe, italic_safe,
    bold_safe.
  apply replace_safe; [clean_text|tag_text|].
  apply quote_mark_safe, hdr_mark_safe, html_escape_safe.
Qed.

(** C2: whatever the input, every angle bracket of the text
    [_format_display_text] returns belongs to one of the tags the function
    itself writes: the output is made of such tags and of characters other
    than the two brackets, so no bracket of the input reaches it unescaped.
    In particular a script element comes out in its escaped entity form. *)
Theorem format_display_text_safe :
  (forall text, safe (_format_display_text text))
  /\ _format_display_text (u "<script>x</script>")
     = u "&lt;script&gt;x&lt;/script&gt;".
Proof.
  split; [exact format_display_text_safe_all|]. vm_compute. reflexivity.
Qed.

End FormatFacts.

Import FormatFacts.

(** ** Reply post-processing *)

Module PostFacts.

(** Where nothing matches, the scan returns the subject untouched. *)
Lemma scan_go_none r cnt :
  forall s pend b,
    (forall p q, s = p ++ q -> attempt r false (rev p ++ b) q = None) ->
    scan_go r cnt 0 pend b s = ([], rev pend ++ s).
Proof.
  induction s as [|c t IH]; intros pend b H; simpl.
  - destruct (exhausted cnt); [reflexivity|].
    pose proof (H [] [] eq_refl) as H0. simpl in H0. rewrite H0.
    now rewrite app_nil_r.
  - destruct (exhausted cnt); [reflexivity|].
    pose proof (H [] (c :: t) eq_refl) as H0. simpl in H0. rewrite H0.
    rewrite IH.
    + simpl. now rewrite <- app_assoc.
    + intros p q E. specialize (H (c :: p) q). simpl in H.
      rewrite <- app_assoc in H. apply H. now rewrite E.
Qed.

Lemma sub_none r t s :
  (forall p q, s = p ++ q -> attempt r false (rev p) q = None) ->
  sub r t s = s.
Proof.
  intros H. unfold sub, sub_with, scan. rewrite scan_go_none.
  - reflexivity.
  - intros p q E. rewrite app_nil_r. now apply H.
Qed.

Lemma matches_alt rs :
  forall st e, matches (alt rs) st e -> exists r, In r rs /\ matches r st e.
Proof.
  induction rs as [|r rs IH]; intros st e H.
  - simpl in H. destruct H as [c [t [_ [H _]]]]. discriminate.
  - destruct rs as [|r' rs].
    + exists r. split; [now left|exact H].
    + change (alt (r :: r' :: rs)) with (Alt r (alt (r' :: rs))) in H.
      destruct H as [H|H].
      * exists r. split; [now left|exact H].
      * apply IH in H. destruct H as [x [Hx Hm]].
        exists x. split; [now right|exact Hm].
Qed.

Lemma matches_lit_i l :
  forall st e, matches (lit_i l) st e -> ci_startswith l (rest st) = true.
Proof.
  induction l as [|c t IH]; intros st e H; [reflexivity|].
  destruct t as [|c' t].
  - simpl in H. destruct H as [x [r [H1 [H2 _]]]]. rewrite H1. simpl.
    now rewrite H2.
  - change (lit_i (c :: c' :: t)) with (Seq (ci c) (lit_i (c' :: t))) in H.
    destruct H as [mid [[x [r [H1 [H2 H3]]]] H4]].
    apply IH in H4. subst mid. change (rest (step x r st)) with r in H4.
    rewrite H1.
    change (ci_startswith (c :: c' :: t) (x :: r))
      with (ci_eq c x && ci_startswith (c' :: t) r).
    now rewrite H2, H4.
Qed.

Lemma begins_here s :
  existsb (fun l => ci_startswith l s) role_labels = true ->
  begins_with_label s = true.
Proof.
  intros H. destruct s; simpl; simpl in H; rewrite H; reflexivity.
Qed.

Lemma begins_after_blanks w s :
  Forall (fun c => isspace c = true) w ->
  begins_with_label s = true -> begins_with_label (w ++ s) = true.
Proof.
  induction 1 as [|c w Hc Hw IH]; intros H; [exact H|].
  specialize (IH H). simpl ((c :: w) ++ s).
  change (begins_with_label (c :: w ++ s))
    with (existsb (fun l => ci_startswith l (c :: w ++ s)) role_labels
          || (isspace c && begins_with_label (w ++ s))).
  rewrite Hc, IH. apply orb_true_r.
Qed.

Lemma star_ws_blanks st e :
  matches (star ws) st e ->
  exists w, rest st = w ++ rest e /\ Forall (fun c => isspace c = true) w.
Proof.
  unfold star. simpl. generalize 0%nat. intros lo H.
  induction H as [st|lo st mid e [c [t [H1 [H2 H3]]]] Hi IH].
  - exists []. split; [reflexivity|constructor].
  - destruct IH as [w [Sw Fw]]. subst mid. simpl in Sw.
    exists (c :: w). split; [now rewrite H1, Sw|now constructor].
Qed.

(** A match of the role pattern leaves a text that begins with a label. *)
Lemma role_prefix_sound adv b s e :
  attempt p_role_prefix adv b s = Some e -> begins_with_label s = true.
Proof.
  intros H. apply attempt_sound in H.
  change p_role_prefix
    with (Seq (Bol false)
            (Seq (star ws)
               (Seq (Grp 1 (alt (List.map lit_i role_labels))) (star ws)))) in H.
  destruct H as [m1 [[_ E1] [m2 [H2 [m3 [[e' [H3 _]] _]]]]]]. subst m1.
  apply star_ws_blanks in H2. destruct H2 as [w [Hw Fw]]. simpl in Hw.
  rewrite Hw. apply begins_after_blanks; [exact Fw|].
  apply begins_here.
  apply matches_alt in H3. destruct H3 as [r [Hr Hm]].
  apply in_map_iff in Hr. destruct Hr as [l [El Hl]]. subst r.
  apply matches_lit_i in Hm. apply existsb_exists. exists l. auto.
Qed.

(** The pattern is anchored: it matches nowhere but at the start. *)
Lemma role_prefix_anchored adv c b s : attempt p_role_prefix adv (c :: b) s = None.
Proof. reflexivity. Qed.

(** C6 as stated fails: with two labels in a row each application removes
    one, so the second application still changes the text. *)
Lemma strip_role_prefixes_not_idempotent :
  _strip_role_prefixes (_strip_role_prefixes (u "AI:AI:hello"))
  <> _strip_role_prefixes (u "AI:AI:hello").
Proof. vm_compute. discriminate. Qed.

End PostFacts.

Import PostFacts.

(** ** Fenced code blocks *)

Module FenceFacts.

(** The matcher on a literal that is there. *)
Lemma m_lit_here l :
  forall k b r cs,
    m (lit l) k (MState b (l ++ r) cs) = k (MState (rev l ++ b) r cs).
Proof.
  induction l as [|c t IH]; intros k b r cs; [reflexivity|].
  destruct t as [|c' t].
  - simpl. rewrite N.eqb_refl. reflexivity.
  - change (lit (c :: c' :: t)) with (Seq (chr c) (lit (c' :: t))).
    change (m (Seq (chr c) (lit (c' :: t))) k (MState b ((c :: c' :: t) ++ r) cs))
      with (m (chr c) (m (lit (c' :: t)) k) (MState b (c :: (c' :: t) ++ r) cs)).
    unfold chr at 1. cbn [m rest]. rewrite N.eqb_refl.
    unfold step. cbn [bef caps]. rewrite IH.
    f_equal. f_equal. simpl. now rewrite <- !app_assoc.
Qed.

Lemma m_lit_end l k b cs :
  m (lit l) k (MState b l cs) = k (MState (rev l ++ b) [] cs).
Proof. rewrite <- (app_nil_r l) at 2. apply m_lit_here. Qed.

(** ... and on one whose first character is not. *)
Lemma m_lit_miss c l k st :
  match rest st with
  | [] => True
  | x :: _ => c <> x
  end ->
  m (lit (c :: l)) k st = None.
Proof.
  intros H. destruct l as [|c' l].
  - simpl. destruct (rest st) as [|x r]; [reflexivity|].
    apply N.eqb_neq in H. now rewrite H.
  - change (lit (c :: c' :: l)) with (Seq (chr c) (lit (c' :: l))).
    simpl. destruct (rest st) as [|x r]; [reflexivity|].
    apply N.eqb_neq in H. now rewrite H.
Qed.

(** A lazy [[\s\S]*?] goes on for as long as what follows it fails. *)
Lemma lazy_any_until (k : mstate -> option mstate) c :
  forall fuel b r cs res,
    (length c <= fuel)%nat ->
    (forall p x q, c = p ++ x :: q ->
                   k (MState (rev p ++ b) (x :: q ++ r) cs) = None) ->
    k (MState (rev c ++ b) r cs) = Some res ->
    rep_loop (m any) k false fuel 0 None (MState b (c ++ r) cs) = Some res.
Proof.
  induction c as [|x c IH]; intros fuel b r cs res Hf Hn Hk.
  - simpl in Hk. destruct fuel; simpl; now rewrite Hk.
  - destruct fuel as [|fuel]; [simpl in Hf; lia|].
    pose proof (Hn [] x c eq_refl) as H0. simpl in H0.
    simpl. rewrite H0.
    assert (Hl : (length (c ++ r) <? S (length (c ++ r)))%nat = true)
      by (apply Nat.ltb_lt; lia).
    unfold step. simpl. rewrite Hl. simpl.
    apply IH.
    + simpl in Hf. lia.
    + intros p y q E. specialize (Hn (x :: p) y q). simpl in Hn.
      rewrite <- app_assoc in Hn. apply Hn. now rewrite E.
    + simpl in Hk. now rewrite <- app_assoc in Hk.
Qed.

Lemma scan_go_skip_all r cnt :
  forall t b, scan_go r cnt (length t) [] b t = scan_go r cnt 0 [] (rev t ++ b) [].
Proof.
  induction t as [|c t IH]; intros b; [reflexivity|].
  simpl length. cbn [scan_go]. rewrite IH. simpl. now rewrite <- app_assoc.
Qed.

(** A subject that is one match from end to end. *)
Lemma scan_whole r s cs :
  s <> [] ->
  attempt r false [] s = Some (MState (rev s) [] cs) ->
  attempt r false (rev s) [] = None ->
  scan r None s = ([Found [] s cs], []).
Proof.
  intros Hs Ha Hn. unfold scan. destruct s as [|c t]; [congruence|].
  assert (Hm : mlen [] (MState (rev (c :: t)) [] cs) = S (length t)).
  { unfold mlen. cbn [bef]. rewrite length_rev. reflexivity. }
  assert (Hf : mk_found [] [] (c :: t) (MState (rev (c :: t)) [] cs)
               = Found [] (c :: t) cs).
  { unfold mk_found. rewrite Hm. cbn [caps rev].
    change (S (length t)) with (length (c :: t)). now rewrite firstn_all. }
  cbn [scan_go exhausted]. rewrite Ha, Hf, Hm.
  cbn [dec_hi option_map]. rewrite scan_go_skip_all.
  change (rev t ++ [c]) with (rev (c :: t)).
  cbn [scan_go exhausted]. rewrite Hn. reflexivity.
Qed.

(** [str.replace] where the old text does not occur. *)
Lemma replace_absent old new :
  forall s,
    (forall p q, s = p ++ q -> startswith old q = false) ->
    replace old new s = s.
Proof.
  unfold replace. induction s as [|c t IH]; intros H; [reflexivity|].
  simpl. rewrite (H [] (c :: t) eq_refl). f_equal. apply IH.
  intros p q E. apply (H (c :: p) q). simpl. now rewrite E.
Qed.

Lemma replace_go_skip_all old new :
  forall t, replace_go old new (length t) t = [].
Proof. induction t as [|c t IH]; [reflexivity|exact IH]. Qed.

Lemma startswith_refl s : startswith s s = true.
Proof. induction s as [|c t IH]; [reflexivity|]. simpl. now rewrite N.eqb_refl. Qed.

(** [old.replace(old, new)] is [new]. *)
Lemma replace_self old new : old <> [] -> replace old new old = new.
Proof.
  intros H. unfold replace. destruct old as [|c t]; [congruence|].
  cbn [replace_go]. rewrite startswith_refl.
  replace (length (c :: t) - 1)%nat with (length t) by (simpl; lia).
  rewrite replace_go_skip_all. apply app_nil_r.
Qed.

Lemma crlf_startswith_cons x t :
  startswith crlf (x :: t) = true -> x = 13%N /\ exists t', t = newline :: t'.
Proof.
  unfold crlf. cbn [startswith]. intros H.
  apply andb_true_iff in H. destruct H as [H1 H2].
  apply N.eqb_eq in H1. destruct t as [|y t']; [discriminate|].
  apply andb_true_iff in H2. destruct H2 as [H2 _]. apply N.eqb_eq in H2.
  split; [auto|]. exists t'. unfold newline. now subst.
Qed.

Lemma replace_go_in old new x :
  forall s k, In x (replace_go old new k s) -> In x s \/ In x new.
Proof.
  induction s as [|c t IH]; intros k H; [now left|].
  destruct k as [|k]; cbn [replace_go] in H.
  - destruct (startswith old (c :: t)).
    + apply in_app_or in H. destruct H as [H|H]; [now right|].
      apply IH in H. destruct H; [left; now right|now right].
    + destruct H as [H|H]; [left; now left|].
      apply IH in H. destruct H; [left; now right|now right].
  - apply IH in H. destruct H; [left; now right|now right].
Qed.


(** The formatter, stage by stage. *)
Lemma format_display_text_stages text :
  text <> [] ->
  _format_display_text text
  = let (raw, code_blocks) := extract_code_blocks (replace crlf [newline] text) in
    line_breaks
      (restore_code_blocks code_blocks
         (inline_markup (html_escape (structural raw)))).
Proof.
  intros H. destruct text as [|c t]; [congruence|].
  unfold _format_display_text.
  destruct (extract_code_blocks (replace [13%N; 10%N] [newline] (c :: t)))
    as [raw code_blocks] eqn:E.
  unfold crlf. rewrite E. reflexivity.
Qed.

Lemma blank_lines_absent s :
  ~ In newline s -> sub p_blank_lines [TLit [newline; newline]] s = s.
Proof.
  intros H. apply sub_none. intros p q E.
  destruct (attempt p_blank_lines false (rev p) q) as [e|] eqn:Ea; [|reflexivity].
  exfalso. apply attempt_sound in Ea.
  apply blank_lines_span in Ea. destruct Ea as [T [[ST _] [_ [LT ET]]]].
  simpl in ST. destruct ET as [ET|[z ET]].
  - subst T. simpl in LT. lia.
  - apply H. rewrite E, ST, ET. apply in_or_app. right.
    apply in_or_app. left. apply in_or_app. right. now left.
Qed.

Lemma replace_single_absent c new s : ~ In c s -> replace [c] new s = s.
Proof.
  intros H. rewrite replace_single. induction s as [|x t IH]; [reflexivity|].
  simpl. destruct (c =? x)%N eqn:E.
  - apply N.eqb_eq in E. subst x. exfalso. apply H. now left.
  - simpl. f_equal. apply IH. intro Hin. apply H. now right.
Qed.

Lemma line_breaks_absent s : ~ In newline s -> line_breaks s = s.
Proof.
  intros H. unfold line_breaks. rewrite (blank_lines_absent s H).
  now apply replace_single_absent.
Qed.

Lemma html_escape_keeps d s :
  ~ In d (u "&amp;") -> ~ In d (u "&lt;") -> ~ In d (u "&gt;") ->
  ~ In d (u "&quot;") -> ~ In d (u "&#x27;") ->
  ~ In d s -> ~ In d (html_escape s).
Proof.
  intros H1 H2 H3 H4 H5 Hs. unfold html_escape.
  change (u "&") with [38%N]. change (u "<") with [lt]. change (u ">") with [gt].
  repeat (apply replace_single_keeps; [assumption|]). exact Hs.
Qed.


Lemma crlf_absent c : ~ In newline c -> replace crlf [newline] c = c.
Proof.
  intros H. apply replace_absent. intros p q E.
  destruct q as [|x t]; [reflexivity|].
  destruct (startswith crlf (x :: t)) eqn:Es; [|reflexivity].
  apply crlf_startswith_cons in Es. destruct Es as [_ [t' Et]].
  exfalso. apply H. rewrite E, Et. apply in_or_app. right. right. now left.
Qed.

End FenceFacts.

Import FenceFacts.

(** ** Sentence units *)

Module SplitFacts.

Lemma rep_loop_open body k g fuel lo st :
  rep_loop body k g (S fuel) lo None st
  = let again :=
      body (fun e =>
              if (length (rest e) <? length (rest st))%nat || (0 <? lo)%nat
              then rep_loop body k g fuel (Nat.pred lo) None e
              else None) st in
    match lo with
    | S _ => again
    | O =>
        if g then match again with Some e => Some e | None => k st end
        else match k st with Some e => Some e | None => again end
    end.
Proof. destruct lo, g; reflexivity. Qed.

Lemma m_cls_hit p k b x t cs :
  p x = true -> m (Cls p) k (MState b (x :: t) cs) = k (MState (x :: b) t cs).
Proof. intros H. simpl. now rewrite H. Qed.

Lemma m_cls_miss p k st :
  match rest st with [] => True | x :: _ => p x = false end ->
  m (Cls p) k st = None.
Proof. intros H. simpl. destruct (rest st); [reflexivity|now rewrite H]. Qed.

(** A greedy repeat of a class runs to the end of the run. *)
Lemma greedy_run (p : char -> bool) (k : mstate -> option mstate) d :
  forall fuel lo b r cs res,
    Forall (fun c => p c = true) d ->
    match r with [] => True | x :: _ => p x = false end ->
    (lo <= length d)%nat -> (length d <= fuel)%nat ->
    k (MState (rev d ++ b) r cs) = Some res ->
    rep_loop (m (Cls p)) k true fuel lo None (MState b (d ++ r) cs) = Some res.
Proof.
  induction d as [|x d IH]; intros fuel lo b r cs res Hd Hr Hlo Hf Hk.
  - simpl in Hlo. assert (lo = 0%nat) by lia. subst lo. simpl in Hk.
    destruct fuel as [|fuel]; [exact Hk|].
    rewrite rep_loop_open. cbv zeta. rewrite m_cls_miss by exact Hr. exact Hk.
  - destruct fuel as [|fuel]; [simpl in Hf; lia|].
    inversion Hd as [|? ? Hx Hd']; subst.
    assert (Hl : (length (d ++ r) <? S (length (d ++ r)))%nat = true)
      by (apply Nat.ltb_lt; lia).
    assert (Hnext :
      rep_loop (m (Cls p)) k true fuel (Nat.pred lo) None
               (MState (x :: b) (d ++ r) cs) = Some res).
    { apply IH; auto.
      - simpl in Hlo. lia.
      - simpl in Hf. lia.
      - simpl in Hk. now rewrite <- app_assoc in Hk. }
    rewrite rep_loop_open. cbv zeta.
    change ((x :: d) ++ r) with (x :: d ++ r).
    rewrite m_cls_hit by exact Hx. cbn [rest length]. rewrite Hl.
    cbn [orb]. rewrite Hnext. destruct lo; reflexivity.
Qed.

Lemma sentence_end_unfold adv b s :
  attempt p_sentence_end adv b s
  = rep_loop (m (Cls is_delim))
             (fun e => final adv b (set_cap 1 (MState b s []) e))
             true (1 + length s) 1 None (MState b s []).
Proof. reflexivity. Qed.

Lemma sentence_end_miss adv b s :
  no_delim_ahead s -> attempt p_sentence_end adv b s = None.
Proof.
  intros H. rewrite sentence_end_unfold.
  change (1 + length s)%nat with (S (length s)). rewrite rep_loop_open.
  cbv zeta. apply m_cls_miss. exact H.
Qed.

Lemma sentence_end_hit b d r :
  d <> [] -> Forall (fun c => is_delim c = true) d -> no_delim_ahead r ->
  attempt p_sentence_end false b (d ++ r)
  = Some (MState (rev d ++ b) r [(1%nat, d)]).
Proof.
  intros Hn Hd Hr. rewrite sentence_end_unfold.
  apply greedy_run.
  - exact Hd.
  - exact Hr.
  - destruct d; [congruence|simpl; lia].
  - rewrite length_app. lia.
  - unfold final, set_cap. cbn [andb bef rest caps].
    f_equal. f_equal. f_equal. f_equal.
    apply span_consumed. split; reflexivity.
Qed.

Lemma scan_go_skip r cnt :
  forall a b t,
    scan_go r cnt (length a) [] b (a ++ t) = scan_go r cnt 0 [] (rev a ++ b) t.
Proof.
  induction a as [|c a IH]; intros b t; [reflexivity|].
  simpl length. cbn [scan_go app]. rewrite IH. simpl. now rewrite <- app_assoc.
Qed.

(** The scan for sentence ends, one case at a time. *)
Lemma scan_sentence_nil pend b :
  scan_go p_sentence_end None 0 pend b [] = ([], rev pend).
Proof.
  cbn [scan_go exhausted]. rewrite sentence_end_miss; [reflexivity|exact I].
Qed.

Lemma scan_sentence_char pend b x t :
  is_delim x = false ->
  scan_go p_sentence_end None 0 pend b (x :: t)
  = scan_go p_sentence_end None 0 (x :: pend) (x :: b) t.
Proof.
  intros H. cbn [scan_go exhausted]. rewrite sentence_end_miss; [reflexivity|exact H].
Qed.

Lemma scan_sentence_run pend b d r :
  d <> [] -> Forall (fun c => is_delim c = true) d -> no_delim_ahead r ->
  scan_go p_sentence_end None 0 pend b (d ++ r)
  = cons_fst (Found (rev pend) d [(1%nat, d)])
             (scan_go p_sentence_end None 0 [] (rev d ++ b) r).
Proof.
  intros Hn Hd Hr.
  pose proof (sentence_end_hit b d r Hn Hd Hr) as Ha.
  destruct d as [|y d]; [congruence|].
  assert (Hm : mlen b (MState (rev (y :: d) ++ b) r [(1%nat, y :: d)])
               = S (length d)).
  { unfold mlen. cbn [bef]. rewrite length_app, length_rev, Nat.add_sub.
    reflexivity. }
  assert (Hf : mk_found pend b ((y :: d) ++ r)
                        (MState (rev (y :: d) ++ b) r [(1%nat, y :: d)])
               = Found (rev pend) (y :: d) [(1%nat, y :: d)]).
  { unfold mk_found. rewrite Hm. cbn [caps].
    change (S (length d)) with (length (y :: d)).
    rewrite firstn_app, firstn_all, Nat.sub_diag. simpl. now rewrite app_nil_r. }
  change ((y :: d) ++ r) with (y :: d ++ r) in *.
  cbn [scan_go exhausted]. rewrite Ha, Hf, Hm.
  cbn [dec_hi option_map]. rewrite scan_go_skip.
  simpl. now rewrite <- app_assoc.
Qed.

(** A text begins with a run of delimiters, possibly empty, that ends where
    the text does or where another character comes. *)
Lemma delim_run s :
  exists d r,
    s = d ++ r /\ Forall (fun c => is_delim c = true) d /\ no_delim_ahead r.
Proof.
  induction s as [|c t [d [r [E [Hd Hr]]]]].
  - exists [], []. split; [reflexivity|]. split; [constructor|exact I].
  - destruct (is_delim c) eqn:Ec.
    + exists (c :: d), r. subst t. split; [reflexivity|].
      split; [now constructor|exact Hr].
    + exists [], (c :: t). split; [reflexivity|]. split; [constructor|exact Ec].
Qed.

Lemma split_units_run d :
  forall r sent dl,
    Forall (fun c => is_delim c = true) d ->
    split_units (d ++ r) sent dl = split_units r sent (rev d ++ dl).
Proof.
  induction d as [|c d IH]; intros r sent dl H; [reflexivity|].
  inversion H as [|? ? Hc Hd]; subst. simpl. rewrite Hc.
  rewrite IH by exact Hd. now rewrite <- app_assoc.
Qed.

Lemma split_units_after_run y r sent dl :
  is_delim y = false -> dl <> [] ->
  split_units (y :: r) sent dl = (rev sent, rev dl) :: split_units r [y] [].
Proof.
  intros H Hd. simpl. rewrite H. destruct dl; [congruence|reflexivity].
Qed.

Lemma split_units_char y r sent :
  is_delim y = false -> split_units (y :: r) sent [] = split_units r (y :: sent) [].
Proof. intros H. simpl. now rewrite H. Qed.

Lemma rev_cons_not_nil {A : Type} (x : A) l : rev (x :: l) <> [].
Proof.
  intro E. apply (f_equal (@length _)) in E. rewrite length_rev in E.
  discriminate.
Qed.

Lemma keep_empty seq : keep seq ([], []) = seq.
Proof. reflexivity. Qed.

Lemma collapse_loop_pair s d more seq :
  collapse_loop (s :: d :: more) seq = collapse_loop more (keep seq (s, d)).
Proof. reflexivity. Qed.

Lemma collapse_loop_last s seq : collapse_loop [s] seq = keep seq (s, []).
Proof. reflexivity. Qed.

Lemma parts_cons f p :
  parts (cons_fst f p) = f_before f :: group 1 f :: parts p.
Proof. reflexivity. Qed.

Lemma split1_parts r s : split1 r s = parts (scan r None s).
Proof. unfold split1, parts. destruct (scan r None s). reflexivity. Qed.

(** The loop over the parts of the split is the loop over the units. *)
Lemma collapse_loop_units n :
  forall s pend b seq,
    (length s <= n)%nat ->
    collapse_loop (parts (scan_go p_sentence_end None 0 pend b s)) seq
    = fold_left keep (split_units s pend []) seq.
Proof.
  induction n as [|n IH]; intros s pend b seq Hn.
  - destruct s; [|simpl in Hn; lia].
    rewrite scan_sentence_nil. reflexivity.
  - destruct s as [|x t].
    { rewrite scan_sentence_nil. reflexivity. }
    destruct (is_delim x) eqn:Ex.
    + destruct (delim_run t) as [d [r [E [Hd Hr]]]]. subst t.
      change (x :: d ++ r) with ((x :: d) ++ r).
      assert (Hxd : Forall (fun c => is_delim c = true) (x :: d))
        by now constructor.
      rewrite scan_sentence_run; [|discriminate|exact Hxd|exact Hr].
      rewrite parts_cons. cbn [f_before]. unfold group at 1.
      cbn [f_caps lookup Nat.eqb]. rewrite collapse_loop_pair.
      rewrite IH by (simpl in Hn; rewrite length_app in Hn; lia).
      rewrite split_units_run by exact Hxd. rewrite app_nil_r.
      destruct r as [|y r].
      * cbn [split_units fold_left]. rewrite rev_involutive. reflexivity.
      * simpl in Hr.
        rewrite (split_units_after_run y r pend (rev (x :: d)) Hr
                   (rev_cons_not_nil x d)).
        rewrite (split_units_char y r [] Hr).
        cbn [fold_left]. rewrite rev_involutive. reflexivity.
    + rewrite scan_sentence_char by exact Ex.
      rewrite IH by (simpl in Hn; lia).
      now rewrite split_units_char by exact Ex.
Qed.

Lemma last_kept_snoc seq x : last_kept (seq ++ [x]) = Some x.
Proof. unfold last_kept. now rewrite rev_app_distr. Qed.

Lemma keep_cases (seq : list str) (un : str * str) :
  let full := trimmed_unit un in
  (full = [] /\ keep seq un = seq)
  \/ (full <> [] /\ last_kept seq = Some full /\ keep seq un = seq)
  \/ (full <> [] /\ last_kept seq <> Some full /\ keep seq un = seq ++ [full]).
Proof.
  cbv zeta. unfold keep, last_kept. cbv zeta.
  destruct (trimmed_unit un) as [|c f];
    [left; split; reflexivity|].
  right. destruct (rev seq) as [|prev rs].
  - right. split; [discriminate|]. split; [discriminate|reflexivity].
  - destruct (str_eqb prev (c :: f)) eqn:E.
    + left. apply str_eqb_eq in E. subst prev.
      split; [discriminate|]. split; reflexivity.
    + right. apply str_eqb_neq in E.
      split; [discriminate|]. split; [congruence|reflexivity].
Qed.

Lemma drop_repeats_same x l : drop_repeats (Some x) (x :: l) = drop_repeats (Some x) l.
Proof. simpl. now rewrite str_eqb_refl. Qed.

Lemma drop_repeats_other prev x l :
  prev <> Some x -> drop_repeats prev (x :: l) = x :: drop_repeats (Some x) l.
Proof.
  intros H. destruct prev as [p|]; [|reflexivity]. simpl.
  destruct (str_eqb p x) eqn:E; [|reflexivity].
  apply str_eqb_eq in E. congruence.
Qed.

Lemma fold_keep_drop_repeats (us : list (str * str)) :
  forall seq,
    fold_left keep us seq
    = seq ++ drop_repeats (last_kept seq)
               (filter nonempty (List.map trimmed_unit us)).
Proof.
  induction us as [|un us IH]; intros seq; [simpl; now rewrite app_nil_r|].
  cbn [fold_left List.map filter]. rewrite IH. cbv beta.
  destruct (keep_cases seq un) as [[E K]|[[E [Hl K]]|[E [Hl K]]]];
    rewrite K; cbv zeta in *.
  - rewrite E. reflexivity.
  - destruct (trimmed_unit un) as [|c f]; [congruence|].
    cbn [nonempty]. rewrite Hl. now rewrite drop_repeats_same.
  - destruct (trimmed_unit un) as [|c f]; [congruence|].
    cbn [nonempty]. rewrite last_kept_snoc.
    rewrite (drop_repeats_other _ _ _ Hl). now rewrite <- app_assoc.
Qed.

(** C7, amended: [_collapse_consecutive_sentences] splits the text at the runs
    of sentence-ending punctuation and line breaks, trims each sentence,
    attaches to it the run that follows and trims the unit again, drops the
    empty units and the units equal to the one kept just before, and joins
    what is left; the two examples of the specification hold. *)
Theorem collapse_consecutive_sentences_trims :
  (forall text, _collapse_consecutive_sentences text = collapse_trimmed text)
  /\ _collapse_consecutive_sentences (u "A。A。B。") = u "A。B。"
  /\ _collapse_consecutive_sentences (u "A。B。A。") = u "A。B。A。".
Proof.
  split; [|split; vm_compute; reflexivity].
  intros text. unfold _collapse_consecutive_sentences, collapse_trimmed.
  destruct text as [|c t]; [reflexivity|].
  rewrite split1_parts. unfold units.
  unfold scan.
  rewrite (collapse_loop_units (length (c :: t))) by lia.
  rewrite fold_keep_drop_repeats. reflexivity.
Qed.

(** C7 as stated fails: the blank between a sentence and its delimiter is
    removed, where the units of the specification, trimmed as a whole or not
    at all, would be joined as they stand. *)
Lemma collapse_consecutive_sentences_not_as_claimed :
  _collapse_consecutive_sentences (u "A 。") <> collapse_as_claimed (u "A 。")
  /\ _collapse_consecutive_sentences (u "A 。") <> collapse_unit_trimmed (u "A 。").
Proof. split; vm_compute; discriminate. Qed.

End SplitFacts.

Import SplitFacts.

(** ** The worker *)

Module WorkerFacts.

Section Facts.

Context {L : Library}.

Lemma loop_body_no_finish w raw :
  forallb (fun e => negb (is_finish e)) (fst (loop_body w raw)) = true.
Proof.
  unfold loop_body.
  destruct (_stop w); [reflexivity|].
  destruct raw as [|b raw]; [reflexivity|].
  destruct (str_eqb _ _); [reflexivity|].
  destruct (json_loads _) as [chunk|]; [|reflexivity].
  destruct (truthy _); [|reflexivity].
  match goal with |- context [match ?x with JStr _ => _ | _ => _ end] =>
    destruct x end; reflexivity.
Qed.

Lemma for_lines_no_finish items :
  forall w,
    forallb (fun e => negb (is_finish e)) (fst (fst (for_lines w items))) = true.
Proof.
  induction items as [|it items IH]; intros w; [reflexivity|].
  destruct it as [raw| |e]; simpl.
  - pose proof (loop_body_no_finish w raw) as Hb.
    destruct (loop_body w raw) as [evs [w'| |e]]; simpl in *; try exact Hb.
    specialize (IH w'). destruct (for_lines w' items) as [[evs' w''] exn].
    simpl in *. rewrite forallb_app, Hb, IH. reflexivity.
  - apply IH.
  - reflexivity.
Qed.

(** The signals of a run: some that are not the finish signal, then the
    finish signal. *)
Lemma run_signals_shape (w : StreamWorker.worker) (post : post_result) :
  exists evs,
    fst (run w post) = evs ++ [finish_signal]
    /\ forallb (fun e => negb (is_finish e)) evs = true.
Proof.
  unfold run. destruct post as [e|resp].
  - exists [error_signal (u "请求失败: " ++ e)]. split; reflexivity.
  - destruct (negb (status_code resp =? 200)%Z).
    + eexists [_]. split; reflexivity.
    + pose proof (for_lines_no_finish (iter_lines resp) w) as H.
      destruct (for_lines w (iter_lines resp)) as [[evs w'] exn].
      simpl in *. destruct exn as [e|].
      * exists (evs ++ [error_signal (u "流处理出错: " ++ e)]).
        split; [now rewrite <- app_assoc|].
        rewrite forallb_app, H. reflexivity.
      * exists evs. split; [reflexivity|exact H].
Qed.

(** C1: whatever [requests.post] does and whatever the stream then delivers
    (the end sentinel, the end of the iteration, a refused connection, a
    status other than 200, a call of [stop] from another thread, an exception
    out of the iterator or out of a signal given a value that is not a
    string), [run] emits the finish signal exactly once, as its last
    signal. *)
Theorem finish_signal_exactly_once (w : StreamWorker.worker) (post : post_result) :
  length (filter is_finish (fst (run w post))) = 1%nat
  /\ exists evs, fst (run w post) = evs ++ [finish_signal].
Proof.
  destruct (run_signals_shape w post) as [evs [E H]].
  split; [|exists evs; exact E].
  rewrite E, filter_app.
  assert (Hn : filter is_finish evs = []).
  { clear E. induction evs as [|e evs IH]; [reflexivity|].
    simpl in H. apply andb_true_iff in H. destruct H as [He Ht].
    simpl. destruct (is_finish e); [discriminate|]. now apply IH. }
  rewrite Hn. reflexivity.
Qed.

(** C3: while the worker has not been stopped, a line that is not empty, whose
    payload is not the sentinel and does not parse as JSON, makes the loop
    emit that payload, as it stands, in one update signal, and go on with the
    lines that follow, the worker unchanged: no error, no end of the
    session. *)
Theorem unparsed_payload_is_literal_delta
    (w : StreamWorker.worker) (raw : bytes) (more : list stream_item) :
  _stop w = false ->
  raw <> [] ->
  payload (decode_line raw) <> u "[DONE]" ->
  json_loads (payload (decode_line raw)) = None ->
  for_lines w (Line raw :: more)
  = let '(evs, w', exn) := for_lines w more in
    (update_signal (payload (decode_line raw)) :: evs, w', exn).
Proof.
  intros Hs Hr Hd Hj. simpl. unfold loop_body. rewrite Hs.
  destruct raw as [|b raw]; [congruence|].
  apply str_eqb_neq in Hd. rewrite Hd, Hj.
  destruct (for_lines w more) as [[evs w'] exn]. reflexivity.
Qed.

Lemma progress_of_mono a b : (a <= b)%Z -> (progress_of a <= progress_of b)%Z.
Proof.
  intros H. unfold progress_of.
  apply Z.min_le_compat_l. apply Z.div_le_mono; lia.
Qed.

Lemma progress_of_range c : (0 <= c)%Z -> (0 <= progress_of c <= 100)%Z.
Proof.
  intros H. unfold progress_of. split; [|apply Z.le_min_l].
  apply Z.min_glb; [lia|]. apply Z.div_pos; lia.
Qed.

Lemma progress_values_app a b :
  progress_values (a ++ b) = progress_values a ++ progress_values b.
Proof.
  induction a as [|e a IH]; [reflexivity|].
  destruct e; simpl; rewrite ?IH; reflexivity.
Qed.

(** What one turn does to the counter and which progress it reports. *)
Lemma loop_body_progress w raw :
  (0 <= token_count w)%Z ->
  match loop_body w raw with
  | (evs, Next w') =>
      (token_count w <= token_count w')%Z
      /\ (progress_values evs = []
          \/ progress_values evs = [progress_of (token_count w')])
  | (evs, _) => progress_values evs = []
  end.
Proof.
  intros H0. unfold loop_body.
  destruct (_stop w); [reflexivity|].
  destruct raw as [|b raw]; [split; [lia|now left]|].
  destruct (str_eqb _ _); [reflexivity|].
  destruct (json_loads _) as [chunk|]; [|split; [lia|now left]].
  destruct (truthy _); [|split; [lia|now left]].
  match goal with |- context [match ?x with JStr _ => _ | _ => _ end] =>
    destruct x end; try reflexivity.
  simpl. split; [lia|now right].
Qed.

Lemma for_lines_progress items :
  forall w,
    (0 <= token_count w)%Z ->
    let vs := progress_values (fst (fst (for_lines w items))) in
    Sorted Z.le vs
    /\ Forall (fun v => (progress_of (token_count w) <= v <= 100)%Z) vs.
Proof.
  induction items as [|it items IH]; intros w H0; simpl.
  - split; constructor.
  - destruct it as [raw| |e]; simpl.
    + pose proof (loop_body_progress w raw H0) as Hb.
      destruct (loop_body w raw) as [evs [w'| |e]]; simpl in *;
        try (rewrite Hb; split; constructor).
      destruct Hb as [Hle Hv].
      assert (H0' : (0 <= token_count w')%Z) by lia.
      specialize (IH w' H0'). simpl in IH.
      destruct (for_lines w' items) as [[evs' w''] exn]. simpl in *.
      rewrite progress_values_app. destruct IH as [IHs IHf].
      assert (IHf' : Forall (fun v => (progress_of (token_count w) <= v <= 100)%Z)
                            (progress_values evs')).
      { eapply Forall_impl; [|exact IHf]. simpl. intros v [Hv1 Hv2].
        pose proof (progress_of_mono _ _ Hle). lia. }
      destruct Hv as [Hv|Hv]; rewrite Hv; simpl.
      * split; assumption.
      * split.
        -- constructor; [assumption|].
           destruct (progress_values evs') as [|v vs]; constructor.
           inversion IHf; subst. lia.
        -- constructor; [|assumption].
           pose proof (progress_of_mono _ _ Hle).
           pose proof (progress_of_range _ H0'). lia.
    + apply (IH (stop w)). exact H0.
    + split; constructor.
Qed.

(** C4: the values carried by the progress signals of a run of a fresh
    worker never decrease, and each lies between 0 and 100. *)
Theorem progress_monotone_and_bounded
    (messages : list message) (model : str) (post : post_result) :
  let vs := progress_values (fst (run (init messages model) post)) in
  Sorted Z.le vs /\ Forall (fun v => (0 <= v <= 100)%Z) vs.
Proof.
  unfold run. destruct post as [e|resp].
  - split; constructor.
  - destruct (negb (status_code resp =? 200)%Z).
    + split; constructor.
    + pose proof (for_lines_progress (iter_lines resp) (init messages model))
        as H.
      specialize (H ltac:(simpl; lia)).
      destruct (for_lines (init messages model) (iter_lines resp))
        as [[evs w'] exn].
      cbn [fst] in *. destruct H as [Hs Hf].
      assert (E : progress_values
                    (evs ++ match exn with
                            | Some e => [error_signal (u "流处理出错: " ++ e)]
                            | None => []
                            end ++ [finish_signal]) = progress_values evs).
      { rewrite progress_values_app. destruct exn; simpl; apply app_nil_r. }
      rewrite E. split; [assumption|].
      eapply Forall_impl; [|exact Hf]. simpl. intros v Hv.
      change (progress_of 0) with 0%Z in Hv. exact Hv.
Qed.

End Facts.

Lemma unparsed_payload_is_literal_delta_witness :
  for_lines (L := Sample.library) (init [] DEFAULT_MODEL)
            [Line (u "data: not json"); Line (u "data: [DONE]")]
  = ([update_signal (u "not json")], init [] DEFAULT_MODEL, None).
Proof.
  apply (unparsed_payload_is_literal_delta (L := Sample.library)
           (init [] DEFAULT_MODEL) (u "data: not json") [Line (u "data: [DONE]")]).
  - reflexivity.
  - discriminate.
  - vm_compute. discriminate.
  - vm_compute. reflexivity.
Defined.

(** The frames of a short reply, one of them not JSON, and the signals they
    give rise to. *)
Example run_sample :
  fst (run (L := Sample.library) (init [] DEFAULT_MODEL)
         (PostReturns
            (Response 200 None
               [Line (Sample.frame "data: {'choices':[{'delta':{'content':'Hi'}}]}");
                Line [];
                Line (Sample.frame "oops");
                Line (Sample.frame "data: {'choices':[{'message':{'content':' there'}}]}");
                Line (Sample.frame "data: [DONE]");
                Line (Sample.frame "data: {'choices':[{'delta':{'content':'late'}}]}")])))
  = [update_signal (u "Hi"); progress_signal 0;
     update_signal (u "oops");
     update_signal (u " there"); progress_signal 0;
     finish_signal].
Proof. vm_compute. reflexivity. Qed.

(** A content that is not a string ends the stream with an error and the
    finish signal. *)
Example run_sample_type_error :
  fst (run (L := Sample.library) (init [] DEFAULT_MODEL)
         (PostReturns
            (Response 200 None
               [Line (Sample.frame "data: {'choices':[{'delta':{'content':5}}]}");
                Line (Sample.frame "data: [DONE]")])))
  = [error_signal (u "流处理出错: argument 1 has unexpected type"); finish_signal].
Proof. vm_compute. reflexivity. Qed.

End WorkerFacts.

Import WorkerFacts.

(** ** Model discovery *)

Module DiscoveryFacts.

Lemma dedup_nil seen : dedup [] seen = seen.
Proof. reflexivity. Qed.







End DiscoveryFacts.

Import DiscoveryFacts.

(** ** The window *)

Module WindowFacts.

(** C10: submitting an input that is empty or made of whitespace only leaves
    the window exactly as it was: nothing is appended to the history, the
    display is untouched, no placeholder is inserted and no worker is
    created. *)
Theorem on_send_blank_noop {Q : QTextEdit} (w : window) :
  forallb isspace (input_box w) = true -> on_send w = w.
Proof.
  intros H. unfold on_send. rewrite (strip_blank _ H). reflexivity.
Qed.

Lemma on_send_blank_noop_witness :
  on_send (Sample.blank_window (u "  ")) = Sample.blank_window (u "  ").
Proof.
  apply (on_send_blank_noop (Sample.blank_window (u "  "))). reflexivity.
Defined.

(** Trimmed texts *)

Lemma lstrip_split s :
  exists w, s = w ++ lstrip s /\ Forall (fun c => isspace c = true) w.
Proof.
  induction s as [|c t [w [E F]]]; [exists []; split; [reflexivity|constructor]|].
  simpl. destruct (isspace c) eqn:Ec.
  - exists (c :: w). split; [simpl; now rewrite <- E|now constructor].
  - exists []. split; [reflexivity|constructor].
Qed.

Lemma lstrip_head s : head_tidy (lstrip s).
Proof.
  induction s as [|c t IH]; [exact I|].
  simpl. destruct (isspace c) eqn:Ec; [exact IH|]. simpl. exact Ec.
Qed.

Lemma lstrip_tidy s : head_tidy s -> lstrip s = s.
Proof. destruct s as [|c t]; [reflexivity|]. simpl. intros H. now rewrite H. Qed.

Lemma tidy_strip s : tidy s -> strip s = s.
Proof.
  intros [H1 H2]. unfold strip, rstrip. rewrite (lstrip_tidy s H1).
  rewrite (lstrip_tidy (rev s) H2). apply rev_involutive.
Qed.

Lemma strip_tidy s : tidy (strip s).
Proof.
  unfold strip, rstrip, tidy.
  set (x := lstrip s). set (y := lstrip (rev x)).
  split.
  - destruct (lstrip_split (rev x)) as [w [E F]]. fold y in E.
    apply (f_equal (@rev _)) in E. rewrite rev_involutive, rev_app_distr in E.
    pose proof (lstrip_head s) as Hx. fold x in Hx.
    destruct (rev y) as [|c r]; [exact I|].
    rewrite E in Hx. exact Hx.
  - rewrite rev_involutive. apply lstrip_head.
Qed.

Lemma tidy_app a b : a <> [] -> b <> [] -> tidy a -> tidy b -> tidy (a ++ b).
Proof.
  intros Ha Hb [A1 A2] [B1 B2]. split.
  - destruct a; [congruence|exact A1].
  - rewrite rev_app_distr. destruct (rev b) eqn:E; [|exact B2].
    apply (f_equal (@rev _)) in E. rewrite rev_involutive in E. simpl in E.
    congruence.
Qed.

Lemma tidy_concat l :
  Forall (fun s => s <> [] /\ tidy s) l -> tidy (concat l).
Proof.
  induction 1 as [|s l [Hs Ht] Hl IH]; [split; exact I|].
  simpl. destruct (concat l) eqn:E.
  - now rewrite app_nil_r.
  - apply tidy_app; auto. discriminate.
Qed.

Lemma collapse_loop_tidy_bounded n :
  forall parts seq,
    (length parts <= n)%nat ->
    Forall (fun s => s <> [] /\ tidy s) seq ->
    Forall (fun s => s <> [] /\ tidy s) (collapse_loop parts seq).
Proof.
  induction n as [|n IH]; intros parts seq Hn Hs.
  - destruct parts; [exact Hs|simpl in Hn; lia].
  - destruct parts as [|sent more]; [exact Hs|].
    simpl.
    set (full := strip (strip sent ++ match more with d :: _ => d | [] => [] end)).
    assert (Hs' : Forall (fun s => s <> [] /\ tidy s)
                    match full with
                    | [] => seq
                    | _ :: _ =>
                        match rev seq with
                        | [] => seq ++ [full]
                        | prev :: _ =>
                            if str_eqb prev full then seq else seq ++ [full]
                        end
                    end).
    { assert (Hf : full <> [] ->
                   Forall (fun s => s <> [] /\ tidy s) (seq ++ [full])).
      { intros Hne. apply Forall_app. split; [exact Hs|].
        constructor; [|constructor]. split; [exact Hne|apply strip_tidy]. }
      destruct full as [|c f] eqn:Ef; [exact Hs|].
      destruct (rev seq) as [|prev ?]; [apply Hf; discriminate|].
      destruct (str_eqb prev (c :: f)); [exact Hs|apply Hf; discriminate]. }
    destruct more as [|d parts']; [exact Hs'|].
    apply IH; [simpl in Hn; lia|exact Hs'].
Qed.

Lemma collapse_loop_tidy parts seq :
  Forall (fun s => s <> [] /\ tidy s) seq ->
  Forall (fun s => s <> [] /\ tidy s) (collapse_loop parts seq).
Proof. apply (collapse_loop_tidy_bounded (length parts)). lia. Qed.

(** The text kept at the end of a stream has no blank at either end. *)
Lemma collapse_tidy text : tidy (_collapse_consecutive_sentences text).
Proof.
  unfold _collapse_consecutive_sentences. destruct text as [|c t]; [split; exact I|].
  apply tidy_concat, collapse_loop_tidy. constructor.
Qed.

Lemma final_text_strip buffer : strip (final_text buffer) = final_text buffer.
Proof. apply tidy_strip, collapse_tidy. Qed.

Lemma last_assistant_in_find l :
  last_assistant_in l
  = option_map strip
      (option_map content
         (find (fun msg => match role msg with assistant => true | _ => false end) l)).
Proof.
  induction l as [|msg l IH]; [reflexivity|].
  simpl. destruct (role msg); auto.
Qed.

(** What the end of a stream does to the history. *)
Lemma finish_history_spec h buffer :
  let final := final_text buffer in
  finish_history h final = h
  \/ (finish_history h final = h ++ [Message assistant final]
      /\ final <> []
      /\ most_recent_assistant h <> Some final).
Proof.
  intros final. unfold finish_history.
  destruct final as [|c f] eqn:Ef; [now left|]. simpl nonempty. cbv iota.
  rewrite last_assistant_in_find. fold (most_recent_assistant h).
  destruct (most_recent_assistant h) as [prev|] eqn:Em; simpl.
  - destruct (str_eqb (strip prev) (c :: f)) eqn:E; [now left|].
    right. split; [reflexivity|]. split; [discriminate|].
    intro H. injection H as H. subst prev.
    apply str_eqb_neq in E. apply E.
    rewrite <- Ef. apply final_text_strip.
  - right. split; [reflexivity|]. split; discriminate.
Qed.

Section Session.

Context {Q : QTextEdit}.

Lemma on_stream_finish_history w :
  history (on_stream_finish w)
  = finish_history (history w) (final_text (current_ai_buffer w)).
Proof.
  unfold on_stream_finish.
  destruct (subn block_pattern (fun _ => []) 1 (toHtml (chat_display w)))
    as [new_html n].
  reflexivity.
Qed.

Lemma on_stream_finish_buffer w :
  current_ai_buffer (on_stream_finish w) = current_ai_buffer w.
Proof.
  unfold on_stream_finish.
  destruct (subn block_pattern (fun _ => []) 1 (toHtml (chat_display w)))
    as [new_html n].
  reflexivity.
Qed.

Lemma handle_quiet w x : quiet x = true -> history (handle w x) = history w.
Proof.
  destruct x as [[chunk| |msg|value]|]; simpl; intros H;
    try discriminate; try reflexivity.
  unfold on_stop. destruct (worker w); reflexivity.
Qed.

Lemma run_trace_quiet trace :
  forall w, forallb quiet trace = true ->
            history (run_trace w trace) = history w.
Proof.
  induction trace as [|x trace IH]; intros w H; [reflexivity|].
  simpl in H. apply andb_true_iff in H. destruct H as [Hx Ht].
  unfold run_trace. simpl. fold (run_trace (handle w x) trace).
  rewrite (IH _ Ht). now apply handle_quiet.
Qed.

Lemma no_signal_quiet trace : signals_of trace = [] -> forallb quiet trace = true.
Proof.
  induction trace as [|[e|] trace IH]; simpl; intros H;
    [reflexivity|discriminate|auto].
Qed.

(** A trace with the signals of one run is a quiet part, the finish signal,
    and clicks. *)
Lemma trace_shape trace evs :
  signals_of trace = evs ++ [finish_signal] ->
  forallb (fun e => negb (is_finish e)) evs = true ->
  exists t1 t2,
    trace = t1 ++ Signal finish_signal :: t2
    /\ forallb quiet t1 = true /\ forallb quiet t2 = true
    /\ signals_of t1 = evs.
Proof.
  revert evs. induction trace as [|x trace IH]; intros evs E F.
  - destruct evs; discriminate.
  - destruct x as [e|].
    + simpl in E. destruct evs as [|e' evs].
      * simpl in E. injection E as Ee Et. subst e.
        exists [], trace. split; [reflexivity|]. split; [reflexivity|].
        split; [|reflexivity]. now apply no_signal_quiet.
      * simpl in E. injection E as Ee Et. subst e'.
        simpl in F. apply andb_true_iff in F. destruct F as [Fe Fr].
        destruct (IH evs Et Fr) as [t1 [t2 [E1 [Q1 [Q2 S1]]]]].
        exists (Signal e :: t1), t2. subst trace.
        split; [reflexivity|]. split; [|split; [exact Q2|simpl; now rewrite S1]].
        simpl. rewrite Q1. destruct e; try reflexivity. discriminate.
    + simpl in E. destruct (IH evs E F) as [t1 [t2 [E1 [Q1 [Q2 S1]]]]].
      exists (StopClicked :: t1), t2. subst trace.
      split; [reflexivity|]. split; [exact Q1|]. split; [exact Q2|exact S1].
Qed.

Lemma run_trace_app w a b : run_trace w (a ++ b) = run_trace (run_trace w a) b.
Proof. unfold run_trace. apply fold_left_app. Qed.

Lemma handle_no_update_buffer w x :
  match x with Signal (update_signal _) | Signal finish_signal => false | _ => true end
  = true ->
  current_ai_buffer (handle w x) = current_ai_buffer w.
Proof.
  destruct x as [[chunk| |msg|value]|]; simpl; intros H;
    try discriminate; try reflexivity.
  unfold on_stop. destruct (worker w); reflexivity.
Qed.

Lemma run_trace_no_update trace :
  forall w,
    forallb quiet trace = true ->
    forallb (fun e => negb (is_update e)) (signals_of trace) = true ->
    current_ai_buffer (run_trace w trace) = current_ai_buffer w.
Proof.
  induction trace as [|x trace IH]; intros w Hq Hu; [reflexivity|].
  simpl in Hq. apply andb_true_iff in Hq. destruct Hq as [Hx Ht].
  unfold run_trace. simpl. fold (run_trace (handle w x) trace).
  destruct x as [e|].
  - simpl in Hu. apply andb_true_iff in Hu. destruct Hu as [He Hu].
    rewrite (IH _ Ht Hu). apply handle_no_update_buffer.
    destruct e; try reflexivity; discriminate.
  - rewrite (IH _ Ht Hu). now apply handle_no_update_buffer.
Qed.

Context {L : Library}.

Lemma for_lines_stopped items :
  forall wk, _stop wk = true -> fst (fst (for_lines wk items)) = [].
Proof.
  induction items as [|it items IH]; intros wk H; [reflexivity|].
  destruct it as [raw| |e]; simpl.
  - unfold loop_body. rewrite H. reflexivity.
  - apply IH. reflexivity.
  - reflexivity.
Qed.

Lemma run_stopped_no_update wk resp more :
  iter_lines resp = StopCalled :: more ->
  forallb (fun e => negb (is_update e)) (fst (run wk (PostReturns resp))) = true.
Proof.
  intros H. unfold run. destruct (negb (status_code resp =? 200)%Z); [reflexivity|].
  rewrite H. simpl.
  pose proof (for_lines_stopped more (stop wk) eq_refl) as Hs.
  destruct (for_lines (stop wk) more) as [[evs w'] exn]. simpl in Hs. subst evs.
  destruct exn; reflexivity.
Qed.

(** C5: the end of a stream appends at most one assistant turn, and only a
    final text that is not empty and differs from the content of the most
    recent assistant turn.  First for one call of [on_stream_finish]; then for
    a whole session, in which the signals of one run of the worker reach the
    window in order, clicks on the stop button among them; last for a session
    stopped before its first line, which appends nothing. *)
Theorem assistant_turn_appended_at_most_once :
  (forall w : window,
      let final := final_text (current_ai_buffer w) in
      history (on_stream_finish w) = history w
      \/ (history (on_stream_finish w) = history w ++ [Message assistant final]
          /\ final <> []
          /\ most_recent_assistant (history w) <> Some final))
  /\ (forall (w : window) (wk : StreamWorker.worker) (post : post_result)
             (trace : list ui_event),
        signals_of trace = fst (run wk post) ->
        history (run_trace w trace) = history w
        \/ exists final,
            history (run_trace w trace) = history w ++ [Message assistant final]
            /\ final <> []
            /\ most_recent_assistant (history w) <> Some final)
  /\ (forall (w : window) (wk : StreamWorker.worker) (resp : response)
             (more : list stream_item) (trace : list ui_event),
        current_ai_buffer w = [] ->
        iter_lines resp = StopCalled :: more ->
        signals_of trace = fst (run wk (PostReturns resp)) ->
        history (run_trace w trace) = history w).
Proof.
  assert (Hone : forall w : window,
      let final := final_text (current_ai_buffer w) in
      history (on_stream_finish w) = history w
      \/ (history (on_stream_finish w) = history w ++ [Message assistant final]
          /\ final <> []
          /\ most_recent_assistant (history w) <> Some final)).
  { intros w. cbv zeta. rewrite on_stream_finish_history.
    apply finish_history_spec. }
  assert (Hshape : forall (w : window) wk post trace,
      signals_of trace = fst (run wk post) ->
      exists t1 t2,
        forallb quiet t1 = true /\ forallb quiet t2 = true
        /\ signals_of t1 ++ [finish_signal] = fst (run wk post)
        /\ run_trace w trace
           = run_trace (on_stream_finish (run_trace w t1)) t2).
  { intros w wk post trace E.
    destruct (run_signals_shape wk post) as [evs [Er Hn]].
    rewrite Er in E.
    destruct (trace_shape trace evs E Hn) as [t1 [t2 [Et [Q1 [Q2 S1]]]]].
    exists t1, t2. split; [exact Q1|]. split; [exact Q2|].
    split; [now rewrite S1, Er|].
    subst trace. rewrite run_trace_app. reflexivity. }
  split; [exact Hone|]. split.
  - intros w wk post trace E.
    destruct (Hshape w wk post trace E) as [t1 [t2 [Q1 [Q2 [_ Et]]]]].
    rewrite Et, (run_trace_quiet t2 _ Q2).
    pose proof (Hone (run_trace w t1)) as H. cbv zeta in H.
    rewrite (run_trace_quiet t1 w Q1) in H.
    destruct H as [H|H]; [now left|right].
    exists (final_text (current_ai_buffer (run_trace w t1))). exact H.
  - intros w wk resp more trace Hb Hi E.
    destruct (Hshape w wk (PostReturns resp) trace E)
      as [t1 [t2 [Q1 [Q2 [Es Et]]]]].
    rewrite Et, (run_trace_quiet t2 _ Q2), on_stream_finish_history.
    rewrite (run_trace_quiet t1 w Q1).
    pose proof (run_stopped_no_update wk resp more Hi) as Hu.
    rewrite <- Es, forallb_app in Hu. apply andb_true_iff in Hu.
    destruct Hu as [Hu _].
    rewrite (run_trace_no_update t1 w Q1 Hu), Hb. reflexivity.
Qed.

End Session.

Lemma assistant_turn_appended_at_most_once_witness :
  (history (run_trace Sample.hello_window
              (List.map Signal (fst (run (L := Sample.library) Sample.hello_worker Sample.hello_reply))))
   = history Sample.hello_window
   \/ exists final,
       history (run_trace Sample.hello_window
                  (List.map Signal (fst (run (L := Sample.library) Sample.hello_worker Sample.hello_reply))))
       = history Sample.hello_window ++ [Message assistant final]
       /\ final <> []
       /\ most_recent_assistant (history Sample.hello_window) <> Some final)
  /\ history (run_trace Sample.hello_window [StopClicked; Signal finish_signal])
     = history Sample.hello_window.
Proof.
  destruct (assistant_turn_appended_at_most_once
              (Q := Sample.plain_display) (L := Sample.library))
    as [_ [H2 H3]].
  split.
  - apply (H2 Sample.hello_window Sample.hello_worker Sample.hello_reply). vm_compute. reflexivity.
  - apply (H3 Sample.hello_window Sample.hello_worker Sample.hello_cancelled
              [Line (Sample.frame "data: {'choices':[{'delta':{'content':'Hi'}}]}")]).
    + reflexivity.
    + reflexivity.
    + vm_compute. reflexivity.
Defined.

(** The scenario of the specification: the history ends with the user's
    turn and the assistant's reply. *)
Example hello_session :
  history (run_trace Sample.hello_window
             (List.map Signal (fst (run (L := Sample.library) Sample.hello_worker Sample.hello_reply))))
  = [Message user (u "Hello"); Message assistant (u "Hi there")].
Proof. vm_compute. reflexivity. Qed.

End WindowFacts.

Import WindowFacts.

(** ** Trimming *)

Module TrimFacts.


Lemma lstrip_blanks w s : Forall (fun c => isspace c = true) w -> lstrip (w ++ s) = lstrip s.
Proof.
  induction 1 as [|c w Hc Hw IH]; [reflexivity|]. simpl. now rewrite Hc.
Qed.

(** Blanks are only removed from the head as far as the first character of
    another kind. *)
Lemma lstrip_app a b :
  b <> [] -> head_tidy b -> lstrip (a ++ b) = lstrip a ++ b.
Proof.
  intros Hb Ht. induction a as [|c a IH]; simpl.
  - now apply lstrip_tidy.
  - destruct (isspace c); [exact IH|reflexivity].
Qed.

Lemma rstrip_app a b :
  a <> [] -> head_tidy (rev a) -> rstrip (a ++ b) = a ++ rstrip b.
Proof.
  intros Ha Ht. unfold rstrip. rewrite rev_app_distr, lstrip_app.
  - now rewrite rev_app_distr, rev_involutive.
  - intro E. apply (f_equal (@rev _)) in E. rewrite rev_involutive in E.
    simpl in E. congruence.
  - exact Ht.
Qed.

Lemma rstrip_blanks s w : Forall (fun c => isspace c = true) w -> rstrip (s ++ w) = rstrip s.
Proof.
  intros H. unfold rstrip. rewrite rev_app_distr, lstrip_blanks; [reflexivity|].
  apply Forall_rev. exact H.
Qed.

Lemma lstrip_lstrip s : lstrip (lstrip s) = lstrip s.
Proof. apply lstrip_tidy, lstrip_head. Qed.

Lemma rstrip_rstrip s : rstrip (rstrip s) = rstrip s.
Proof. unfold rstrip. now rewrite rev_involutive, lstrip_lstrip. Qed.

Lemma rstrip_cons c s : isspace c = false -> rstrip (c :: s) = c :: rstrip s.
Proof.
  intros H. apply (rstrip_app [c] s); [discriminate|exact H].
Qed.

Lemma lstrip_app_l a b : lstrip a <> [] -> lstrip (a ++ b) = lstrip a ++ b.
Proof.
  induction a as [|c a IH]; simpl; [congruence|].
  destruct (isspace c); [exact IH|reflexivity].
Qed.

(** Trimming one end and then the other, in either order. *)
Lemma lstrip_rstrip s : lstrip (rstrip s) = rstrip (lstrip s).
Proof.
  induction s as [|c t IH]; [reflexivity|].
  simpl lstrip. destruct (isspace c) eqn:Ec.
  - rewrite <- IH. unfold rstrip. simpl rev.
    destruct (lstrip (rev t)) as [|x r] eqn:El.
    + destruct (lstrip_split (rev t)) as [w [E F]].
      rewrite El, app_nil_r in E. rewrite E, (lstrip_blank (w ++ [c])); [reflexivity|].
      apply forallb_forall. intros y Hy. apply in_app_or in Hy.
      rewrite Forall_forall in F. destruct Hy as [Hy|[Hy|[]]]; [auto|now subst].
    + rewrite lstrip_app_l by (rewrite El; discriminate).
      rewrite El, rev_app_distr. simpl. now rewrite Ec.
  - rewrite rstrip_cons by exact Ec. simpl. now rewrite Ec.
Qed.

Lemma strip_rstrip s : strip (rstrip s) = strip s.
Proof. unfold strip. now rewrite lstrip_rstrip, rstrip_rstrip. Qed.

Lemma strip_strip s : strip (strip s) = strip s.
Proof. apply tidy_strip, strip_tidy. Qed.

Lemma startswith_app p s : startswith p (p ++ s) = true.
Proof.
  induction p as [|c p IH]; [reflexivity|]. simpl. now rewrite N.eqb_refl.
Qed.

End TrimFacts.

Import TrimFacts.

(** ** The stream, line by line *)

Module StreamFacts.

Lemma deltas_from_weaken b evs :
  deltas_from false evs = true -> deltas_from b evs = true.
Proof.
  destruct evs as [|[s| |msg|v] t]; simpl; intros H;
    [reflexivity|exact H|discriminate|discriminate|discriminate].
Qed.

Lemma deltas_from_app a c :
  forall b,
    deltas_from b a = true -> deltas c = true -> deltas_from b (a ++ c) = true.
Proof.
  induction a as [|e a IH]; intros b Ha Hc.
  - now apply deltas_from_weaken.
  - destruct e as [s| |msg|v]; simpl in *; try discriminate.
    + now apply IH.
    + apply andb_true_iff in Ha. destruct Ha as [Hb Ha]. rewrite Hb.
      now apply IH.
Qed.

Lemma deltas_app a c :
  deltas a = true -> deltas c = true -> deltas (a ++ c) = true.
Proof. apply deltas_from_app. Qed.

Lemma counted_app a c :
  match c with progress_signal _ :: _ => False | _ => True end ->
  counted (a ++ c) = (counted a + counted c)%Z.
Proof.
  intros Hc. induction a as [|e a IH]; [reflexivity|].
  destruct e as [s| |msg|v]; simpl; rewrite IH; try reflexivity.
  destruct a as [|e' a]; [|simpl; lia].
  simpl. destruct c as [|[s'| |msg'|v'] c]; try reflexivity. contradiction.
Qed.

Lemma deltas_head evs :
  deltas evs = true ->
  match evs with progress_signal _ :: _ => False | _ => True end.
Proof. destruct evs as [|[s| |msg|v] t]; simpl; intros H; auto; discriminate. Qed.

Section Facts.

Context {L : Library}.

(** What one turn of the loop emits and does to the worker. *)
Lemma loop_body_shape w raw :
  match loop_body w raw with
  | (evs, Next w') =>
      deltas evs = true
      /\ token_count w' = (token_count w + counted evs)%Z
      /\ messages w' = messages w /\ model w' = model w /\ _stop w' = _stop w
  | (evs, _) => evs = []
  end.
Proof.
  unfold loop_body.
  destruct (_stop w) eqn:Es; [reflexivity|].
  destruct raw as [|b raw]; [simpl; rewrite Z.add_0_r; auto|].
  destruct (str_eqb _ _); [reflexivity|].
  destruct (json_loads _) as [chunk|]; [|simpl; rewrite Z.add_0_r; auto].
  destruct (truthy _); [|simpl; rewrite Z.add_0_r; auto].
  match goal with |- context [match ?x with JStr _ => _ | _ => _ end] =>
    destruct x end; try reflexivity.
  simpl. rewrite Z.add_0_r. auto.
Qed.

Lemma for_lines_shape items :
  forall w,
    deltas (fst (fst (for_lines w items))) = true
    /\ token_count (snd (fst (for_lines w items)))
       = (token_count w + counted (fst (fst (for_lines w items))))%Z
    /\ messages (snd (fst (for_lines w items))) = messages w
    /\ model (snd (fst (for_lines w items))) = model w.
Proof.
  induction items as [|it items IH]; intros w.
  - simpl. rewrite Z.add_0_r. auto.
  - destruct it as [raw| |e].
    + simpl. pose proof (loop_body_shape w raw) as Hb.
      destruct (loop_body w raw) as [evs [w'| |e]].
      * destruct Hb as [Hd [Hc [Hm [Hn _]]]].
        specialize (IH w'). destruct (for_lines w' items) as [[evs' w''] exn].
        simpl in *. destruct IH as [Hd' [Hc' [Hm' Hn']]].
        split; [now apply deltas_app|].
        rewrite counted_app by now apply deltas_head.
        split; [lia|]. split; congruence.
      * subst evs. simpl. rewrite Z.add_0_r. auto.
      * subst evs. simpl. rewrite Z.add_0_r. auto.
    + simpl. destruct (IH (stop w)) as [Hd [Hc [Hm Hn]]]. auto.
    + simpl. rewrite Z.add_0_r. auto.
Qed.

(** X1: the signals of a run come in a fixed order: first those of the
    deltas, in which every progress signal directly follows an update signal;
    then at most one error signal; then the finish signal.  So an error is
    reported once at most, nothing but the finish signal follows it, and no
    progress is reported without a delta. *)
Theorem run_signal_order (w : StreamWorker.worker) (post : post_result) :
  exists evs tail,
    fst (run w post) = evs ++ tail ++ [finish_signal]
    /\ deltas evs = true
    /\ (tail = [] \/ exists msg, tail = [error_signal msg]).
Proof.
  unfold run. destruct post as [e|resp].
  - exists [], [error_signal (u "请求失败: " ++ e)].
    split; [reflexivity|]. split; [reflexivity|]. right. eauto.
  - destruct (negb (status_code resp =? 200)%Z).
    + eexists [], [_]. split; [reflexivity|]. split; [reflexivity|]. right. eauto.
    + destruct (for_lines_shape (iter_lines resp) w) as [Hd _].
      destruct (for_lines w (iter_lines resp)) as [[evs w'] exn].
      simpl in *. exists evs. destruct exn as [e|].
      * eexists [_]. split; [reflexivity|]. split; [exact Hd|]. right. eauto.
      * exists []. split; [reflexivity|]. split; [exact Hd|]. now left.
Qed.

(** X2: at the end of a run the counter of the worker has grown by the number
    of characters of the deltas that were reported with a progress signal,
    that is, of the deltas read from JSON frames; the messages and the model
    of the worker are as they were. *)
Theorem token_count_accounts (w : StreamWorker.worker) (post : post_result) :
  token_count (snd (run w post))
  = (token_count w + counted (fst (run w post)))%Z
  /\ messages (snd (run w post)) = messages w
  /\ model (snd (run w post)) = model w.
Proof.
  unfold run. destruct post as [e|resp].
  - simpl. rewrite Z.add_0_r. auto.
  - destruct (negb (status_code resp =? 200)%Z).
    + simpl. rewrite Z.add_0_r. auto.
    + destruct (for_lines_shape (iter_lines resp) w) as [_ [Hc [Hm Hn]]].
      destruct (for_lines w (iter_lines resp)) as [[evs w'] exn].
      simpl in *. split; [|auto].
      rewrite counted_app by (destruct exn; exact I).
      rewrite Hc. destruct exn; simpl; lia.
Qed.

Lemma for_lines_done raw l2 :
  raw <> [] -> payload (decode_line raw) = u "[DONE]" ->
  forall l1 w, for_lines w (l1 ++ Line raw :: l2) = for_lines w l1.
Proof.
  intros Hr Hp. induction l1 as [|it l1 IH]; intros w.
  - simpl. unfold loop_body. destruct (_stop w); [reflexivity|].
    destruct raw as [|b raw]; [congruence|]. rewrite Hp. reflexivity.
  - destruct it as [raw'| |e]; simpl.
    + destruct (loop_body w raw') as [evs [w'| |e]]; try reflexivity.
      now rewrite IH.
    + apply IH.
    + reflexivity.
Qed.

(** X3: the end sentinel ends the stream.  Whatever follows the line that
    carries it (more frames, a call of [stop], a failure of the iterator) has
    no effect on the signals of the run nor on the worker. *)
Theorem done_ends_stream (w : StreamWorker.worker) (t : option str)
    (l1 l2 : list stream_item) (raw : bytes) :
  raw <> [] ->
  payload (decode_line raw) = u "[DONE]" ->
  run w (PostReturns (Response 200 t (l1 ++ Line raw :: l2)))
  = run w (PostReturns (Response 200 t l1)).
Proof.
  intros Hr Hp. unfold run. simpl. now rewrite for_lines_done.
Qed.

(** X4: a line is read without regard to the blanks around it, and the
    prefix [data:] is dropped with the blanks that follow it: the payload of
    a line that decodes to blanks, [data:] and a rest is the rest, trimmed. *)
Theorem payload_drops_prefix (raw : bytes) (w rest : str) :
  decode_utf8 raw = Some (w ++ u "data:" ++ rest) ->
  Forall (fun c => isspace c = true) w ->
  payload (decode_line raw) = strip rest.
Proof.
  intros Hd Hw. unfold decode_line. rewrite Hd.
  assert (E : strip (w ++ u "data:" ++ rest) = u "data:" ++ rstrip rest).
  { unfold strip. rewrite lstrip_blanks by exact Hw.
    change (lstrip (u "data:" ++ rest)) with (u "data:" ++ rest).
    apply rstrip_app; [discriminate|reflexivity]. }
  rewrite E. unfold payload. rewrite startswith_app.
  change (skipn 5 (u "data:" ++ rstrip rest)) with (rstrip rest).
  apply strip_rstrip.
Qed.

Lemma for_lines_stop_called l2 :
  forall l1 w,
    fst (fst (for_lines w (l1 ++ StopCalled :: l2))) = fst (fst (for_lines w l1)).
Proof.
  induction l1 as [|it l1 IH]; intros w.
  - simpl. now apply for_lines_stopped.
  - destruct it as [raw| |e]; simpl.
    + destruct (loop_body w raw) as [evs [w'| |e]]; try reflexivity.
      specialize (IH w').
      destruct (for_lines w' (l1 ++ StopCalled :: l2)) as [[evs1 w1] exn1].
      destruct (for_lines w' l1) as [[evs2 w2] exn2].
      simpl in *. now rewrite IH.
    + apply IH.
    + reflexivity.
Qed.

(** X5: once [stop] has been called, no delta is reported any more: the
    signals of the run are those of the lines read before the call, then at
    most one error signal, then the finish signal. *)
Theorem stop_silences_stream (w : StreamWorker.worker) (t : option str)
    (l1 l2 : list stream_item) :
  exists tail,
    fst (run w (PostReturns (Response 200 t (l1 ++ StopCalled :: l2))))
    = fst (fst (for_lines w l1)) ++ tail ++ [finish_signal]
    /\ (tail = [] \/ exists msg, tail = [error_signal msg]).
Proof.
  unfold run. simpl.
  pose proof (for_lines_stop_called l2 l1 w) as H.
  destruct (for_lines w (l1 ++ StopCalled :: l2)) as [[evs w'] exn].
  simpl in *. rewrite H. destruct exn as [e|].
  - eexists [_]. split; [reflexivity|]. right. eauto.
  - exists []. split; [reflexivity|]. now left.
Qed.

(** X6: a line whose payload is JSON but not an object (a number, a string,
    a list, [null]) is passed over: it produces no signal and the stream goes
    on with the worker unchanged, whereas a payload that is not JSON at all
    is emitted as a delta. *)
Theorem non_object_frame_skipped (w : StreamWorker.worker) (raw : bytes)
    (chunk : json) :
  _stop w = false ->
  raw <> [] ->
  payload (decode_line raw) <> u "[DONE]" ->
  json_loads (payload (decode_line raw)) = Some chunk ->
  is_object chunk = false ->
  loop_body w raw = ([], Next w).
Proof.
  intros Hs Hr Hd Hj Ho. unfold loop_body. rewrite Hs.
  destruct raw as [|b raw]; [congruence|].
  apply str_eqb_neq in Hd. rewrite Hd, Hj.
  destruct chunk; try discriminate; reflexivity.
Qed.

(** X7: the frame of a streamed completion is reported and counted.  When
    the payload is a JSON object whose first choice has a [delta] with a
    non-empty string as [content], the turn emits that string as a delta,
    adds its length to the counter and reports the progress for the new
    count, whatever else the frame holds, a [message] included. *)
Theorem delta_frame_emitted (w : StreamWorker.worker) (raw : bytes)
    (d c p : list (str * json)) (more : list json) (s : str) :
  _stop w = false ->
  raw <> [] ->
  payload (decode_line raw) <> u "[DONE]" ->
  json_loads (payload (decode_line raw)) = Some (JObj d) ->
  dict_get (u "choices") d = Some (JArr (JObj c :: more)) ->
  dict_get (u "delta") c = Some (JObj p) ->
  dict_get (u "content") p = Some (JStr s) ->
  s <> [] ->
  loop_body w raw
  = ([update_signal s;
      progress_signal (progress_of (token_count w + Z.of_nat (length s)))],
     Next (Worker (messages w) (model w) false
                  (token_count w + Z.of_nat (length s)))).
Proof.
  intros Hs Hr Hd Hj Hc Hdl Hp Hne. unfold loop_body. rewrite Hs.
  destruct raw as [|b raw]; [congruence|].
  apply str_eqb_neq in Hd. rewrite Hd, Hj.
  assert (E : extract (JObj d) (u "delta") = JStr s).
  { unfold extract, py_get, py_index0, bind. now rewrite Hc, Hdl, Hp. }
  rewrite E. destruct s as [|x s]; [congruence|]. reflexivity.
Qed.

(** X8: a complete answer is taken where no delta is.  When the first choice
    of the frame has no [delta], or one without [content] or with an empty
    one, but has a [message] with a non-empty string as [content], that
    string is emitted and counted as a delta would be. *)
Theorem message_frame_emitted (w : StreamWorker.worker) (raw : bytes)
    (d c p : list (str * json)) (more : list json) (s : str) :
  _stop w = false ->
  raw <> [] ->
  payload (decode_line raw) <> u "[DONE]" ->
  json_loads (payload (decode_line raw)) = Some (JObj d) ->
  dict_get (u "choices") d = Some (JArr (JObj c :: more)) ->
  (dict_get (u "delta") c = None
   \/ exists q, dict_get (u "delta") c = Some (JObj q)
                /\ (dict_get (u "content") q = None
                    \/ dict_get (u "content") q = Some (JStr []))) ->
  dict_get (u "message") c = Some (JObj p) ->
  dict_get (u "content") p = Some (JStr s) ->
  s <> [] ->
  loop_body w raw
  = ([update_signal s;
      progress_signal (progress_of (token_count w + Z.of_nat (length s)))],
     Next (Worker (messages w) (model w) false
                  (token_count w + Z.of_nat (length s)))).
Proof.
  intros Hs Hr Hd Hj Hc Hdl Hm Hp Hne. unfold loop_body. rewrite Hs.
  destruct raw as [|b raw]; [congruence|].
  apply str_eqb_neq in Hd. rewrite Hd, Hj.
  assert (E1 : truthy (extract (JObj d) (u "delta")) = false).
  { unfold extract, py_get, py_index0, bind. rewrite Hc.
    destruct Hdl as [Hdl|[q [Hdl [Hq|Hq]]]]; rewrite Hdl; try rewrite Hq;
      reflexivity. }
  assert (E2 : extract (JObj d) (u "message") = JStr s).
  { unfold extract, py_get, py_index0, bind. now rewrite Hc, Hm, Hp. }
  rewrite E1, E2. destruct s as [|x s]; [congruence|]. reflexivity.
Qed.

(** X9: a content that is not a string aborts the stream.  When the first
    choice of a frame has a [delta] whose [content] is a value other than a
    string that counts as true (a number other than zero, a non-empty list or
    object, [true]), the signal refuses it: the run reports a stream error
    with the text of that refusal and finishes, no later line being read and
    the counter left as it was. *)
Theorem non_string_content_aborts (w : StreamWorker.worker) (raw : bytes)
    (d c p : list (str * json)) (more : list json) (v : json)
    (t : option str) (rest : list stream_item) :
  _stop w = false ->
  raw <> [] ->
  payload (decode_line raw) <> u "[DONE]" ->
  json_loads (payload (decode_line raw)) = Some (JObj d) ->
  dict_get (u "choices") d = Some (JArr (JObj c :: more)) ->
  dict_get (u "delta") c = Some (JObj p) ->
  dict_get (u "content") p = Some v ->
  truthy v = true ->
  (forall s, v <> JStr s) ->
  run w (PostReturns (Response 200 t (Line raw :: rest)))
  = ([error_signal (u "流处理出错: " ++ emit_type_error v); finish_signal], w).
Proof.
  intros Hs Hr Hd Hj Hc Hdl Hp Ht Hv.
  assert (Hb : loop_body w raw = ([], Raise (emit_type_error v))).
  { unfold loop_body. rewrite Hs.
    destruct raw as [|b raw]; [congruence|].
    apply str_eqb_neq in Hd. rewrite Hd, Hj.
    assert (E : extract (JObj d) (u "delta") = v).
    { unfold extract, py_get, py_index0, bind. now rewrite Hc, Hdl, Hp. }
    rewrite E. cbv zeta. rewrite Ht. cbv iota. rewrite Ht.
    destruct v as [|b'|q|x|s|l|o]; try reflexivity.
    now destruct (Hv s). }
  unfold run. simpl. now rewrite Hb.
Qed.

End Facts.

Lemma non_string_content_aborts_witness :
  run (L := Sample.library) (init [] DEFAULT_MODEL)
    (PostReturns
       (Response 200 None
          (Line (Sample.frame "data: {'choices':[{'delta':{'content':[1]}}]}")
             :: [Line (Sample.frame "data: {'choices':[{'delta':{'content':'Hi'}}]}")])))
  = ([error_signal
        (u "流处理出错: " ++ @emit_type_error Sample.library (JArr [JNum 1]));
      finish_signal],
     init [] DEFAULT_MODEL).
Proof.
  apply (non_string_content_aborts (L := Sample.library) (init [] DEFAULT_MODEL) _
           [(u "choices",
             JArr [JObj [(u "delta", JObj [(u "content", JArr [JNum 1])])]])]
           [(u "delta", JObj [(u "content", JArr [JNum 1])])]
           [(u "content", JArr [JNum 1])] [] (JArr [JNum 1]));
    solve [reflexivity | discriminate].
Defined.

Lemma delta_frame_emitted_witness :
  loop_body (L := Sample.library) (init [] DEFAULT_MODEL)
    (Sample.frame
       "data: {'choices':[{'delta':{'content':'Hi'},'message':{'content':'no'}}]}")
  = ([update_signal (u "Hi"); progress_signal (progress_of (0 + 2))],
     Next (Worker [] DEFAULT_MODEL false (0 + 2))).
Proof.
  apply (delta_frame_emitted (L := Sample.library) (init [] DEFAULT_MODEL) _
           [(u "choices",
             JArr [JObj [(u "delta", JObj [(u "content", JStr (u "Hi"))]);
                         (u "message", JObj [(u "content", JStr (u "no"))])]])]
           [(u "delta", JObj [(u "content", JStr (u "Hi"))]);
            (u "message", JObj [(u "content", JStr (u "no"))])]
           [(u "content", JStr (u "Hi"))] [] (u "Hi"));
    solve [reflexivity | discriminate].
Defined.

Lemma message_frame_emitted_witness :
  loop_body (L := Sample.library) (init [] DEFAULT_MODEL)
    (Sample.frame "{'choices':[{'message':{'content':'Hello'}}]}")
  = ([update_signal (u "Hello"); progress_signal (progress_of (0 + 5))],
     Next (Worker [] DEFAULT_MODEL false (0 + 5))).
Proof.
  apply (message_frame_emitted (L := Sample.library) (init [] DEFAULT_MODEL) _
           [(u "choices",
             JArr [JObj [(u "message", JObj [(u "content", JStr (u "Hello"))])]])]
           [(u "message", JObj [(u "content", JStr (u "Hello"))])]
           [(u "content", JStr (u "Hello"))] [] (u "Hello"));
    solve [reflexivity | discriminate | left; reflexivity].
Defined.

Lemma done_ends_stream_witness :
  run (L := Sample.library) (init [] DEFAULT_MODEL)
      (PostReturns
         (Response 200 None
            ([Line (Sample.frame "data: {'choices':[{'delta':{'content':'Hi'}}]}")]
               ++ Line (Sample.frame "data: [DONE]")
               :: [Line (Sample.frame "data: {'choices':[{'delta':{'content':'!'}}]}");
                   IterRaises (u "reset")])))
  = run (L := Sample.library) (init [] DEFAULT_MODEL)
      (PostReturns
         (Response 200 None
            [Line (Sample.frame "data: {'choices':[{'delta':{'content':'Hi'}}]}")])).
Proof.
  apply (done_ends_stream (L := Sample.library)).
  - discriminate.
  - reflexivity.
Defined.

Lemma payload_drops_prefix_witness :
  payload (decode_line (L := Sample.library) (u "  data:  [DONE] ")) = u "[DONE]".
Proof.
  apply (payload_drops_prefix (L := Sample.library)
           (u "  data:  [DONE] ") (u "  ") (u "  [DONE] ")).
  - reflexivity.
  - repeat constructor.
Defined.

Lemma non_object_frame_skipped_witness :
  loop_body (L := Sample.library) (init [] DEFAULT_MODEL) (Sample.frame "data: 123")
  = ([], Next (init [] DEFAULT_MODEL)).
Proof.
  apply (non_object_frame_skipped (L := Sample.library) _ _ (JNum 123)).
  - reflexivity.
  - discriminate.
  - vm_compute. discriminate.
  - vm_compute. reflexivity.
  - reflexivity.
Defined.

End StreamFacts.

Import StreamFacts.

(** ** Plain text in the formatter *)

Module DisplayFacts.

(** A pattern that demands a character matches only where one is ahead. *)
Lemma demands_ahead c r :
  demands c r -> forall st e, matches r st e -> In c (rest st).
Proof.
  induction r as [|p|a IHa b IHb|a IHa b IHb|g lo hi a IHa|i a IHa|ml|ml|p|p];
    simpl; intros D st e H; try contradiction.
  - destruct H as [x [t [H1 [H2 _]]]]. rewrite H1. left. now apply D.
  - destruct H as [mid [H1 H2]]. destruct D as [D|D].
    + now apply (IHa D st mid).
    + destruct (matches_span _ _ _ H1) as [txt [S _]]. rewrite S.
      apply in_or_app. right. now apply (IHb D mid e).
  - destruct D as [Da Db]. destruct H as [H|H]; eauto.
  - destruct D as [Hlo D]. inversion H as [|? ? mid ? H1 _]; subst; [lia|].
    now apply (IHa D st mid).
  - destruct H as [e' [H _]]. now apply (IHa D st e').
Qed.

Lemma attempt_absent c r adv b s :
  demands c r -> ~ In c s -> attempt r adv b s = None.
Proof.
  intros D H. destruct (attempt r adv b s) as [e|] eqn:E; [|reflexivity].
  exfalso. apply H. apply attempt_sound in E.
  apply (demands_ahead c r D _ _ E).
Qed.

Lemma scan_absent c r cnt s :
  demands c r -> ~ In c s -> scan r cnt s = ([], s).
Proof.
  intros D H. unfold scan. rewrite scan_go_none; [reflexivity|].
  intros p q E. apply (attempt_absent c); [exact D|].
  intro Hin. apply H. rewrite E. apply in_or_app. now right.
Qed.

(** A substitution leaves a text without the character its pattern demands
    as it is. *)
Lemma sub_absent c r t s : demands c r -> ~ In c s -> sub r t s = s.
Proof.
  intros D H. unfold sub, sub_with. now rewrite (scan_absent c r None s D H).
Qed.

Ltac demand :=
  solve
    [ intros x Hx; apply N.eqb_eq in Hx; congruence
    | split; [lia|demand]
    | split; demand
    | left; demand
    | right; demand ].

Lemma code_fence_demands : demands backtick p_code_fence.
Proof. cbv -[N.eqb isspace]. demand. Qed.

Lemma heading_demands : demands hash p_heading.
Proof. cbv -[N.eqb isspace]. demand. Qed.

Lemma quote_demands : demands gt p_quote.
Proof. cbv -[N.eqb isspace]. demand. Qed.

Lemma table_rule_demands : demands dash p_table_rule.
Proof. cbv -[N.eqb isspace]. demand. Qed.

Lemma pipe_demands : demands pipe p_pipe.
Proof. cbv -[N.eqb isspace]. demand. Qed.

Lemma bullet_demands : demands dash p_bullet.
Proof. cbv -[N.eqb isspace]. demand. Qed.

Lemma hdr_mark_demands : demands 64%N p_hdr_mark.
Proof. cbv -[N.eqb isspace]. demand. Qed.

Lemma quote_mark_demands : demands 64%N p_quote_mark.
Proof. cbv -[N.eqb isspace]. demand. Qed.

Lemma bold_demands : demands asterisk p_bold.
Proof. cbv -[N.eqb isspace]. demand. Qed.

Lemma italic_demands : demands asterisk p_italic.
Proof. cbv -[N.eqb isspace]. demand. Qed.

Lemma code_demands : demands backtick p_code.
Proof. cbv -[N.eqb isspace]. demand. Qed.

(** The rule pattern asks for a dash or for an asterisk. *)
Lemma hrule_absent t s :
  ~ In dash s -> ~ In asterisk s -> sub p_hrule t s = s.
Proof.
  intros Hd Ha. apply sub_none. intros p q E.
  destruct (attempt p_hrule false (rev p) q) as [e|] eqn:Ea; [|reflexivity].
  exfalso. apply attempt_sound in Ea.
  change p_hrule
    with (Seq (Bol true)
            (Seq (star ws)
               (Seq (Grp 1 (Alt (Rep true 3 None (chr dash))
                                (Rep true 3 None (chr asterisk))))
                    (Seq (star ws) (Eol true))))) in Ea.
  destruct Ea as [m1 [[_ E1] [m2 [H2 [m3 [[e' [H3 _]] _]]]]]]. subst m1.
  destruct (matches_span _ _ _ H2) as [w [Sw _]]. simpl in Sw.
  assert (Hin : forall c, In c (rest m2) -> In c s).
  { intros c Hc. rewrite E, Sw. apply in_or_app. right. apply in_or_app. now right. }
  destruct H3 as [H3|H3].
  - apply Hd, Hin.
    assert (D : demands dash (Rep true 3 None (chr dash)))
      by (cbv -[N.eqb]; demand).
    apply (demands_ahead _ _ D _ _ H3).
  - apply Ha, Hin.
    assert (D : demands asterisk (Rep true 3 None (chr asterisk)))
      by (cbv -[N.eqb]; demand).
    apply (demands_ahead _ _ D _ _ H3).
Qed.

Lemma hr_marker_absent s :
  ~ In 64%N s -> replace (u "@@HR@@") hr_tag s = s.
Proof.
  intros H. apply replace_absent. intros p q E.
  destruct q as [|x t]; [reflexivity|].
  destruct (startswith (u "@@HR@@") (x :: t)) eqn:Es; [|reflexivity].
  exfalso. apply H. rewrite E. apply in_or_app. right.
  apply startswith_split in Es. rewrite Es. now left.
Qed.

Lemma plain_absent text c :
  forallb plain text = true -> plain c = false -> c <> newline ->
  ~ In c (replace crlf [newline] text).
Proof.
  intros Hp Hc Hn Hin. apply replace_go_in in Hin.
  destruct Hin as [Hin|[Hin|[]]]; [|congruence].
  rewrite forallb_forall in Hp. apply Hp in Hin. congruence.
Qed.

(** X10: a text with none of the characters that start markup (hash, closing
    angle bracket, pipe, dash, asterisk, backtick, at sign) goes through the
    formatter unchanged but for three things: line ends are normalised, the
    five special characters of HTML are escaped, and line breaks are written
    as [<br/>], runs of three or more blank lines being reduced first.  None
    of the substitutions for headings, quotes, tables, rules, bullets,
    emphasis and code touches it. *)
Theorem format_plain_text (text : str) :
  forallb plain text = true ->
  _format_display_text text
  = line_breaks (html_escape (replace crlf [newline] text)).
Proof.
  intros Hp. destruct text as [|c0 t0] eqn:Et; [reflexivity|].
  rewrite <- Et in *. rewrite format_display_text_stages by (rewrite Et; discriminate).
  set (raw := replace crlf [newline] text).
  assert (Hraw : forall c, plain c = false -> c <> newline -> ~ In c raw).
  { intros c. now apply plain_absent. }
  assert (Hesc : forall c, In c (u "@*`") -> ~ In c (html_escape raw)).
  { intros c Hc.
    apply html_escape_keeps;
      try (destruct Hc as [Hc|[Hc|[Hc|[]]]]; subst c; vm_compute;
           intuition discriminate).
    destruct Hc as [Hc|[Hc|[Hc|[]]]]; subst c; apply Hraw;
      solve [reflexivity | discriminate]. }
  unfold extract_code_blocks.
  rewrite (scan_absent backtick p_code_fence None raw code_fence_demands)
    by (apply Hraw; [reflexivity|discriminate]).
  cbn [number_from List.map concat app restore_code_blocks fold_left].
  assert (Es : structural raw = raw).
  { unfold structural.
    rewrite (sub_absent hash p_heading _ raw heading_demands) by
      (apply Hraw; [reflexivity|discriminate]).
    rewrite (sub_absent gt p_quote _ raw quote_demands) by
      (apply Hraw; [reflexivity|discriminate]).
    rewrite (sub_absent dash p_table_rule _ raw table_rule_demands) by
      (apply Hraw; [reflexivity|discriminate]).
    rewrite (sub_absent pipe p_pipe _ raw pipe_demands) by
      (apply Hraw; [reflexivity|discriminate]).
    rewrite hrule_absent by (apply Hraw; [reflexivity|discriminate]).
    apply (sub_absent dash p_bullet);
      [apply bullet_demands|apply Hraw; [reflexivity|discriminate]]. }
  rewrite Es.
  assert (Ei : inline_markup (html_escape raw) = html_escape raw).
  { unfold inline_markup.
    rewrite (sub_absent 64%N p_hdr_mark _ (html_escape raw) hdr_mark_demands) by
      (apply Hesc; vm_compute; tauto).
    rewrite (sub_absent 64%N p_quote_mark _ (html_escape raw) quote_mark_demands) by
      (apply Hesc; vm_compute; tauto).
    rewrite hr_marker_absent by (apply Hesc; vm_compute; tauto).
    rewrite (sub_absent asterisk p_bold _ (html_escape raw) bold_demands) by
      (apply Hesc; vm_compute; tauto).
    rewrite (sub_absent asterisk p_italic _ (html_escape raw) italic_demands) by
      (apply Hesc; vm_compute; tauto).
    apply (sub_absent backtick p_code);
      [apply code_demands|apply Hesc; vm_compute; tauto]. }
  rewrite Ei. reflexivity.
Qed.

Lemma format_plain_text_witness :
  _format_display_text (u "a < b & c")
  = line_breaks (html_escape (replace crlf [newline] (u "a < b & c"))).
Proof. apply (format_plain_text (u "a < b & c")). reflexivity. Defined.

(** X11: the markup the formatter returns never contains a line break
    character, whatever the text it is given. *)
Theorem format_no_newline (text : str) :
  ~ In newline (_format_display_text text).
Proof.
  unfold _format_display_text. destruct text as [|c t]; [intros []|].
  destruct (extract_code_blocks _) as [raw code_blocks].
  apply replace_single_gone. vm_compute. intuition discriminate.
Qed.

End DisplayFacts.

Import DisplayFacts.

(** ** A heading line *)

Module HeadingFacts.

Lemma rep_loop_step body k g fuel lo hi st :
  rep_loop body k g (S fuel) lo hi st
  = let again :=
      if hi_open hi then
        body (fun e =>
                if (length (rest e) <? length (rest st))%nat || (0 <? lo)%nat
                then rep_loop body k g fuel (Nat.pred lo) (dec_hi hi) e
                else None) st
      else None in
    match lo with
    | S _ => again
    | O =>
        if g then match again with Some e => Some e | None => k st end
        else match k st with Some e => Some e | None => again end
    end.
Proof. destruct lo, g; reflexivity. Qed.

(** A greedy repeat of a class with an upper bound runs to the end of a run
    that the bound allows. *)
Lemma greedy_run_bounded (p : char -> bool) (k : mstate -> option mstate) d :
  forall fuel lo hi b r cs res,
    Forall (fun c => p c = true) d ->
    match r with [] => True | x :: _ => p x = false end ->
    (lo <= length d)%nat -> (length d <= fuel)%nat ->
    (forall h, hi = Some h -> (length d <= h)%nat) ->
    k (MState (rev d ++ b) r cs) = Some res ->
    rep_loop (m (Cls p)) k true fuel lo hi (MState b (d ++ r) cs) = Some res.
Proof.
  induction d as [|x d IH]; intros fuel lo hi b r cs res Hd Hr Hlo Hf Hh Hk.
  - simpl in Hlo. assert (lo = 0%nat) by lia. subst lo. simpl in Hk.
    destruct fuel as [|fuel]; [exact Hk|].
    rewrite rep_loop_step. cbv zeta. rewrite m_cls_miss by exact Hr.
    destruct (hi_open hi); exact Hk.
  - destruct fuel as [|fuel]; [simpl in Hf; lia|].
    inversion Hd as [|? ? Hx Hd']; subst.
    assert (Ho : hi_open hi = true).
    { destruct hi as [[|h]|]; try reflexivity.
      specialize (Hh 0%nat eq_refl). simpl in Hh. lia. }
    assert (Hl : (length (d ++ r) <? S (length (d ++ r)))%nat = true)
      by (apply Nat.ltb_lt; lia).
    assert (Hnext :
      rep_loop (m (Cls p)) k true fuel (Nat.pred lo) (dec_hi hi)
               (MState (x :: b) (d ++ r) cs) = Some res).
    { apply IH; auto.
      - simpl in Hlo. lia.
      - simpl in Hf. lia.
      - intros h E. destruct hi as [h0|]; [|discriminate].
        simpl in E. injection E as E. specialize (Hh h0 eq_refl).
        simpl in Hh. lia.
      - simpl in Hk. now rewrite <- app_assoc in Hk. }
    rewrite rep_loop_step. cbv zeta. rewrite Ho.
    change ((x :: d) ++ r) with (x :: d ++ r).
    rewrite m_cls_hit by exact Hx. cbn [rest length]. rewrite Hl.
    cbn [orb]. rewrite Hnext. destruct lo; reflexivity.
Qed.

Lemma repeat_hash_all n : Forall (fun c => (hash =? c)%N = true) (repeat hash n).
Proof. induction n; simpl; constructor; auto. Qed.

(** The heading pattern on a heading line. *)
Lemma heading_attempt n w title :
  (1 <= n <= 6)%nat ->
  Forall (fun c => isspace c = true) w ->
  title <> [] -> head_tidy title ->
  forallb plain title = true -> ~ In newline title ->
  attempt p_heading false [] (repeat hash n ++ w ++ title)
  = Some (MState (rev (repeat hash n ++ w ++ title)) [] [(1%nat, title)]).
Proof.
  intros Hn Hw Hne Hh Hp Hnl. unfold attempt.
  set (s := repeat hash n ++ w ++ title).
  assert (Hhead : match w ++ title with
                  | [] => True
                  | x :: _ => (hash =? x)%N = false
                  end).
  { assert (Hx : forall x, In x (w ++ title) -> x <> hash).
    { intros x Hx E. subst x. apply in_app_or in Hx. destruct Hx as [Hx|Hx].
      - rewrite Forall_forall in Hw. apply Hw in Hx. discriminate.
      - rewrite forallb_forall in Hp. apply Hp in Hx. discriminate. }
    destruct (w ++ title) as [|x r]; [exact I|].
    apply N.eqb_neq. intro E. apply (Hx x); [now left|now symmetry]. }
  change (m p_heading (final false []) (MState [] s []))
    with (rep_loop (m (Cls isspace))
            (m (Seq (Rep true 1 (Some 6%nat) (chr hash))
                    (Seq (star ws) (Seq (Grp 1 (plus dot)) (Eol true))))
               (final false []))
            true (0 + length s) 0 (Some 3%nat) (MState [] ([] ++ s) [])).
  apply (greedy_run_bounded isspace _ []).
  - constructor.
  - unfold s. destruct n as [|n]; [lia|]. reflexivity.
  - simpl. lia.
  - simpl. lia.
  - intros h _. simpl. lia.
  - cbn [rev app].
    change (m (Seq (Rep true 1 (Some 6%nat) (chr hash))
                   (Seq (star ws) (Seq (Grp 1 (plus dot)) (Eol true))))
              (final false []) (MState [] s []))
      with (rep_loop (m (Cls (N.eqb hash)))
              (m (Seq (star ws) (Seq (Grp 1 (plus dot)) (Eol true)))
                 (final false []))
              true (1 + length s) 1 (Some 6%nat) (MState [] s [])).
    unfold s. apply greedy_run_bounded.
    + apply repeat_hash_all.
    + exact Hhead.
    + rewrite repeat_length. lia.
    + rewrite length_app, repeat_length. lia.
    + intros h E. injection E as E. subst h. rewrite repeat_length. lia.
    + set (b1 := rev (repeat hash n) ++ []).
      change (m (Seq (star ws) (Seq (Grp 1 (plus dot)) (Eol true)))
                (final false []) (MState b1 (w ++ title) []))
        with (rep_loop (m (Cls isspace))
                (m (Seq (Grp 1 (plus dot)) (Eol true)) (final false []))
                true (0 + length (w ++ title)) 0 None
                (MState b1 (w ++ title) [])).
      apply greedy_run.
      * exact Hw.
      * destruct title; [congruence|exact Hh].
      * lia.
      * rewrite length_app. lia.
      * set (st2 := MState (rev w ++ b1) title []).
        change (m (Seq (Grp 1 (plus dot)) (Eol true)) (final false []) st2)
          with (rep_loop (m (Cls (fun c => negb (c =? newline)%N)))
                  (fun e => m (Eol true) (final false []) (set_cap 1 st2 e))
                  true (1 + length title) 1 None
                  (MState (rev w ++ b1) title [])).
        pose proof (greedy_run (fun c => negb (c =? newline)%N)
                      (fun e => m (Eol true) (final false []) (set_cap 1 st2 e))
                      title (1 + length title) 1 (rev w ++ b1) [] []
                      (MState (rev s) [] [(1%nat, title)])) as G.
        rewrite app_nil_r in G. apply G; clear G.
        -- apply Forall_forall. intros x Hx. apply negb_true_iff.
           destruct (x =? newline)%N eqn:E; [|reflexivity].
           apply N.eqb_eq in E. subst x. contradiction.
        -- exact I.
        -- destruct title; [congruence|simpl; lia].
        -- lia.
        -- cbv beta. unfold set_cap. cbn [m at_eol rest bef caps].
           unfold final. cbn [andb]. f_equal. f_equal.
           ++ unfold s, b1. rewrite !rev_app_distr, <- !app_assoc.
              now rewrite !app_nil_r.
           ++ f_equal. f_equal. apply span_consumed. unfold st2.
              split; [now rewrite app_nil_r|reflexivity].
Qed.

(** A line anchor fails after a character that is not a line break. *)
Lemma m_bol_away r k c b s cs :
  (c =? newline)%N = false -> m (Seq (Bol true) r) k (MState (c :: b) s cs) = None.
Proof. intros H. cbn [m at_bol bef andb]. now rewrite H. Qed.

Lemma heading_scan n w title :
  (1 <= n <= 6)%nat ->
  Forall (fun c => isspace c = true) w ->
  title <> [] -> head_tidy title ->
  forallb plain title = true -> ~ In newline title ->
  scan p_heading None (repeat hash n ++ w ++ title)
  = ([Found [] (repeat hash n ++ w ++ title) [(1%nat, title)]], []).
Proof.
  intros Hn Hw Hne Hh Hp Hnl. apply scan_whole.
  - destruct n as [|n]; [lia|discriminate].
  - now apply heading_attempt.
  - unfold attempt.
    rewrite !rev_app_distr.
    destruct (rev title) as [|c r] eqn:Er.
    { apply (f_equal (@rev _)) in Er. rewrite rev_involutive in Er.
      simpl in Er. congruence. }
    assert (Hc : (c =? newline)%N = false).
    { apply N.eqb_neq. intro E. subst c. apply Hnl. apply in_rev.
      rewrite Er. now left. }
    cbn [app].
    change p_heading
      with (Seq (Bol true)
              (Seq (Rep true 0 (Some 3%nat) ws)
                   (Seq (Rep true 1 (Some 6%nat) (chr hash))
                        (Seq (star ws) (Seq (Grp 1 (plus dot)) (Eol true)))))).
    now apply m_bol_away.
Qed.

(** A pattern [d1 (lazy, anything) d2] on [d1], a text without the first
    character of [d2], and [d2]. *)
Lemma delimited_attempt d1 x d2 c :
  ~ In x c ->
  attempt (seq [lit d1; Grp 1 (star_lazy any); lit (x :: d2)]) false []
          (d1 ++ c ++ x :: d2)
  = Some (MState (rev (d1 ++ c ++ x :: d2)) [] [(1%nat, c)]).
Proof.
  intros Hc. unfold attempt.
  change (m (seq [lit d1; Grp 1 (star_lazy any); lit (x :: d2)])
            (final false []) (MState [] (d1 ++ c ++ x :: d2) []))
    with (m (lit d1)
            (m (Seq (Grp 1 (star_lazy any)) (lit (x :: d2))) (final false []))
            (MState [] (d1 ++ c ++ x :: d2) [])).
  rewrite m_lit_here.
  set (st1 := MState (rev d1 ++ []) (c ++ x :: d2) []).
  change (m (Seq (Grp 1 (star_lazy any)) (lit (x :: d2))) (final false []) st1)
    with (rep_loop (m any)
            (fun e => m (lit (x :: d2)) (final false []) (set_cap 1 st1 e))
            false (0 + length (c ++ x :: d2)) 0 None st1).
  unfold st1 at 2.
  apply lazy_any_until.
  - rewrite length_app. lia.
  - intros p y q E. apply m_lit_miss. simpl.
    intro Hx. apply Hc. rewrite E. apply in_or_app. right. left.
    symmetry. exact Hx.
  - cbv beta. unfold set_cap. cbn [bef rest caps].
    rewrite m_lit_end.
    unfold final. simpl andb. cbv iota.
    f_equal. f_equal.
    + rewrite !rev_app_distr. now rewrite <- !app_assoc, app_nil_r.
    + f_equal. f_equal. apply span_consumed. unfold st1. split; reflexivity.
Qed.

Lemma delimited_scan y d1 x d2 c :
  ~ In x c ->
  scan (seq [lit (y :: d1); Grp 1 (star_lazy any); lit (x :: d2)]) None
       ((y :: d1) ++ c ++ x :: d2)
  = ([Found [] ((y :: d1) ++ c ++ x :: d2) [(1%nat, c)]], []).
Proof.
  intros Hc. apply scan_whole.
  - discriminate.
  - now apply delimited_attempt.
  - unfold attempt.
    change (m (seq [lit (y :: d1); Grp 1 (star_lazy any); lit (x :: d2)])
              (final false [])
              (MState (rev ((y :: d1) ++ c ++ x :: d2)) [] []))
      with (m (lit (y :: d1))
              (m (Seq (Grp 1 (star_lazy any)) (lit (x :: d2))) (final false []))
              (MState (rev ((y :: d1) ++ c ++ x :: d2)) [] [])).
    apply m_lit_miss. exact I.
Qed.

Lemma html_escape_app a b :
  html_escape (a ++ b) = html_escape a ++ html_escape b.
Proof.
  unfold html_escape.
  change (u "&") with [38%N]. change (u "<") with [lt]. change (u ">") with [gt].
  rewrite !replace_single. now rewrite !flat_map_app.
Qed.

Ltac absent3 Hp :=
  let Hin := fresh "Hin" in
  intro Hin; apply in_app_or in Hin; destruct Hin as [Hin|Hin];
  [revert Hin; vm_compute; intuition discriminate|];
  apply in_app_or in Hin; destruct Hin as [Hin|Hin];
  [|revert Hin; vm_compute; intuition discriminate];
  first
    [ rewrite forallb_forall in Hp; apply Hp in Hin; discriminate
    | contradiction ].

(** X12: a heading line is rendered as a heading.  A text that is one line
    made of one to six hash signs, optional blanks and a title that has none
    of the characters that start markup comes out as the block that opens
    with the heading style, holds the title, escaped, and is closed; the
    hash signs and the blanks after them are not shown. *)
Theorem heading_line_rendering (n : nat) (w title : str) :
  (1 <= n <= 6)%nat ->
  Forall (fun c => isspace c = true) w ->
  ~ In newline w ->
  title <> [] ->
  head_tidy title ->
  forallb plain title = true ->
  ~ In newline title ->
  _format_display_text (repeat hash n ++ w ++ title)
  = hdr_open ++ html_escape title ++ div_close.
Proof.
  intros Hn Hw Hwn Hne Hh Hp Hnl.
  set (text := repeat hash n ++ w ++ title).
  assert (Hrep : forall c, c <> hash -> ~ In c (repeat hash n)).
  { intros c Hc Hin. apply repeat_spec in Hin. congruence. }
  assert (Hblank : forall c, isspace c = false -> ~ In c w).
  { intros c Hc Hin. rewrite Forall_forall in Hw. apply Hw in Hin. congruence. }
  assert (Htext : forall c, plain c = false -> c <> hash -> ~ In c text).
  { intros c Hc Hh' Hin. unfold text in Hin.
    apply in_app_or in Hin. destruct Hin as [Hin|Hin]; [now apply (Hrep c)|].
    apply in_app_or in Hin. destruct Hin as [Hin|Hin].
    - revert Hin. apply Hblank. unfold plain in Hc. apply negb_false_iff in Hc.
      apply existsb_exists in Hc. destruct Hc as [y [Hy E]].
      apply N.eqb_eq in E. subst y.
      vm_compute in Hy. intuition (subst; reflexivity).
    - rewrite forallb_forall in Hp. apply Hp in Hin. congruence. }
  assert (Htnl : ~ In newline text).
  { unfold text. intro Hin. apply in_app_or in Hin.
    destruct Hin as [Hin|Hin]; [now apply (Hrep newline)|].
    apply in_app_or in Hin. destruct Hin; contradiction. }
  rewrite format_display_text_stages
    by (unfold text; destruct n as [|n']; [lia|discriminate]).
  fold text. rewrite (crlf_absent text Htnl).
  unfold extract_code_blocks.
  rewrite (scan_absent backtick p_code_fence None text code_fence_demands)
    by (apply Htext; [reflexivity|discriminate]).
  cbn [number_from List.map concat app restore_code_blocks fold_left].
  set (raw1 := u "@@HDR@@" ++ title ++ u "@@ENDHDR@@").
  assert (Es : structural text = raw1).
  { unfold structural.
    assert (E1 : sub p_heading
                   [TLit (u "@@HDR@@"); TGrp 1; TLit (u "@@ENDHDR@@")] text
                 = raw1).
    { unfold sub, sub_with, text. rewrite heading_scan by assumption.
      cbn [List.map concat f_before app]. rewrite expand3.
      unfold group. cbn [f_caps lookup Nat.eqb].
      now rewrite !app_nil_r. }
    rewrite E1.
    rewrite (sub_absent gt p_quote _ raw1 quote_demands) by (absent3 Hp).
    rewrite (sub_absent dash p_table_rule _ raw1 table_rule_demands)
      by (absent3 Hp).
    rewrite (sub_absent pipe p_pipe _ raw1 pipe_demands) by (absent3 Hp).
    rewrite hrule_absent by (absent3 Hp).
    apply (sub_absent dash p_bullet); [apply bullet_demands|absent3 Hp]. }
  rewrite Es.
  assert (Ee : html_escape raw1
               = u "@@HDR@@" ++ html_escape title ++ u "@@ENDHDR@@").
  { unfold raw1. rewrite !html_escape_app. reflexivity. }
  rewrite Ee.
  assert (Het : forall c, In c (u "@*`") -> ~ In c (html_escape title)).
  { intros c Hc.
    apply html_escape_keeps;
      try (destruct Hc as [Hc|[Hc|[Hc|[]]]]; subst c; vm_compute;
           intuition discriminate).
    intro Hin. rewrite forallb_forall in Hp. apply Hp in Hin.
    destruct Hc as [Hc|[Hc|[Hc|[]]]]; subst c; discriminate. }
  set (out := hdr_open ++ html_escape title ++ div_close).
  assert (Hout : forall c, In c (u "@*`") -> ~ In c out).
  { intros c Hc. unfold out. intro Hin.
    apply in_app_or in Hin. destruct Hin as [Hin|Hin].
    { destruct Hc as [Hc|[Hc|[Hc|[]]]]; subst c; revert Hin; vm_compute;
        intuition discriminate. }
    apply in_app_or in Hin. destruct Hin as [Hin|Hin].
    { now apply (Het c). }
    destruct Hc as [Hc|[Hc|[Hc|[]]]]; subst c; revert Hin; vm_compute;
      intuition discriminate. }
  assert (Ei : inline_markup
                 (u "@@HDR@@" ++ html_escape title ++ u "@@ENDHDR@@") = out).
  { unfold inline_markup.
    assert (E1 : sub p_hdr_mark [TLit hdr_open; TGrp 1; TLit div_close]
                   (u "@@HDR@@" ++ html_escape title ++ u "@@ENDHDR@@")
                 = out).
    { unfold sub, sub_with.
      change p_hdr_mark
        with (seq [lit (64 :: u "@HDR@@")%N; Grp 1 (star_lazy any);
                   lit (64 :: u "@ENDHDR@@")%N]).
      change (u "@@HDR@@") with (64 :: u "@HDR@@")%N.
      change (u "@@ENDHDR@@") with (64 :: u "@ENDHDR@@")%N.
      rewrite delimited_scan by (apply Het; vm_compute; tauto).
      cbn [List.map concat f_before]. rewrite expand3.
      unfold group. cbn [f_caps lookup Nat.eqb].
      unfold out. now rewrite !app_nil_r. }
    rewrite E1.
    rewrite (sub_absent 64%N p_quote_mark _ out quote_mark_demands)
      by (apply Hout; vm_compute; tauto).
    rewrite hr_marker_absent by (apply Hout; vm_compute; tauto).
    rewrite (sub_absent asterisk p_bold _ out bold_demands)
      by (apply Hout; vm_compute; tauto).
    rewrite (sub_absent asterisk p_italic _ out italic_demands)
      by (apply Hout; vm_compute; tauto).
    apply (sub_absent backtick p_code);
      [apply code_demands|apply Hout; vm_compute; tauto]. }
  rewrite Ei. apply line_breaks_absent.
  unfold out. intro Hin.
  apply in_app_or in Hin. destruct Hin as [Hin|Hin].
  { revert Hin. vm_compute. intuition discriminate. }
  apply in_app_or in Hin. destruct Hin as [Hin|Hin].
  - revert Hin.
    apply html_escape_keeps;
      solve [exact Hnl | vm_compute; intuition discriminate].
  - revert Hin. vm_compute. intuition discriminate.
Qed.

Lemma heading_line_rendering_witness :
  _format_display_text (repeat hash 2 ++ u " " ++ u "a < b & c")
  = hdr_open ++ html_escape (u "a < b & c") ++ div_close.
Proof.
  apply (heading_line_rendering 2 (u " ") (u "a < b & c")).
  - lia.
  - repeat constructor.
  - vm_compute. intuition discriminate.
  - discriminate.
  - reflexivity.
  - reflexivity.
  - vm_compute. intuition discriminate.
Defined.

End HeadingFacts.

Import HeadingFacts.

(** ** A fenced block in plain text *)

Module BlockFacts.

(** *** Line ends *)




(** *** The scan for fenced blocks *)





(** *** The placeholder among the markers *)






(** *** One block in plain text *)







End BlockFacts.

Import BlockFacts.

(** ** Role labels and sentence units *)

Module ReplyFacts.

(** *** The role label *)

Lemma matches_lit_i_span l :
  forall st e,
    matches (lit_i l) st e -> exists x, span st e x /\ ci_same l x = true.
Proof.
  induction l as [|c t IH]; intros st e H.
  - simpl in H. subst. exists []. split; [apply span_refl|reflexivity].
  - destruct t as [|c' t].
    + simpl in H. destruct H as [x [r [H1 [H2 H3]]]]. subst e.
      exists [x]. split; [now apply span_step|]. simpl. now rewrite H2.
    + change (lit_i (c :: c' :: t)) with (Seq (ci c) (lit_i (c' :: t))) in H.
      destruct H as [mid [[x [r [H1 [H2 H3]]]] H4]].
      apply IH in H4. destruct H4 as [y [Sy Cy]]. subst mid.
      exists (x :: y). split.
      * apply (span_trans _ _ _ [x] y (span_step x r st H1) Sy).
      * change (ci_same (c :: c' :: t) (x :: y))
          with (ci_eq c x && ci_same (c' :: t) y).
        now rewrite H2, Cy.
Qed.

(** The blanks at the end of the pattern are taken as far as they go. *)
Lemma star_ws_final b st e :
  m (star ws) (final false b) st = Some e ->
  exists w,
    span st e w /\ Forall (fun c => isspace c = true) w /\ head_tidy (rest e).
Proof.
  destruct st as [b' rs cs]. intros H.
  destruct (lstrip_split rs) as [w [E F]].
  pose proof (lstrip_head rs) as Hh.
  remember (lstrip rs) as r eqn:Er. clear Er. subst rs.
  change (m (star ws) (final false b) (MState b' (w ++ r) cs))
    with (rep_loop (m (Cls isspace)) (final false b) true
            (0 + length (w ++ r)) 0 None (MState b' (w ++ r) cs)) in H.
  rewrite (greedy_run isspace (final false b) w (0 + length (w ++ r)) 0 b' r cs
             (MState (rev w ++ b') r cs)) in H.
  - inversion H; subst e. exists w. split; [split; reflexivity|]. auto.
  - exact F.
  - destruct r; [exact I|exact Hh].
  - lia.
  - rewrite length_app. lia.
  - reflexivity.
Qed.

(** What a match of the role pattern at the start of a text consists of. *)
Lemma role_prefix_match s e :
  attempt p_role_prefix false [] s = Some e ->
  exists w l w',
    s = w ++ l ++ w' ++ rest e
    /\ Forall (fun c => isspace c = true) w
    /\ Forall (fun c => isspace c = true) w'
    /\ existsb (fun lab => ci_same lab l) role_labels = true
    /\ head_tidy (rest e)
    /\ mlen [] e = length (w ++ l ++ w').
Proof.
  unfold attempt.
  change (m p_role_prefix (final false []) (MState [] s []))
    with (m (Bol false)
            (m (star ws)
               (m (Grp 1 (alt (List.map lit_i role_labels)))
                  (m (star ws) (final false [])))) (MState [] s [])).
  intros H.
  apply m_sound in H. destruct H as [e1 [[_ E1] H]]. subst e1.
  apply m_sound in H. destruct H as [e2 [H2 H]].
  apply m_sound in H. destruct H as [e3 [[e' [H3 E3]] H]].
  apply star_ws_final in H. destruct H as [w' [Sw' [Fw' Hh]]].
  apply star_ws_span in H2. destruct H2 as [w [Sw [Fw _]]].
  apply matches_alt in H3. destruct H3 as [r [Hr Hm]].
  apply in_map_iff in Hr. destruct Hr as [lab [El Hl]]. subst r.
  apply matches_lit_i_span in Hm. destruct Hm as [l [Sl Cl]].
  assert (Sl' : span e2 e3 l) by (subst e3; now apply span_set_cap).
  pose proof (span_trans _ _ _ _ _ Sw (span_trans _ _ _ _ _ Sl' Sw')) as St.
  exists w, l, w'. split; [|split; [exact Fw|split; [exact Fw'|split; [|split]]]].
  - destruct St as [St _]. simpl in St. now rewrite <- !app_assoc in St.
  - apply existsb_exists. exists lab. auto.
  - exact Hh.
  - apply (span_mlen _ _ _ _ _ St).
Qed.

Lemma role_prefix_away adv b s :
  b <> [] -> attempt p_role_prefix adv b s = None.
Proof. destruct b as [|c b]; [congruence|]. intros _. apply role_prefix_anchored. Qed.

(** The scan for the role pattern: no match, or one match at the start. *)
Lemma role_prefix_scan s :
  (attempt p_role_prefix false [] s = None
   /\ scan p_role_prefix None s = ([], s))
  \/ exists e txt,
       attempt p_role_prefix false [] s = Some e
       /\ s = txt ++ rest e
       /\ txt <> []
       /\ scan p_role_prefix None s = ([Found [] txt (caps e)], rest e).
Proof.
  destruct (attempt p_role_prefix false [] s) as [e|] eqn:Ea.
  - right. destruct (attempt_found _ _ [] _ _ _ Ea) as [txt [Hm [_ [Hs Hl]]]].
    destruct (role_prefix_match s e Ea) as [w [l [w' [E [_ [_ [Hlab [_ Hlen]]]]]]]].
    assert (Hne : txt <> []).
    { intro Hx. subst txt. rewrite Hlen in Hl. simpl in Hl.
      rewrite !length_app in Hl.
      destruct l; [|simpl in Hl; lia]. vm_compute in Hlab. discriminate. }
    exists e, txt. split; [reflexivity|]. split; [exact Hs|].
    split; [exact Hne|]. unfold scan. destruct s as [|c t].
    { destruct txt; [congruence|discriminate]. }
    cbn [scan_go exhausted]. rewrite Ea, Hm, Hl.
    destruct txt as [|c' txt']; [congruence|].
    simpl in Hs. injection Hs as Hc Ht. subst c'.
    cbn [length dec_hi option_map]. rewrite Ht, scan_go_skip.
    rewrite scan_go_none.
    + reflexivity.
    + intros p q _. apply role_prefix_away.
      intro Hx. apply app_eq_nil in Hx. destruct Hx as [_ Hx].
      apply app_eq_nil in Hx. destruct Hx as [_ Hx]. discriminate.
  - left. split; [reflexivity|]. unfold scan. rewrite scan_go_none; [reflexivity|].
    intros p q E. destruct (rev p) as [|x r] eqn:Er.
    + apply (f_equal (@rev _)) in Er. rewrite rev_involutive in Er. simpl in Er.
      subst p. simpl in E. subst q. exact Ea.
    + apply role_prefix_anchored.
Qed.

(** What [_strip_role_prefixes] returns is the end of its argument. *)
Lemma strip_role_prefixes_tail text :
  exists p, text = p ++ _strip_role_prefixes text.
Proof.
  unfold _strip_role_prefixes. destruct text as [|c t]; [now exists []|].
  unfold sub, sub_with.
  destruct (role_prefix_scan (c :: t)) as [[_ Hs]|[e [txt [_ [E [_ Hs]]]]]];
    rewrite Hs.
  - now exists [].
  - exists txt. simpl. exact E.
Qed.

(** X13: [_strip_role_prefixes] returns its argument as it is, or removes from
    its start exactly this: blanks if there are any, one of the eight role
    labels in any case of its letters, and all the blanks that follow the
    label, so that what is left does not begin with a blank.  Nothing else
    of the text is changed. *)
Theorem strip_role_prefixes_removes_label (text : str) :
  _strip_role_prefixes text = text
  \/ exists w l w',
       text = w ++ l ++ w' ++ _strip_role_prefixes text
       /\ Forall (fun c => isspace c = true) w
       /\ Forall (fun c => isspace c = true) w'
       /\ existsb (fun lab => ci_same lab l) role_labels = true
       /\ head_tidy (_strip_role_prefixes text).
Proof.
  unfold _strip_role_prefixes. destruct text as [|c t]; [now left|].
  unfold sub, sub_with.
  destruct (role_prefix_scan (c :: t)) as [[_ Hs]|[e [txt [Ha [E [_ Hs]]]]]];
    rewrite Hs.
  - now left.
  - right. destruct (role_prefix_match _ _ Ha) as [w [l [w' [E' [Fw [Fw' [Hl [Hh _]]]]]]]].
    exists w, l, w'. simpl. auto.
Qed.

(** The other direction: where a text begins with a label, the pattern
    matches. *)

Lemma lower_cases x v :
  lower x = v ->
  x = v \/ (x + 32 = v)%N \/ (x = 304 /\ v = 105)%N.
Proof.
  unfold lower. destruct ((65 <=? x)%N && (x <=? 90)%N); [auto|].
  destruct (x =? 304)%N eqn:E; [|auto].
  apply N.eqb_eq in E. auto.
Qed.

Lemma ci_eq_cases c x :
  ci_eq c x = true ->
  x = lower c \/ (x + 32 = lower c)%N \/ x = 304%N \/ x = 305%N \/ x = 383%N.
Proof.
  unfold ci_eq. intros H. apply orb_true_iff in H. destruct H as [H|H].
  - apply orb_true_iff in H. destruct H as [H|H].
    + apply N.eqb_eq in H. apply lower_cases in H. tauto.
    + apply andb_true_iff in H. destruct H as [_ H]. apply N.eqb_eq in H. auto.
  - apply andb_true_iff in H. destruct H as [_ H]. apply N.eqb_eq in H. auto 6.
Qed.

Lemma label_head_not_blank lab x r :
  In lab role_labels -> ci_startswith lab (x :: r) = true -> isspace x = false.
Proof.
  intros Hin H.
  assert (Hc : exists c, In c [65; 21161; 97; 29992; 85]%N /\ ci_eq c x = true).
  { vm_compute in Hin.
    repeat (destruct Hin as [Hin|Hin];
            [subst lab; cbn [ci_startswith] in H;
             apply andb_true_iff in H; destruct H as [H _];
             eexists; split; [|exact H]; simpl; tauto|]).
    destruct Hin. }
  destruct Hc as [c [Hc Hx]]. apply ci_eq_cases in Hx. simpl in Hc.
  destruct Hc as [Hc|[Hc|[Hc|[Hc|[Hc|[]]]]]]; subst c; vm_compute lower in Hx;
    destruct Hx as [Hx|[Hx|[Hx|[Hx|Hx]]]];
    try (subst x; reflexivity);
    match type of Hx with
    | (x + 32 = ?v)%N =>
        assert (Hx' : x = (v - 32)%N) by lia; vm_compute in Hx'; subst x;
        reflexivity
    end.
Qed.

Lemma ci_startswith_split lab :
  forall s,
    ci_startswith lab s = true -> exists x r, s = x ++ r /\ ci_same lab x = true.
Proof.
  induction lab as [|a lab IH]; intros s H.
  - exists [], s. auto.
  - destruct s as [|b s]; [discriminate|]. simpl in H.
    apply andb_true_iff in H. destruct H as [Hab H].
    destruct (IH s H) as [x [r [E C]]]. exists (b :: x), r.
    split; [simpl; now rewrite E|]. simpl. now rewrite Hab, C.
Qed.

Lemma begins_with_label_split s :
  begins_with_label s = true ->
  exists w lab x r,
    s = w ++ x ++ r
    /\ Forall (fun c => isspace c = true) w
    /\ In lab role_labels /\ ci_same lab x = true
    /\ match x ++ r with [] => True | c :: _ => isspace c = false end.
Proof.
  induction s as [|c t IH].
  - intros H. vm_compute in H. discriminate.
  - intros H.
    change (begins_with_label (c :: t))
      with (existsb (fun l => ci_startswith l (c :: t)) role_labels
            || (isspace c && begins_with_label t)) in H.
    apply orb_true_iff in H. destruct H as [H|H].
    + apply existsb_exists in H. destruct H as [lab [Hin Hl]].
      destruct (ci_startswith_split lab _ Hl) as [x [r [E C]]].
      exists [], lab, x, r. simpl. rewrite <- E.
      repeat split; auto. now apply (label_head_not_blank lab c t).
    + apply andb_true_iff in H. destruct H as [Hc H].
      destruct (IH H) as [w [lab [x [r [E [F [Hin [C Hh]]]]]]]].
      exists (c :: w), lab, x, r. simpl. rewrite <- E.
      repeat split; auto.
Qed.

Lemma m_lit_i_hit lab k :
  forall x b r cs,
    ci_same lab x = true ->
    m (lit_i lab) k (MState b (x ++ r) cs) = k (MState (rev x ++ b) r cs).
Proof.
  induction lab as [|a lab IH]; intros x b r cs H.
  - destruct x; [reflexivity|discriminate].
  - destruct x as [|y x]; [discriminate|]. simpl in H.
    apply andb_true_iff in H. destruct H as [Hay H].
    destruct lab as [|a' lab].
    + destruct x; [|discriminate]. simpl. now rewrite Hay.
    + change (lit_i (a :: a' :: lab)) with (Seq (ci a) (lit_i (a' :: lab))).
      change (m (Seq (ci a) (lit_i (a' :: lab))) k (MState b ((y :: x) ++ r) cs))
        with (m (Cls (ci_eq a)) (m (lit_i (a' :: lab)) k)
                (MState b (y :: x ++ r) cs)).
      rewrite m_cls_hit by exact Hay. rewrite IH by exact H.
      simpl. now rewrite <- app_assoc.
Qed.

Lemma m_alt_in rs k st :
  forall r res,
    In r rs -> m r k st = Some res -> exists res', m (alt rs) k st = Some res'.
Proof.
  induction rs as [|a rs IH]; intros r res Hin Hm; [destruct Hin|].
  destruct rs as [|a' rs].
  - destruct Hin as [Hin|[]]. subst a. eauto.
  - change (alt (a :: a' :: rs)) with (Alt a (alt (a' :: rs))).
    cbn [m]. destruct (m a k st) as [e|] eqn:Ea; [eauto|].
    destruct Hin as [Hin|Hin]; [subst a; congruence|].
    apply (IH r res Hin Hm).
Qed.

Lemma star_ws_total b st : exists e, m (star ws) (final false b) st = Some e.
Proof.
  destruct st as [b' rs cs].
  destruct (lstrip_split rs) as [w [E F]].
  pose proof (lstrip_head rs) as Hh.
  remember (lstrip rs) as r eqn:Er. clear Er. subst rs.
  exists (MState (rev w ++ b') r cs).
  change (m (star ws) (final false b) (MState b' (w ++ r) cs))
    with (rep_loop (m (Cls isspace)) (final false b) true
            (0 + length (w ++ r)) 0 None (MState b' (w ++ r) cs)).
  apply greedy_run.
  - exact F.
  - destruct r; [exact I|exact Hh].
  - lia.
  - rewrite length_app. lia.
  - reflexivity.
Qed.

Lemma role_prefix_complete s :
  begins_with_label s = true ->
  exists e, attempt p_role_prefix false [] s = Some e.
Proof.
  intros H.
  destruct (begins_with_label_split s H) as [w [lab [x [r [E [F [Hin [C Hh]]]]]]]].
  subst s. unfold attempt.
  change (m p_role_prefix (final false []) (MState [] (w ++ x ++ r) []))
    with (rep_loop (m (Cls isspace))
            (m (Grp 1 (alt (List.map lit_i role_labels)))
               (m (star ws) (final false [])))
            true (0 + length (w ++ x ++ r)) 0 None
            (MState [] (w ++ x ++ r) [])).
  set (st := MState (rev w ++ []) (x ++ r) []).
  assert (Hk : exists e,
             m (Grp 1 (alt (List.map lit_i role_labels)))
               (m (star ws) (final false [])) st = Some e).
  { cbn [m].
    destruct (star_ws_total [] (set_cap 1 st (MState (rev x ++ rev w ++ []) r [])))
      as [e He].
    apply (m_alt_in _ _ _ (lit_i lab) e).
    - apply in_map. exact Hin.
    - unfold st. rewrite m_lit_i_hit by exact C. exact He. }
  destruct Hk as [e He]. exists e.
  apply greedy_run.
  - exact F.
  - exact Hh.
  - lia.
  - rewrite length_app. lia.
  - exact He.
Qed.

Lemma strip_role_prefixes_unlabelled text :
  begins_with_label text = false -> _strip_role_prefixes text = text.
Proof.
  intros H. unfold _strip_role_prefixes. destruct text as [|c t]; [reflexivity|].
  apply sub_none. intros p q E.
  destruct (rev p) as [|x r] eqn:Er.
  - apply (f_equal (@rev _)) in Er. rewrite rev_involutive in Er. simpl in Er.
    subst p. simpl in E. subst q.
    destruct (attempt p_role_prefix false [] (c :: t)) eqn:Ea; [|reflexivity].
    apply role_prefix_sound in Ea. congruence.
  - apply role_prefix_anchored.
Qed.

(** C6, amended: [_strip_role_prefixes] removes one leading role label with
    the whitespace around it.  A text that begins, after optional blanks, with
    a role label loses exactly these blanks, the label, in whatever case its
    letters are, and all the blanks after the label; a text that does not is
    returned as it is.  Applying the function a second time changes nothing
    whenever what the first application returned no longer begins, after
    optional blanks, with a role label. *)
Theorem strip_role_prefixes_idempotent_once (text : str) :
  (begins_with_label text = true ->
   exists w l w',
     text = w ++ l ++ w' ++ _strip_role_prefixes text
     /\ Forall (fun c => isspace c = true) w
     /\ existsb (fun lab => ci_same lab l) role_labels = true
     /\ Forall (fun c => isspace c = true) w'
     /\ head_tidy (_strip_role_prefixes text))
  /\ (begins_with_label text = false -> _strip_role_prefixes text = text)
  /\ (begins_with_label (_strip_role_prefixes text) = false ->
      _strip_role_prefixes (_strip_role_prefixes text)
      = _strip_role_prefixes text).
Proof.
  split; [|split].
  - intros Hb. destruct (role_prefix_complete text Hb) as [e Ha].
    destruct (role_prefix_match _ _ Ha) as [w [l [w' [E [Fw [Fw' [Hl [Hh _]]]]]]]].
    assert (Er : _strip_role_prefixes text = rest e).
    { unfold _strip_role_prefixes.
      destruct text as [|c t]; [vm_compute in Hb; discriminate|].
      unfold sub, sub_with.
      destruct (role_prefix_scan (c :: t)) as [[Hn _]|[e' [txt [Ha' [_ [_ Hs]]]]]];
        [congruence|].
      rewrite Hs. rewrite Ha in Ha'. injection Ha' as Ee. subst e'. reflexivity. }
    rewrite Er. exists w, l, w'. auto.
  - apply strip_role_prefixes_unlabelled.
  - apply strip_role_prefixes_unlabelled.
Qed.

Lemma strip_role_prefixes_idempotent_once_witness :
  (exists w l w',
     u " AI:  hello" = w ++ l ++ w' ++ _strip_role_prefixes (u " AI:  hello")
     /\ Forall (fun c => isspace c = true) w
     /\ existsb (fun lab => ci_same lab l) role_labels = true
     /\ Forall (fun c => isspace c = true) w'
     /\ head_tidy (_strip_role_prefixes (u " AI:  hello")))
  /\ _strip_role_prefixes (u "hello") = u "hello"
  /\ _strip_role_prefixes (_strip_role_prefixes (u " AI:  hello"))
     = _strip_role_prefixes (u " AI:  hello").
Proof.
  split; [|split].
  - apply (proj1 (strip_role_prefixes_idempotent_once (u " AI:  hello"))).
    reflexivity.
  - apply (proj1 (proj2 (strip_role_prefixes_idempotent_once (u "hello")))).
    reflexivity.
  - apply (proj2 (proj2 (strip_role_prefixes_idempotent_once (u " AI:  hello")))).
    reflexivity.
Defined.

(** X14: [_strip_role_prefixes] changes a text exactly when the text begins,
    after optional blanks, with one of the role labels, in any case of its
    letters. *)
Theorem strip_role_prefixes_exact (text : str) :
  _strip_role_prefixes text = text <-> begins_with_label text = false.
Proof.
  split.
  - intros H. destruct (begins_with_label text) eqn:Eb; [|reflexivity].
    exfalso. destruct (role_prefix_complete text Eb) as [e Ha].
    revert H. unfold _strip_role_prefixes.
    destruct text as [|c t]; [vm_compute in Eb; discriminate|].
    unfold sub, sub_with.
    destruct (role_prefix_scan (c :: t)) as [[Hn _]|[e' [txt [_ [E [Hne Hs]]]]]].
    + congruence.
    + rewrite Hs. simpl. intros H. rewrite H in E.
      apply (f_equal (@length _)) in E. rewrite length_app in E.
      destruct txt; [congruence|simpl in E; lia].
  - apply strip_role_prefixes_unlabelled.
Qed.

(** *** Sentence units *)

Lemma collapse_by_units text :
  _collapse_consecutive_sentences text = collapse_trimmed text.
Proof.
  unfold _collapse_consecutive_sentences, collapse_trimmed.
  destruct text as [|c t]; [reflexivity|].
  rewrite split1_parts. unfold units, scan.
  rewrite (collapse_loop_units (length (c :: t))) by lia.
  rewrite fold_keep_drop_repeats. reflexivity.
Qed.

Lemma split_units_total s :
  forall sent delims,
    concat (List.map (fun p => fst p ++ snd p) (split_units s sent delims))
    = rev sent ++ rev delims ++ s.
Proof.
  induction s as [|c t IH]; intros sent delims.
  - simpl. now rewrite !app_nil_r.
  - cbn [split_units]. destruct (is_delim c).
    + rewrite IH. simpl. now rewrite <- !app_assoc.
    + destruct delims as [|d ds].
      * rewrite IH. simpl. now rewrite <- !app_assoc.
      * cbn [List.map concat fst snd]. rewrite IH.
        simpl. now rewrite <- !app_assoc.
Qed.

Lemma lstrip_length s : (length (lstrip s) <= length s)%nat.
Proof.
  destruct (lstrip_split s) as [w [E _]]. rewrite E at 2.
  rewrite length_app. lia.
Qed.

Lemma strip_length s : (length (strip s) <= length s)%nat.
Proof.
  unfold strip, rstrip. rewrite length_rev.
  pose proof (lstrip_length (rev (lstrip s))) as H1.
  pose proof (lstrip_length s) as H2.
  rewrite length_rev in H1. lia.
Qed.

Lemma drop_repeats_length l :
  forall prev,
    (length (concat (drop_repeats prev l)) <= length (concat l))%nat.
Proof.
  induction l as [|x l IH]; intros prev; [reflexivity|].
  simpl. destruct prev as [p|].
  - destruct (str_eqb p x).
    + specialize (IH (Some p)). rewrite length_app. lia.
    + specialize (IH (Some x)). simpl. rewrite !length_app. lia.
  - specialize (IH (Some x)). simpl. rewrite !length_app. lia.
Qed.

Lemma trimmed_units_length us :
  (length (concat (filter nonempty (List.map trimmed_unit us)))
   <= length (concat (List.map (fun p => fst p ++ snd p) us)))%nat.
Proof.
  induction us as [|un us IH]; [reflexivity|].
  cbn [List.map filter concat].
  assert (H : (length (trimmed_unit un) <= length (fst un ++ snd un))%nat).
  { unfold trimmed_unit.
    pose proof (strip_length (strip (fst un) ++ snd un)) as H1.
    pose proof (strip_length (fst un)) as H2.
    rewrite !length_app in *. lia. }
  destruct (nonempty (trimmed_unit un)); cbn [concat]; rewrite ?length_app in *.
  - apply Nat.add_le_mono; [exact H|exact IH].
  - etransitivity; [exact IH|apply Nat.le_add_l].
Qed.

(** X15: [_collapse_consecutive_sentences] never returns a text longer than
    the one it is given: it only trims sentences and drops units. *)
Theorem collapse_never_longer (text : str) :
  (length (_collapse_consecutive_sentences text) <= length text)%nat.
Proof.
  rewrite collapse_by_units. unfold collapse_trimmed.
  pose proof (drop_repeats_length
                (filter nonempty (List.map trimmed_unit (units text))) None) as H1.
  pose proof (trimmed_units_length (units text)) as H2.
  unfold units in *. rewrite split_units_total in H2.
  simpl in H2. lia.
Qed.

Lemma no_repeat_snoc seq x :
  no_repeat seq -> last_kept seq <> Some x -> no_repeat (seq ++ [x]).
Proof.
  unfold last_kept. induction seq as [|a seq IH]; intros Hn Hl; [exact I|].
  destruct seq as [|b seq].
  - simpl in *. split; [congruence|exact I].
  - destruct Hn as [Hab Hn]. change ((a :: b :: seq) ++ [x])
      with (a :: b :: (seq ++ [x])).
    split; [exact Hab|]. apply IH; [exact Hn|].
    intro H. apply Hl. simpl in *.
    destruct (rev seq ++ [b]) as [|y r] eqn:E.
    + destruct (rev seq); discriminate.
    + simpl. exact H.
Qed.

Lemma collapse_loop_no_repeat_bounded n :
  forall parts seq,
    (length parts <= n)%nat ->
    no_repeat seq -> no_repeat (collapse_loop parts seq).
Proof.
  induction n as [|n IH]; intros parts seq Hn Hs.
  - destruct parts; [exact Hs|simpl in Hn; lia].
  - destruct parts as [|sent more]; [exact Hs|].
    simpl.
    set (full := strip (strip sent ++ match more with d :: _ => d | [] => [] end)).
    assert (Hs' : no_repeat
                    match full with
                    | [] => seq
                    | _ :: _ =>
                        match rev seq with
                        | [] => seq ++ [full]
                        | prev :: _ =>
                            if str_eqb prev full then seq else seq ++ [full]
                        end
                    end).
    { destruct full as [|c f] eqn:Ef; [exact Hs|].
      destruct (rev seq) as [|prev rs] eqn:Er.
      - apply no_repeat_snoc; [exact Hs|]. unfold last_kept. rewrite Er.
        discriminate.
      - destruct (str_eqb prev (c :: f)) eqn:E; [exact Hs|].
        apply no_repeat_snoc; [exact Hs|]. unfold last_kept. rewrite Er.
        apply str_eqb_neq in E. congruence. }
    destruct more as [|d parts']; [exact Hs'|].
    apply IH; [simpl in Hn; lia|exact Hs'].
Qed.

(** X16: the list of units that the loop of
    [_collapse_consecutive_sentences] builds, and that the function joins,
    never holds the same unit twice in a row; each unit of it is non-empty
    and has no blank at either end. *)
Theorem collapse_loop_no_repeat (text : str) :
  let seq := collapse_loop (split1 p_sentence_end text) [] in
  no_repeat seq /\ Forall (fun s => s <> [] /\ tidy s) seq.
Proof.
  split.
  - apply (collapse_loop_no_repeat_bounded
             (length (split1 p_sentence_end text))); [lia|exact I].
  - apply collapse_loop_tidy. constructor.
Qed.

Lemma split_units_plain s :
  forall sent,
    forallb (fun c => negb (is_delim c)) s = true ->
    split_units s sent [] = [(rev sent ++ s, [])].
Proof.
  induction s as [|c t IH]; intros sent H.
  - simpl. now rewrite app_nil_r.
  - simpl in H. apply andb_true_iff in H. destruct H as [Hc Ht].
    apply negb_true_iff in Hc. cbn [split_units]. rewrite Hc.
    rewrite IH by exact Ht. simpl. now rewrite <- app_assoc.
Qed.

(** X17: a text without sentence-ending punctuation (the full stop, the
    exclamation and the question mark of Chinese) and without line break is
    one unit: [_collapse_consecutive_sentences] returns it trimmed and
    otherwise unchanged. *)
Theorem collapse_single_sentence (text : str) :
  forallb (fun c => negb (is_delim c)) text = true ->
  _collapse_consecutive_sentences text = strip text.
Proof.
  intros H. rewrite collapse_by_units. unfold collapse_trimmed, units.
  rewrite split_units_plain by exact H.
  cbn [rev app List.map filter]. unfold trimmed_unit. cbn [fst snd].
  rewrite app_nil_r, strip_strip.
  destruct (strip text) as [|c t]; [reflexivity|].
  simpl. now rewrite app_nil_r.
Qed.

Lemma collapse_single_sentence_witness :
  _collapse_consecutive_sentences (u "  Hello there.  ") = strip (u "  Hello there.  ").
Proof.
  apply (collapse_single_sentence (u "  Hello there.  ")). reflexivity.
Defined.

End ReplyFacts.

Import ReplyFacts.

(** ** The history of a session *)

Module SessionFacts.

Lemma finish_history_twice h final :
  strip final = final ->
  finish_history (finish_history h final) final = finish_history h final.
Proof.
  intros Hs.
  assert (Hnew : nonempty final = true ->
                 finish_history (h ++ [Message assistant final]) final
                 = h ++ [Message assistant final]).
  { intros En. unfold finish_history. rewrite En, rev_app_distr. simpl.
    rewrite Hs, str_eqb_refl. reflexivity. }
  assert (Hc : finish_history h final = h
               \/ (finish_history h final = h ++ [Message assistant final]
                   /\ nonempty final = true)).
  { unfold finish_history. destruct (nonempty final); [|now left].
    destruct (last_assistant_in (rev h)) as [l|]; [|now right].
    destruct (str_eqb l final); [now left|now right]. }
  destruct Hc as [E|[E En]]; rewrite E.
  - exact E.
  - now apply Hnew.
Qed.

Lemma finish_history_cases h buffer :
  let final := final_text buffer in
  finish_history h final = h
  \/ (finish_history h final = h ++ [Message assistant final] /\ final <> []).
Proof.
  destruct (finish_history_spec h buffer) as [H|[H [Hn _]]]; [now left|now right].
Qed.

Lemma final_text_tidy buffer : tidy (final_text buffer).
Proof. apply collapse_tidy. Qed.

Section Session.

Context {Q : QTextEdit}.

Lemma handle_history w x :
  history (handle w x) = history w
  \/ (x = Signal finish_signal
      /\ history (handle w x)
         = history w ++ [Message assistant (final_text (current_ai_buffer w))]
      /\ final_text (current_ai_buffer w) <> []).
Proof.
  destruct (quiet x) eqn:Eq.
  - left. now apply handle_quiet.
  - destruct x as [[chunk| |msg|value]|]; try discriminate.
    simpl. rewrite on_stream_finish_history.
    destruct (finish_history_cases (history w) (current_ai_buffer w))
      as [H|[H Hn]]; [now left|right; auto].
Qed.

Lemma on_send_history w :
  history (on_send w)
  = match strip (input_box w) with
    | [] => history w
    | _ => history w ++ [Message user (strip (input_box w))]
    end.
Proof. unfold on_send. destruct (strip (input_box w)); reflexivity. Qed.

(** X18: the history only grows, and by whole turns: sending appends at most
    one turn, of the user, and the signals of a stream and the clicks on the
    stop button, however many and in whatever order, append only turns of the
    assistant.  No turn recorded is ever changed or removed by them. *)
Theorem history_append_only (w : window) :
  (exists more,
     history (on_send w) = history w ++ more
     /\ (length more <= 1)%nat
     /\ Forall (fun msg => role msg = user) more)
  /\ forall trace,
       exists more,
         history (run_trace w trace) = history w ++ more
         /\ Forall (fun msg => role msg = assistant) more.
Proof.
  split.
  - rewrite on_send_history. destruct (strip (input_box w)) as [|c t].
    + exists []. rewrite app_nil_r. repeat split; [simpl; lia|constructor].
    + eexists [_]. repeat split; [simpl; lia|]. repeat constructor.
  - intros trace. revert w.
    induction trace as [|x trace IH]; intros w.
    + exists []. split; [now rewrite app_nil_r|constructor].
    + unfold run_trace. simpl. fold (run_trace (handle w x) trace).
      destruct (IH (handle w x)) as [more [E F]]. rewrite E.
      destruct (handle_history w x) as [H|[_ [H _]]]; rewrite H.
      * exists more. auto.
      * eexists (_ :: more). rewrite <- app_assoc. split; [reflexivity|].
        constructor; [reflexivity|exact F].
Qed.

Lemma handle_buffer w x :
  exists p,
    current_ai_buffer w
      ++ match x with Signal (update_signal s) => s | _ => [] end
    = p ++ current_ai_buffer (handle w x).
Proof.
  destruct x as [[chunk| |msg|value]|]; simpl;
    try (exists []; now rewrite app_nil_r).
  - apply strip_role_prefixes_tail.
  - exists []. rewrite app_nil_r. simpl. now rewrite on_stream_finish_buffer.
  - exists []. rewrite app_nil_r. unfold on_stop. destruct (worker w); reflexivity.
Qed.

(** X19: the reply buffer is always the end of what was streamed.  After any
    events, the buffer is a final part of the text made of the buffer at the
    start followed by the deltas received since, in order: the stripping of
    role labels only ever removes text at the front, and nothing else writes
    to the buffer. *)
Theorem reply_buffer_is_tail (trace : list ui_event) :
  forall w : window,
    exists p,
      current_ai_buffer w
        ++ flat_map (fun e => match e with update_signal s => s | _ => [] end)
                    (signals_of trace)
      = p ++ current_ai_buffer (run_trace w trace).
Proof.
  induction trace as [|x trace IH]; intros w.
  - exists []. simpl. now rewrite app_nil_r.
  - unfold run_trace. simpl fold_left. fold (run_trace (handle w x) trace).
    destruct (IH (handle w x)) as [p2 E2].
    destruct (handle_buffer w x) as [p1 E1].
    exists (p1 ++ p2). rewrite <- app_assoc, <- E2, app_assoc, <- E1.
    destruct x as [[chunk| |msg|value]|]; simpl;
      rewrite ?app_nil_r, <- ?app_assoc; reflexivity.
Qed.

(** X20: a second finish signal for the same stream records nothing: when
    [on_stream_finish] runs twice in a row, the history after the second run
    is the history after the first. *)
Theorem finish_twice_records_once (w : window) :
  history (on_stream_finish (on_stream_finish w))
  = history (on_stream_finish w).
Proof.
  rewrite (on_stream_finish_history (on_stream_finish w)).
  rewrite on_stream_finish_buffer, on_stream_finish_history.
  apply finish_history_twice, final_text_strip.
Qed.

Context {C : QTextEditClear}.

(** X21: every turn of the history is a turn of the user or of the
    assistant whose content is not empty and has no blank at either end.
    This holds at the start, when the history is empty, and sending, the
    signals of a stream, the stop button and clearing each keep it. *)
Theorem history_turns_recorded (w : window) :
  Forall recorded_turn (history w) ->
  Forall recorded_turn (history (on_send w))
  /\ (forall x, Forall recorded_turn (history (handle w x)))
  /\ (forall confirmed, Forall recorded_turn (history (clear_history confirmed w))).
Proof.
  intros H. split; [|split].
  - rewrite on_send_history. destruct (strip (input_box w)) as [|c t] eqn:E;
      [exact H|].
    apply Forall_app. split; [exact H|]. constructor; [|constructor].
    split; [discriminate|]. split; [discriminate|].
    rewrite <- E. apply strip_tidy.
  - intros x. destruct (handle_history w x) as [E|[_ [E Hn]]]; rewrite E;
      [exact H|].
    apply Forall_app. split; [exact H|]. constructor; [|constructor].
    split; [discriminate|]. split; [exact Hn|apply final_text_tidy].
  - intros [|]; simpl; [constructor|exact H].
Qed.

(** X22: the label that counts the turns is always right.  If it shows the
    length of the history, it still does after sending, after any signal of a
    stream or click on the stop button, after clearing, confirmed or not,
    after an export and after a change of model. *)
Theorem history_label_counts (w : window) :
  label_counts w ->
  label_counts (on_send w)
  /\ (forall x, label_counts (handle w x))
  /\ (forall confirmed, label_counts (clear_history confirmed w))
  /\ (forall err, label_counts (fst (fst (export_conversation err w))))
  /\ (forall name, label_counts (on_model_changed name w)).
Proof.
  unfold label_counts. intros H. split; [|split; [|split; [|split]]].
  - unfold on_send. destruct (strip (input_box w)); [exact H|reflexivity].
  - intros [[chunk| |msg|value]|]; simpl; try exact H.
    + unfold on_stream_finish.
      destruct (subn block_pattern (fun _ => []) 1 (toHtml (chat_display w))).
      reflexivity.
    + unfold on_stop. destruct (worker w); exact H.
  - intros [|]; [reflexivity|exact H].
  - intros err. replace (fst (fst (export_conversation err w))) with w;
      [exact H|].
    unfold export_conversation.
    destruct (history w); [reflexivity|destruct err; reflexivity].
  - intros name. exact H.
Qed.

(** X23: clearing the history, once confirmed, empties it and the display
    but leaves the reply buffer and the worker as they are.  So a stream in
    progress goes on, and when it ends its reply, if it is not empty, is
    recorded as the only turn of the history, with no turn of the user before
    it. *)
Theorem clear_history_keeps_stream (w : window) :
  let w' := clear_history true w in
  history w' = []
  /\ current_ai_buffer w' = current_ai_buffer w
  /\ worker w' = worker w
  /\ history (on_stream_finish w')
     = if nonempty (final_text (current_ai_buffer w))
       then [Message assistant (final_text (current_ai_buffer w))]
       else [].
Proof.
  cbv zeta. repeat split.
  rewrite on_stream_finish_history. simpl.
  unfold finish_history.
  destruct (nonempty (final_text (current_ai_buffer w))); reflexivity.
Qed.

Lemma no_system_turn h :
  Forall recorded_turn h ->
  filter (fun msg => match role msg with system => true | _ => false end) h = [].
Proof.
  induction 1 as [|msg h [Hr _] _ IH]; [reflexivity|].
  simpl. rewrite IH. destruct (role msg); [congruence|reflexivity|reflexivity].
Qed.

(** X24: the request a send starts carries the conversation as the window
    has recorded it.  When the input is not blank, the worker is created with
    the system prompt followed by the whole history, the new turn of the user
    last; as long as the history holds recorded turns only, the prompt is the
    one system message of the request.  The worker takes the model of the
    model box and starts not stopped, its counter at zero. *)
Theorem request_carries_history (w : window) :
  Forall recorded_turn (history w) ->
  strip (input_box w) <> [] ->
  exists wk,
    worker (on_send w) = Some wk
    /\ messages wk = Message system DEFAULT_SYSTEM_PROMPT :: history (on_send w)
    /\ filter (fun msg => match role msg with system => true | _ => false end)
              (messages wk)
       = [Message system DEFAULT_SYSTEM_PROMPT]
    /\ model wk = model_box w
    /\ _stop wk = false
    /\ token_count wk = 0%Z.
Proof.
  intros Hh Hi. unfold on_send.
  destruct (strip (input_box w)) as [|c t] eqn:E; [congruence|].
  eexists. split; [reflexivity|]. split; [reflexivity|].
  split; [|repeat split].
  cbn [messages init app filter role]. rewrite filter_app, (no_system_turn _ Hh).
  reflexivity.
Qed.

Context {L : Library}.

(** X25: a request that fails records no reply.  When the connection is
    refused or the answer has a status other than 200, the session that
    follows a send (the signals of the run in order, clicks on the stop
    button among them) leaves in the history the turn of the user and nothing
    after it. *)
Theorem failed_request_records_no_reply
    (w : window) (wk : StreamWorker.worker) (post : post_result)
    (trace : list ui_event) :
  strip (input_box w) <> [] ->
  match post with
  | PostRaises _ => True
  | PostReturns resp => status_code resp <> 200%Z
  end ->
  signals_of trace = fst (run wk post) ->
  history (run_trace (on_send w) trace)
  = history w ++ [Message user (strip (input_box w))].
Proof.
  intros Hi Hp Hs.
  assert (Hrun : exists msg, fst (run wk post) = [error_signal msg] ++ [finish_signal]).
  { unfold run. destruct post as [e|resp]; [eexists; reflexivity|].
    apply Z.eqb_neq in Hp. rewrite Hp. eexists. reflexivity. }
  destruct Hrun as [msg Hrun]. rewrite Hrun in Hs.
  destruct (trace_shape trace [error_signal msg] Hs eq_refl)
    as [t1 [t2 [Et [Q1 [Q2 S1]]]]].
  subst trace. rewrite run_trace_app.
  change (Signal finish_signal :: t2) with ([Signal finish_signal] ++ t2).
  rewrite run_trace_app, (run_trace_quiet t2 _ Q2).
  cbn [run_trace fold_left handle deliver].
  rewrite on_stream_finish_history.
  rewrite (run_trace_quiet t1 _ Q1).
  rewrite (run_trace_no_update t1 _ Q1) by (rewrite S1; reflexivity).
  assert (Hb : current_ai_buffer (on_send w) = []).
  { unfold on_send. destruct (strip (input_box w)); [congruence|reflexivity]. }
  rewrite Hb. change (final_text []) with (@nil char).
  rewrite on_send_history. destruct (strip (input_box w)); [congruence|reflexivity].
Qed.

Lemma ci_startswith_app lab :
  forall s r, ci_startswith lab s = true -> ci_startswith lab (s ++ r) = true.
Proof.
  induction lab as [|a lab IH]; intros s r H; [reflexivity|].
  destruct s as [|b s]; [discriminate|]. simpl in *.
  apply andb_true_iff in H. destruct H as [Hab H]. now rewrite Hab, IH.
Qed.

Lemma begins_with_label_app s r :
  begins_with_label s = true -> begins_with_label (s ++ r) = true.
Proof.
  induction s as [|c t IH]; intros H; [vm_compute in H; discriminate|].
  change (begins_with_label (c :: t))
    with (existsb (fun l => ci_startswith l (c :: t)) role_labels
          || (isspace c && begins_with_label t)) in H.
  change (begins_with_label ((c :: t) ++ r))
    with (existsb (fun l => ci_startswith l ((c :: t) ++ r)) role_labels
          || (isspace c && begins_with_label (t ++ r))).
  apply orb_true_iff in H. destruct H as [H|H].
  - apply orb_true_iff. left. apply existsb_exists in H.
    destruct H as [l [Hin Hl]]. apply existsb_exists. exists l.
    split; [exact Hin|now apply ci_startswith_app].
  - apply andb_true_iff in H. destruct H as [Hc H]. rewrite Hc, (IH H).
    apply orb_true_r.
Qed.

Lemma strip_role_prefixes_keeps s r :
  begins_with_label (s ++ r) = false -> _strip_role_prefixes s = s.
Proof.
  intros H. apply strip_role_prefixes_unlabelled.
  destruct (begins_with_label s) eqn:E; [|reflexivity].
  apply (begins_with_label_app s r) in E. congruence.
Qed.

(** While no label shows at the start, the buffer is the text received. *)
Lemma run_trace_buffer trace :
  forall w,
    forallb quiet trace = true ->
    begins_with_label
      (current_ai_buffer w
         ++ flat_map (fun e => match e with update_signal s => s | _ => [] end)
                     (signals_of trace)) = false ->
    current_ai_buffer (run_trace w trace)
    = current_ai_buffer w
        ++ flat_map (fun e => match e with update_signal s => s | _ => [] end)
                    (signals_of trace).
Proof.
  induction trace as [|x trace IH]; intros w Hq Hb.
  - simpl. now rewrite app_nil_r.
  - simpl in Hq. apply andb_true_iff in Hq. destruct Hq as [Hx Ht].
    unfold run_trace. simpl fold_left. fold (run_trace (handle w x) trace).
    destruct x as [[chunk| |msg|value]|]; try discriminate;
      cbn [signals_of flat_map] in *.
    + assert (E : current_ai_buffer (handle w (Signal (update_signal chunk)))
                  = current_ai_buffer w ++ chunk).
      { simpl. rewrite app_assoc in Hb.
        apply (strip_role_prefixes_keeps _ _ Hb). }
      rewrite IH; [now rewrite E, <- app_assoc|exact Ht|].
      now rewrite E, <- app_assoc.
    + rewrite IH; [reflexivity|exact Ht|exact Hb].
    + rewrite IH; [reflexivity|exact Ht|exact Hb].
    + assert (E : current_ai_buffer (handle w StopClicked) = current_ai_buffer w).
      { simpl. unfold on_stop. destruct (worker w); reflexivity. }
      rewrite IH; [now rewrite E|exact Ht|now rewrite E].
Qed.

(** X26: the reply recorded is the reply streamed.  Take a window whose
    reply buffer is empty, as [on_send] leaves it, and a session in which the
    signals of one run reach it in order, clicks on the stop button among
    them.  If the deltas put together do not begin with a role label, the
    history at the end is the history at the start followed, under the
    guard against empty and repeated replies, by one turn of the assistant:
    the deltas put together, trimmed and with repeated sentences
    collapsed. *)
Theorem streamed_reply_recorded
    (w : window) (trace : list ui_event) (evs : list event) :
  current_ai_buffer w = [] ->
  signals_of trace = evs ++ [finish_signal] ->
  forallb (fun e => negb (is_finish e)) evs = true ->
  begins_with_label
    (flat_map (fun e => match e with update_signal s => s | _ => [] end) evs)
  = false ->
  history (run_trace w trace)
  = finish_history (history w)
      (final_text
         (flat_map (fun e => match e with update_signal s => s | _ => [] end)
                   evs)).
Proof.
  intros Hb Hs Hf Hl.
  destruct (trace_shape trace evs Hs Hf) as [t1 [t2 [Et [Q1 [Q2 S1]]]]].
  subst trace. rewrite run_trace_app.
  change (Signal finish_signal :: t2) with ([Signal finish_signal] ++ t2).
  rewrite run_trace_app, (run_trace_quiet t2 _ Q2).
  cbn [run_trace fold_left handle deliver].
  rewrite on_stream_finish_history, (run_trace_quiet t1 _ Q1).
  rewrite (run_trace_buffer t1 w Q1) by (rewrite Hb, S1; exact Hl).
  now rewrite Hb, S1.
Qed.

End Session.

Lemma streamed_reply_recorded_witness :
  history
    (run_trace (on_send (Sample.blank_window (u "Hello")))
       [Signal (update_signal (u "Hi")); Signal (progress_signal 0);
        StopClicked; Signal (update_signal (u " there")); Signal finish_signal])
  = finish_history (history (on_send (Sample.blank_window (u "Hello"))))
      (final_text
         (flat_map (fun e => match e with update_signal s => s | _ => [] end)
                   [update_signal (u "Hi"); progress_signal 0;
                    update_signal (u " there")])).
Proof.
  apply (streamed_reply_recorded (Q := Sample.plain_display)
           (on_send (Sample.blank_window (u "Hello"))) _
           [update_signal (u "Hi"); progress_signal 0;
            update_signal (u " there")]);
    reflexivity.
Defined.

Lemma request_carries_history_witness :
  exists wk,
    worker (on_send (Sample.blank_window (u "Hello"))) = Some wk
    /\ messages wk
       = Message system DEFAULT_SYSTEM_PROMPT
           :: history (on_send (Sample.blank_window (u "Hello")))
    /\ filter (fun msg => match role msg with system => true | _ => false end)
              (messages wk)
       = [Message system DEFAULT_SYSTEM_PROMPT]
    /\ model wk = model_box (Sample.blank_window (u "Hello"))
    /\ _stop wk = false
    /\ token_count wk = 0%Z.
Proof.
  apply (request_carries_history (Q := Sample.plain_display)
           (Sample.blank_window (u "Hello"))).
  - constructor.
  - discriminate.
Defined.

Lemma failed_request_records_no_reply_witness :
  history
    (run_trace (on_send (Sample.blank_window (u "Hello")))
       [Signal (error_signal (u "请求失败: " ++ u "refused")); StopClicked;
        Signal finish_signal])
  = history (Sample.blank_window (u "Hello"))
      ++ [Message user (strip (input_box (Sample.blank_window (u "Hello"))))].
Proof.
  apply (failed_request_records_no_reply (Q := Sample.plain_display)
           (L := Sample.library) (Sample.blank_window (u "Hello"))
           (init [] DEFAULT_MODEL) (PostRaises (u "refused"))).
  - discriminate.
  - exact I.
  - reflexivity.
Defined.

Lemma history_turns_recorded_witness :
  Forall recorded_turn (history (on_send (Sample.blank_window (u " Hello "))))
  /\ (forall x, Forall recorded_turn
                  (history (handle (Sample.blank_window (u " Hello ")) x)))
  /\ (forall confirmed,
        Forall recorded_turn
          (history (clear_history (C := Sample.plain_clear) confirmed (Sample.blank_window (u " Hello "))))).
Proof.
  apply (history_turns_recorded (Q := Sample.plain_display)
           (C := Sample.plain_clear) (Sample.blank_window (u " Hello "))).
  constructor.
Defined.

Lemma history_label_counts_witness :
  label_counts (on_send (Sample.blank_window (u "Hello")))
  /\ (forall x, label_counts (handle (Sample.blank_window (u "Hello")) x))
  /\ (forall confirmed,
        label_counts (clear_history (C := Sample.plain_clear) confirmed (Sample.blank_window (u "Hello"))))
  /\ (forall err,
        label_counts
          (fst (fst (export_conversation err (Sample.blank_window (u "Hello"))))))
  /\ (forall name,
        label_counts (on_model_changed name (Sample.blank_window (u "Hello")))).
Proof.
  apply (history_label_counts (Q := Sample.plain_display)
           (C := Sample.plain_clear) (Sample.blank_window (u "Hello"))).
  reflexivity.
Defined.

End SessionFacts.

Import SessionFacts.

(** ** The model list *)

Module ModelFacts.

(** *** Discovery *)

Lemma dedup_first_seen models :
  forall seen,
    (forall a x b, seen = a ++ x :: b -> existsb (py_eq x) a = false) ->
    forall a x b, dedup models seen = a ++ x :: b -> existsb (py_eq x) a = false.
Proof.
  induction models as [|m models IH]; intros seen Hs; [exact Hs|].
  simpl. destruct (existsb (py_eq m) seen) eqn:Em; [now apply IH|].
  apply IH. intros a x b E.
  destruct (exists_last (l := x :: b)) as [b' [y Eb]]; [discriminate|].
  rewrite Eb, app_assoc in E. apply app_inj_tail in E. destruct E as [E Ey].
  subst y. destruct b' as [|x' b'].
  - simpl in Eb. injection Eb as Ex Eb. subst x. rewrite app_nil_r in E.
    now subst a.
  - simpl in Eb. injection Eb as Ex Eb. subst x'.
    apply (Hs a x b'). exact E.
Qed.

(** X27: the list [fetch_models_from_api] returns holds no name twice: no
    entry of it is equal, as Python compares values, to an entry before
    it. *)
Theorem fetch_models_no_duplicates (r : get_result) :
  forall a x b,
    fetch_models_from_api r = a ++ x :: b -> existsb (py_eq x) a = false.
Proof.
  assert (Hnil : forall a (x : json) b, [] = a ++ x :: b -> existsb (py_eq x) a = false).
  { intros a x b E. destruct a; discriminate. }
  unfold fetch_models_from_api. destruct r as [|code body]; [exact Hnil|].
  destruct (negb (code =? 200)%Z); [exact Hnil|].
  destruct body as [data|]; [|exact Hnil].
  apply dedup_first_seen. exact Hnil.
Qed.

Lemma fetch_models_no_duplicates_witness :
  existsb (py_eq (JStr (u "m2"))) [JStr (u "m1")] = false.
Proof.
  apply (fetch_models_no_duplicates
           (GetReturns 200
              (Some (JArr [JObj [(u "id", JStr (u "m1"))];
                           JObj [(u "name", JStr (u "m2"))];
                           JObj [(u "id", JStr (u "m1"))]])))
           [JStr (u "m1")] (JStr (u "m2")) []).
  reflexivity.
Defined.



(** *** The saved list *)




Lemma as_strings_map l : Sample.as_strings (List.map JStr l) = Some l.
Proof. induction l as [|s l IH]; [reflexivity|]. simpl. now rewrite IH. Qed.

Section Models.

Context {B : QComboBox}.

(** X30: a saved list is found again.  Take a model box that adds a list of
    strings as it is given, and a models file that holds, when read, the
    list last dumped to it.  If [save_current_model] has written the file and
    the API lists no model at the next start, [load_saved_models] fills the
    box with exactly the items it had after the save, the new name last. *)
Theorem saved_models_round_trip
    (current_text : str) (items saved : list str) (r : get_result) :
  (forall l, addItems (JArr (List.map JStr l)) [] = Some l) ->
  snd (fst (save_current_model current_text items None)) = Some saved ->
  fetch_models_from_api r = [] ->
  load_saved_models (fetch_models_from_api r) (Holds (JArr (List.map JStr saved)))
  = Some (fst (fst (save_current_model current_text items None)))
  /\ saved = items ++ [strip current_text].
Proof.
  intros Hadd Hs Hr. rewrite Hr. unfold load_saved_models. rewrite Hadd.
  revert Hs. unfold save_current_model.
  destruct (strip current_text) as [|c t]; [discriminate|].
  destruct (existsb (str_eqb (c :: t)) items); [discriminate|].
  simpl. intros E. injection E as E. subst saved. split; reflexivity.
Qed.

End Models.

Lemma saved_models_round_trip_witness :
  load_saved_models (B := Sample.string_box) (fetch_models_from_api GetRaises)
    (Holds (JArr (List.map JStr (DEFAULT_MODELS ++ [u "llama-3"]))))
  = Some (fst (fst (save_current_model (u " llama-3 ") DEFAULT_MODELS None)))
  /\ DEFAULT_MODELS ++ [u "llama-3"] = DEFAULT_MODELS ++ [strip (u " llama-3 ")].
Proof.
  apply (saved_models_round_trip (B := Sample.string_box) (u " llama-3 ")
           DEFAULT_MODELS (DEFAULT_MODELS ++ [u "llama-3"]) GetRaises).
  - intros l. simpl. now rewrite as_strings_map.
  - reflexivity.
  - reflexivity.
Defined.

End ModelFacts.

Import ModelFacts.
